(** * BreezeEngine: the scene model and the interaction controller of Main.py

    A shallow embedding of [Sprite] and [FlamingEngine] (src/Main.py).

    - Python integers are [Z]; strings are [string]; [None]-able references
      are [option].
    - [Sprite] objects are mutable and aliased (the dict [sprites], the
      attribute [selected_sprite] and the handlers all reach the same object),
      so the engine carries a heap of objects indexed by address and every
      reference is an address.
    - [self.sprites] is a Python [dict]: insertion ordered, which matters
      because [render] draws in that order.  It is an association list.
    - The Tk canvas is a display list of tagged items with integer handles;
      the tree view is its rows and its selection.
    - A handler may raise: handlers live in a state-and-exception monad that
      keeps the state reached when the exception escapes, as Tk's main loop
      does when a callback fails. *)

From Stdlib Require Import ZArith String List Lia DecimalString DecimalNat.
From stdpp Require Import base numbers option list strings.

Local Open Scope string_scope.

(** ** Platform services *)

(** A decoded and resized [ImageTk.PhotoImage]: the identity of the pixel
    data and the size it was resized to. *)
Record PhotoImage := {
  image_id : nat;
  image_width : Z;
  image_height : Z
}.

(** What [canvas.create_image] and [canvas.create_rectangle] are given. *)
Inductive Item :=
| ImageItem (x y : Z) (image : PhotoImage) (tags : list string)
| RectangleItem (x1 y1 x2 y2 : Z) (fill outline : string) (tags : list string).

Definition item_tags (it : Item) : list string :=
  match it with
  | ImageItem _ _ _ tags => tags
  | RectangleItem _ _ _ _ _ _ tags => tags
  end.

(** A string without braces, double quotes and backslashes. *)
Definition plain_char (c : Ascii.ascii) : bool :=
  let n := Ascii.nat_of_ascii c in
  negb (Nat.eqb n 34 || Nat.eqb n 92 || Nat.eqb n 123 || Nat.eqb n 125).

Fixpoint plain (s : string) : bool :=
  match s with
  | EmptyString => true
  | String c rest => plain_char c && plain rest
  end.

(** The services the program takes from its libraries:
    - [uuid4 n] is [str(uuid.uuid4())] at the [n]-th call of the process;
    - [overlaps it x1 y1 x2 y2] is Tk's area test, the one behind
      [canvas.find_overlapping];
    - [int s] is the builtin [int(s)] on a string, [None] where it raises
      [ValueError];
    - [tcl_list s] tells whether Tcl reads the string [s] as a list, which
      the tree view asks of the [values] of a row.  Tcl refuses a string
      only for an element that opens with a brace or a double quote and is
      not closed, or is closed before something else than white space; so it
      reads every [plain] string as a list. *)
Class Platform := {
  uuid4 : nat → string;
  overlaps : Item → Z → Z → Z → Z → bool;
  int : string → option Z;
  tcl_list : string → bool;
  tcl_list_plain : ∀ s, plain s = true → tcl_list s = true
}.

(** ** The canvas: a display list, lowest item first *)

Record Canvas := {
  items : list (nat * Item);
  next_item : nat
}.

Definition canvas_new : Canvas := {| items := []; next_item := 1 |}.

(** [canvas.delete(item)] *)
Definition canvas_delete (item : nat) (cv : Canvas) : Canvas :=
  {| items := filter (λ p, p.1 ≠ item) (items cv); next_item := next_item cv |}.

(** [canvas.delete("all")] *)
Definition canvas_delete_all (cv : Canvas) : Canvas :=
  {| items := []; next_item := next_item cv |}.

(** [canvas.create_image] and [canvas.create_rectangle]: the new item goes on
    top of the display list and its handle is returned. *)
Definition canvas_create (it : Item) (cv : Canvas) : nat * Canvas :=
  (next_item cv,
   {| items := items cv ++ [(next_item cv, it)]; next_item := S (next_item cv) |}).

(** [canvas.gettags(item)] *)
Definition gettags (cv : Canvas) (item : nat) : list string :=
  match List.find (λ p, Nat.eqb p.1 item) (items cv) with
  | Some p => item_tags p.2
  | None => []
  end.

(** [canvas.find_overlapping(x1, y1, x2, y2)]: handles in stacking order,
    the lowest item first. *)
Definition find_overlapping `{Platform} (cv : Canvas) (x1 y1 x2 y2 : Z) : list nat :=
  map fst (List.filter (λ p, overlaps p.2 x1 y1 x2 y2) (items cv)).

(** ** Sprite *)

Module Sprite.

Record t := mk {
  id : string;
  name : string;
  x : Z;
  y : Z;
  texture : option PhotoImage;
  color : string;
  width : Z;
  height : Z;
  draggable : bool;
  is_dragging : bool;
  drag_offset_x : Z;
  drag_offset_y : Z;
  canvas_id : option nat;
  script : option string
}.

(** [Sprite.__init__(engine, name, x, y)], given the identifier drawn by
    [uuid.uuid4()]. *)
Definition init (uuid : string) (name0 : string) (x0 y0 : Z) : t :=
  {| id := uuid; name := name0; x := x0; y := y0; texture := None;
     color := "white"; width := 50; height := 50; draggable := true;
     is_dragging := false; drag_offset_x := 0; drag_offset_y := 0;
     canvas_id := None; script := None |}.

Definition set_name (v : string) (s : t) : t :=
  mk (id s) v (x s) (y s) (texture s) (color s) (width s) (height s)
     (draggable s) (is_dragging s) (drag_offset_x s) (drag_offset_y s)
     (canvas_id s) (script s).
Definition set_x (v : Z) (s : t) : t :=
  mk (id s) (name s) v (y s) (texture s) (color s) (width s) (height s)
     (draggable s) (is_dragging s) (drag_offset_x s) (drag_offset_y s)
     (canvas_id s) (script s).
Definition set_y (v : Z) (s : t) : t :=
  mk (id s) (name s) (x s) v (texture s) (color s) (width s) (height s)
     (draggable s) (is_dragging s) (drag_offset_x s) (drag_offset_y s)
     (canvas_id s) (script s).
Definition set_texture (v : option PhotoImage) (s : t) : t :=
  mk (id s) (name s) (x s) (y s) v (color s) (width s) (height s)
     (draggable s) (is_dragging s) (drag_offset_x s) (drag_offset_y s)
     (canvas_id s) (script s).
Definition set_color (v : string) (s : t) : t :=
  mk (id s) (name s) (x s) (y s) (texture s) v (width s) (height s)
     (draggable s) (is_dragging s) (drag_offset_x s) (drag_offset_y s)
     (canvas_id s) (script s).
Definition set_width (v : Z) (s : t) : t :=
  mk (id s) (name s) (x s) (y s) (texture s) (color s) v (height s)
     (draggable s) (is_dragging s) (drag_offset_x s) (drag_offset_y s)
     (canvas_id s) (script s).
Definition set_height (v : Z) (s : t) : t :=
  mk (id s) (name s) (x s) (y s) (texture s) (color s) (width s) v
     (draggable s) (is_dragging s) (drag_offset_x s) (drag_offset_y s)
     (canvas_id s) (script s).
Definition set_draggable (v : bool) (s : t) : t :=
  mk (id s) (name s) (x s) (y s) (texture s) (color s) (width s) (height s)
     v (is_dragging s) (drag_offset_x s) (drag_offset_y s)
     (canvas_id s) (script s).
Definition set_is_dragging (v : bool) (s : t) : t :=
  mk (id s) (name s) (x s) (y s) (texture s) (color s) (width s) (height s)
     (draggable s) v (drag_offset_x s) (drag_offset_y s)
     (canvas_id s) (script s).
Definition set_drag_offset (vx vy : Z) (s : t) : t :=
  mk (id s) (name s) (x s) (y s) (texture s) (color s) (width s) (height s)
     (draggable s) (is_dragging s) vx vy (canvas_id s) (script s).
Definition set_canvas_id (v : option nat) (s : t) : t :=
  mk (id s) (name s) (x s) (y s) (texture s) (color s) (width s) (height s)
     (draggable s) (is_dragging s) (drag_offset_x s) (drag_offset_y s)
     v (script s).
Definition set_script (v : option string) (s : t) : t :=
  mk (id s) (name s) (x s) (y s) (texture s) (color s) (width s) (height s)
     (draggable s) (is_dragging s) (drag_offset_x s) (drag_offset_y s)
     (canvas_id s) v.

(** [load_texture(path)]: [opened] is what [Image.open(path)] gave, the
    identity of the decoded pixels, or [None] when it raised.  The image
    is resized to the sprite's size; the result is the returned flag. *)
Definition load_texture (opened : option nat) (s : t) : bool * t :=
  match opened with
  | Some px =>
      (true,
       set_texture
         (Some {| image_id := px; image_width := width s; image_height := height s |}) s)
  | None => (false, s)
  end.

(** The canvas handle of a former [draw] is deleted when there is one.
    Tk handles start at 1, so a stored handle is truthy. *)
Definition delete_old (s : t) (cv : Canvas) : Canvas :=
  match canvas_id s with
  | Some c => canvas_delete c cv
  | None => cv
  end.

(** [draw(canvas)] *)
Definition draw (s : t) (cv : Canvas) : t * Canvas :=
  match texture s with
  | Some img =>
      let cv1 := delete_old s cv in
      let '(c, cv2) :=
        canvas_create (ImageItem (x s) (y s) img ["sprite"; id s]) cv1 in
      (set_canvas_id (Some c) s, cv2)
  | None =>
      let cv1 := delete_old s cv in
      let '(c, cv2) :=
        canvas_create
          (RectangleItem (x s) (y s) (x s + width s) (y s + height s)
             (color s) "white" ["sprite"; id s]) cv1 in
      (set_canvas_id (Some c) s, cv2)
  end.

(** [contains_point(x, y)] *)
Definition contains_point (px py : Z) (s : t) : bool :=
  ((x s <=? px) && (px <=? x s + width s) &&
   ((y s <=? py) && (py <=? y s + height s)))%Z.

(** [start_drag(x, y)] *)
Definition start_drag (px py : Z) (s : t) : t :=
  if draggable s then
    set_drag_offset (px - x s) (py - y s) (set_is_dragging true s)
  else s.

(** [update_drag(x, y)] *)
Definition update_drag (px py : Z) (s : t) : t :=
  if is_dragging s then
    set_y (py - drag_offset_y s) (set_x (px - drag_offset_x s) s)
  else s.

(** [end_drag()] *)
Definition end_drag (s : t) : t := set_is_dragging false s.

(** [duplicate()], given the identifier drawn for the new object.  A
    [PhotoImage] is always truthy, so the texture is taken over exactly
    when there is one. *)
Definition duplicate (uuid : string) (s : t) : t :=
  let new_sprite := init uuid (name s ++ "_copy") (x s + 20) (y s + 20) in
  let new_sprite := set_color (color s) new_sprite in
  let new_sprite := set_width (width s) new_sprite in
  let new_sprite := set_height (height s) new_sprite in
  let new_sprite := set_draggable (draggable s) new_sprite in
  match texture s with
  | Some img => set_texture (Some img) new_sprite
  | None => new_sprite
  end.

(** [add_script(script_content)] *)
Definition add_script (script_content : string) (s : t) : t :=
  set_script (Some script_content) s.

End Sprite.

(** ** Python dicts, insertion ordered *)

(** References to [Sprite] objects: addresses in the engine's heap. *)
Abbreviation addr := nat.

Section dict.
Context {V : Type}.

(** [d.get(k)] *)
Fixpoint dict_get (k : string) (d : list (string * V)) : option V :=
  match d with
  | [] => None
  | (k', v) :: rest => if decide (k' = k) then Some v else dict_get k rest
  end.

(** [d[k] = v]: an existing key keeps its place, a new key goes last. *)
Fixpoint dict_set (k : string) (v : V) (d : list (string * V)) : list (string * V) :=
  match d with
  | [] => [(k, v)]
  | (k', v') :: rest =>
      if decide (k' = k) then (k, v) :: rest else (k', v') :: dict_set k v rest
  end.

(** [del d[k]], for a key that is present. *)
Definition dict_del (k : string) (d : list (string * V)) : list (string * V) :=
  filter (λ p, p.1 ≠ k) d.

(** [k in d] *)
Definition dict_in (k : string) (d : list (string * V)) : bool :=
  bool_decide (k ∈ d.*1).

(** [d.values()] *)
Definition dict_values (d : list (string * V)) : list V := d.*2.
End dict.

(** ** The tree view: rows (iid, text) and the selected iids *)

Record Treeview := {
  rows : list (string * string);
  selection : list string
}.

Definition tree_new : Treeview := {| rows := []; selection := [] |}.

(** [tree.delete( *tree.get_children())]: deleted rows leave the selection. *)
Definition tree_delete_children (tv : Treeview) : Treeview :=
  {| rows := []; selection := [] |}.

(** [tree.insert("", "end", iid=..., text=..., values=...)], where [values]
    is a string: ttk hands a string on to Tk as it is.  Tk refuses an iid
    that is already a row, and a [values] that is no Tcl list; a refused
    row is not inserted ([None] stands for the [TclError]).  The columns of
    a row are never read back, so a row is its iid and its text. *)
Definition tree_insert `{Platform} (iid text values : string) (tv : Treeview)
  : option Treeview :=
  if bool_decide (iid ∈ (rows tv).*1) then None
  else if tcl_list values then
    Some {| rows := rows tv ++ [(iid, text)]; selection := selection tv |}
  else None.

(** [tree.selection_set(iid)]: Tk refuses an iid that is no row. *)
Definition tree_selection_set (iid : string) (tv : Treeview) : option Treeview :=
  if bool_decide (iid ∈ (rows tv).*1) then
    Some {| rows := rows tv; selection := [iid] |}
  else None.

(** ** FlamingEngine: the state *)

Record Engine := mkEngine {
  heap : list Sprite.t;              (* every Sprite object made so far *)
  uuid_calls : nat;                  (* calls of uuid.uuid4() so far *)
  sprites : list (string * addr);    (* self.sprites *)
  selected_sprite : option addr;     (* self.selected_sprite *)
  is_running : bool;
  drag_source : option string;
  canvas : Canvas;
  scene_tree : Treeview
}.

Definition set_heap (v : list Sprite.t) (st : Engine) : Engine :=
  mkEngine v (uuid_calls st) (sprites st) (selected_sprite st) (is_running st)
    (drag_source st) (canvas st) (scene_tree st).
Definition set_uuid_calls (v : nat) (st : Engine) : Engine :=
  mkEngine (heap st) v (sprites st) (selected_sprite st) (is_running st)
    (drag_source st) (canvas st) (scene_tree st).
Definition set_sprites (v : list (string * addr)) (st : Engine) : Engine :=
  mkEngine (heap st) (uuid_calls st) v (selected_sprite st) (is_running st)
    (drag_source st) (canvas st) (scene_tree st).
Definition set_selected_sprite (v : option addr) (st : Engine) : Engine :=
  mkEngine (heap st) (uuid_calls st) (sprites st) v (is_running st)
    (drag_source st) (canvas st) (scene_tree st).
Definition set_is_running (v : bool) (st : Engine) : Engine :=
  mkEngine (heap st) (uuid_calls st) (sprites st) (selected_sprite st) v
    (drag_source st) (canvas st) (scene_tree st).
Definition set_drag_source (v : option string) (st : Engine) : Engine :=
  mkEngine (heap st) (uuid_calls st) (sprites st) (selected_sprite st) (is_running st)
    v (canvas st) (scene_tree st).
Definition set_canvas (v : Canvas) (st : Engine) : Engine :=
  mkEngine (heap st) (uuid_calls st) (sprites st) (selected_sprite st) (is_running st)
    (drag_source st) v (scene_tree st).
Definition set_scene_tree (v : Treeview) (st : Engine) : Engine :=
  mkEngine (heap st) (uuid_calls st) (sprites st) (selected_sprite st) (is_running st)
    (drag_source st) (canvas st) v.

(** The object a reference denotes.  Python has no dangling reference: an
    address outside the heap denotes no object and is treated as [None]. *)
Definition obj (st : Engine) (r : option addr) : option (addr * Sprite.t) :=
  match r with
  | Some a => match heap st !! a with Some s => Some (a, s) | None => None end
  | None => None
  end.

(** ** Handlers: state and exceptions *)

Inductive exn := IndexError | ValueError | TclError.

Inductive outcome (A : Type) :=
| Return (a : A)
| Raise (e : exn).
Arguments Return {A} a.
Arguments Raise {A} e.

Definition M (A : Type) : Type := Engine → outcome A * Engine.

Definition ret {A} (a : A) : M A := λ st, (Return a, st).
Definition raise {A} (e : exn) : M A := λ st, (Raise e, st).
Definition bind {A B} (m : M A) (k : A → M B) : M B :=
  λ st, match m st with
        | (Return a, st') => k a st'
        | (Raise e, st') => (Raise e, st')
        end.
Definition get : M Engine := λ st, (Return st, st).
Definition modify (f : Engine → Engine) : M unit := λ st, (Return tt, f st).

(** The state a handler leaves, whether it returned or raised. *)
Definition exec {A} (m : M A) (st : Engine) : Engine := (m st).2.

Declare Scope py_scope.
Delimit Scope py_scope with py.
Notation "x <- m ;; k" := (bind m (λ x, k))
  (at level 100, m at next level, right associativity) : py_scope.
Notation "m ;; k" := (bind m (λ _, k))
  (at level 100, right associativity) : py_scope.
Local Open Scope py_scope.

(** Mutation of the object at an address. *)
Definition mutate (a : addr) (f : Sprite.t → Sprite.t) : M unit :=
  modify (λ st, set_heap (alter f a (heap st)) st).

(** [Sprite(...)]: draws the identifier, allocates the object and returns
    the reference to it. *)
Definition new_sprite `{Platform} (make : string → Sprite.t) : M addr :=
  λ st,
    let uuid := uuid4 (uuid_calls st) in
    (Return (length (heap st)),
     set_uuid_calls (S (uuid_calls st)) (set_heap (heap st ++ [make uuid]) st)).

(** ** FlamingEngine: the methods *)

Section FlamingEngine.
Context `{Platform}.

(** The loop of [update_scene_tree]: a row per sprite, with the name as
    text and, in [values=(sprite.name)], the name again (the parentheses
    make no tuple); the first refused row ends the loop. *)
Fixpoint insert_rows (vals : list addr) : M unit :=
  match vals with
  | [] => ret tt
  | a :: rest =>
      st <- get;;
      match obj st (Some a) with
      | Some (_, sprite) =>
          match tree_insert (Sprite.id sprite) (Sprite.name sprite) (Sprite.name sprite)
                  (scene_tree st) with
          | Some tv => modify (set_scene_tree tv);; insert_rows rest
          | None => raise TclError
          end
      | None => insert_rows rest
      end
  end.

(** [update_scene_tree()] *)
Definition update_scene_tree : M unit :=
  modify (λ st, set_scene_tree (tree_delete_children (scene_tree st)) st);;
  st <- get;;
  insert_rows (dict_values (sprites st)).

(** [update_inspector()]: rebuilds the inspector's widgets, which are not
    part of the state. *)
Definition update_inspector : M unit := ret tt.

(** [self.scene_tree.selection_set(iid)] *)
Definition selection_set (iid : string) : M unit :=
  st <- get;;
  match tree_selection_set iid (scene_tree st) with
  | Some tv => modify (set_scene_tree tv)
  | None => raise TclError
  end.

(** [self.sprites[sprite.id] = sprite] *)
Definition register (a : addr) : M unit :=
  st <- get;;
  match obj st (Some a) with
  | Some (_, sprite) => modify (set_sprites (dict_set (Sprite.id sprite) a (sprites st)))
  | None => ret tt
  end.

(** [create_sprite(name, x, y)] *)
Definition create_sprite (name : string) (x y : Z) : M addr :=
  sprite <- new_sprite (λ uuid, Sprite.init uuid name x y);;
  register sprite;;
  update_scene_tree;;
  ret sprite.

(** [FlamingEngine.__init__(root)]: the fields, then the test object. *)
Definition FlamingEngine_new : Engine :=
  {| heap := []; uuid_calls := 0; sprites := []; selected_sprite := None;
     is_running := false; drag_source := None;
     canvas := canvas_new; scene_tree := tree_new |}.

Definition FlamingEngine_init : M unit :=
  test_sprite <- create_sprite "TestObject" 100 100;;
  mutate test_sprite (Sprite.set_color "#3498db").

(** [load_texture()]: [path] is what the file dialog returned (empty when
    cancelled) and [opened] what [Image.open(path)] gives. *)
Definition load_texture (path : string) (opened : option nat) : M unit :=
  st <- get;;
  match obj st (selected_sprite st) with
  | Some (a, sprite) =>
      if bool_decide (path ≠ "") then
        let '(ok, sprite') := Sprite.load_texture opened sprite in
        mutate a (λ _, sprite');;
        if ok then update_inspector else ret tt
      else ret tt
  | None => ret tt
  end.

(** The three uses of [setattr] through [update_sprite_property]:
    [("name", str)], [("x", int)] and [("y", int)]. *)
Inductive Assignment :=
| SetName (value : string)
| SetX (value : Z)
| SetY (value : Z).

Definition setattr (p : Assignment) (s : Sprite.t) : Sprite.t :=
  match p with
  | SetName v => Sprite.set_name v s
  | SetX v => Sprite.set_x v s
  | SetY v => Sprite.set_y v s
  end.

(** [update_sprite_property(prop, value)] *)
Definition update_sprite_property (p : Assignment) : M unit :=
  st <- get;;
  match obj st (selected_sprite st) with
  | Some (a, _) => mutate a (setattr p);; update_scene_tree
  | None => ret tt
  end.

(** The [<FocusOut>] callbacks of the inspector's entries:
    [lambda e: self.update_sprite_property("x", int(x_entry.get()))]. *)
Definition name_entry_focus_out (text : string) : M unit :=
  update_sprite_property (SetName text).

Definition x_entry_focus_out (text : string) : M unit :=
  match int text with
  | Some v => update_sprite_property (SetX v)
  | None => raise ValueError
  end.

Definition y_entry_focus_out (text : string) : M unit :=
  match int text with
  | Some v => update_sprite_property (SetY v)
  | None => raise ValueError
  end.

(** [on_sprite_select(event)] *)
Definition on_sprite_select : M unit :=
  st <- get;;
  match selection (scene_tree st) !! 0%nat with
  | Some item =>
      let sprite_id := item in
      modify (set_selected_sprite (dict_get sprite_id (sprites st)));;
      update_inspector
  | None => raise IndexError
  end.

(** The loop of [on_canvas_click] and [on_right_click] over the items
    found: the first item tagged "sprite" decides. *)
Fixpoint first_sprite (cv : Canvas) (d : list (string * addr)) (found : list nat)
  : outcome (option addr) :=
  match found with
  | [] => Return None
  | item :: rest =>
      let tags := gettags cv item in
      if bool_decide ("sprite" ∈ tags) then
        match tags !! 1%nat with
        | Some sprite_id => Return (dict_get sprite_id d)
        | None => Raise IndexError
        end
      else first_sprite cv d rest
  end.

(** The sprite under the pointer, as both click handlers compute it. *)
Definition clicked_sprite (ex ey : Z) : M (option addr) :=
  λ st,
    let found := find_overlapping (canvas st) ex ey (ex + 1) (ey + 1) in
    (first_sprite (canvas st) (sprites st) found, st).

(** [on_canvas_click(event)] *)
Definition on_canvas_click (ex ey : Z) : M unit :=
  clicked <- clicked_sprite ex ey;;
  st <- get;;
  match obj st clicked with
  | Some (a, sprite) =>
      modify (set_selected_sprite (Some a));;
      mutate a (Sprite.start_drag ex ey);;
      update_inspector;;
      selection_set (Sprite.id sprite)
  | None => ret tt
  end.

(** [on_right_click(event)]; posting the context menu leaves the state. *)
Definition on_right_click (ex ey : Z) : M unit :=
  clicked <- clicked_sprite ex ey;;
  st <- get;;
  match obj st clicked with
  | Some (a, sprite) =>
      modify (set_selected_sprite (Some a));;
      selection_set (Sprite.id sprite)
  | None => ret tt
  end.

(** The loop of [render] over [self.sprites.values()]. *)
Fixpoint draw_all (vals : list addr) (h : list Sprite.t) (cv : Canvas)
  : list Sprite.t * Canvas :=
  match vals with
  | [] => (h, cv)
  | a :: rest =>
      match h !! a with
      | Some sprite =>
          let '(sprite', cv') := Sprite.draw sprite cv in
          draw_all rest (<[a := sprite']> h) cv'
      | None => draw_all rest h cv
      end
  end.

(** [render()] *)
Definition render : M unit :=
  modify (λ st,
    let cv := canvas_delete_all (canvas st) in
    let '(h, cv') := draw_all (dict_values (sprites st)) (heap st) cv in
    set_canvas cv' (set_heap h st)).

(** [on_canvas_drag(event)] *)
Definition on_canvas_drag (ex ey : Z) : M unit :=
  st <- get;;
  match obj st (selected_sprite st) with
  | Some (a, _) => mutate a (Sprite.update_drag ex ey);; render
  | None => ret tt
  end.

(** [on_canvas_release(event)] *)
Definition on_canvas_release : M unit :=
  st <- get;;
  match obj st (selected_sprite st) with
  | Some (a, _) => mutate a Sprite.end_drag
  | None => ret tt
  end.

(** [start_tree_drag(event)]: [item] is the row [identify_row] found,
    empty when there is none. *)
Definition start_tree_drag (item : string) : M unit :=
  if bool_decide (item ≠ "") then
    modify (set_drag_source (Some item));;
    selection_set item
  else ret tt.

(** [on_tree_drag(event)] *)
Definition on_tree_drag : M unit := ret tt.

(** Python's truth of [self.drag_source]: neither [None] nor empty. *)
Definition truthy_source (src : option string) : option string :=
  match src with
  | Some item => if bool_decide (item ≠ "") then Some item else None
  | None => None
  end.

(** [end_tree_drag(event)]: [panel_width] and [canvas_height] are what
    [winfo_width()] and [winfo_height()] return. *)
Definition end_tree_drag (ex ey panel_width canvas_height : Z) : M unit :=
  st <- get;;
  match truthy_source (drag_source st) with
  | Some source =>
      (if bool_decide (ex > panel_width ∧ ey < canvas_height)%Z then
         match obj st (dict_get source (sprites st)) with
         | Some (_, original_sprite) =>
             let canvas_x := (ex - panel_width)%Z in
             let canvas_y := ey in
             new <- new_sprite (λ uuid, Sprite.duplicate uuid original_sprite);;
             mutate new (Sprite.set_x canvas_x);;
             mutate new (Sprite.set_y canvas_y);;
             register new;;
             update_scene_tree
         | None => ret tt
         end
       else ret tt);;
      modify (set_drag_source None)
  | None => ret tt
  end.

(** [duplicate_sprite(sprite)] *)
Definition duplicate_sprite (sprite : option addr) : M unit :=
  st <- get;;
  match obj st sprite with
  | Some (_, s) =>
      new <- new_sprite (λ uuid, Sprite.duplicate uuid s);;
      register new;;
      update_scene_tree
  | None => ret tt
  end.

(** [remove_sprite(sprite)] *)
Definition remove_sprite (sprite : option addr) : M unit :=
  st <- get;;
  match obj st sprite with
  | Some (_, s) =>
      if dict_in (Sprite.id s) (sprites st) then
        modify (set_sprites (dict_del (Sprite.id s) (sprites st)));;
        modify (set_selected_sprite None);;
        update_scene_tree;;
        update_inspector
      else ret tt
  | None => ret tt
  end.

(** [save_script()] of the editor window that [add_script_to_sprite(sprite)]
    opens: [text] is the editor's content. *)
Definition save_script (sprite : addr) (text : string) : M unit :=
  mutate sprite (Sprite.set_script (Some text));;
  update_inspector.

(** [update(delta_time)]: scripts are not interpreted. *)
Definition update : M unit := ret tt.

(** [game_loop()], one pass; the timer is re-armed by the host. *)
Definition game_loop : M unit :=
  st <- get;;
  if is_running st then update;; render else ret tt.

(** [start()] *)
Definition start : M unit :=
  modify (set_is_running true);;
  game_loop.

(** [stop()] *)
Definition stop : M unit := modify (set_is_running false).

(** [FlamingEngineIDE.__init__(root)]: the engine, started. *)
Definition FlamingEngineIDE_init : Engine :=
  exec (FlamingEngine_init;; start) FlamingEngine_new.

End FlamingEngine.

(** ** The host's events *)

(** What Tk delivers to the bound callbacks, with the data each callback
    reads from the event or from a widget; [Call...] are the three methods
    the context menu reaches, called on any reference. *)
Inductive Event :=
| CallCreate (name : string) (x y : Z)
| CallDuplicate (sprite : option addr)
| CallRemove (sprite : option addr)
| MenuDuplicate
| MenuRemove
| MenuSaveScript (text : string)
| SaveScript (sprite : addr) (text : string)
| TreeviewSelect
| Button1 (x y : Z)
| Button3 (x y : Z)
| B1Motion (x y : Z)
| ButtonRelease1
| FocusOutName (text : string)
| FocusOutX (text : string)
| FocusOutY (text : string)
| TreeButtonPress1 (item : string)
| TreeB1Motion
| TreeButtonRelease1 (x y panel_width canvas_height : Z)
| LoadTextureButton (path : string) (opened : option nat)
| Timer
| Stop.

Section mainloop.
Context `{Platform}.

Definition handle (ev : Event) : M unit :=
  match ev with
  | CallCreate name x y => create_sprite name x y;; ret tt
  | CallDuplicate sprite => duplicate_sprite sprite
  | CallRemove sprite => remove_sprite sprite
  | MenuDuplicate => st <- get;; duplicate_sprite (selected_sprite st)
  | MenuRemove => st <- get;; remove_sprite (selected_sprite st)
  | MenuSaveScript text =>
      st <- get;;
      match obj st (selected_sprite st) with
      | Some (a, _) => save_script a text
      | None => ret tt
      end
  | SaveScript sprite text => save_script sprite text
  | TreeviewSelect => on_sprite_select
  | Button1 x y => on_canvas_click x y
  | Button3 x y => on_right_click x y
  | B1Motion x y => on_canvas_drag x y
  | ButtonRelease1 => on_canvas_release
  | FocusOutName text => name_entry_focus_out text
  | FocusOutX text => x_entry_focus_out text
  | FocusOutY text => y_entry_focus_out text
  | TreeButtonPress1 item => start_tree_drag item
  | TreeB1Motion => on_tree_drag
  | TreeButtonRelease1 x y pw ch => end_tree_drag x y pw ch
  | LoadTextureButton path opened => load_texture path opened
  | Timer => game_loop
  | Stop => stop
  end.

(** The main loop: a callback that raises is reported and the loop goes
    on from the state the callback left. *)
Definition run (evs : list Event) (st : Engine) : Engine :=
  fold_left (λ st ev, exec (handle ev) st) evs st.

(** ** What the claims speak of *)

(** The sprites of the scene, in draw order. *)
Definition live (st : Engine) : list Sprite.t :=
  omap (λ a, heap st !! a) (dict_values (sprites st)).

(** A reference is in the scene when some key of the dict maps to it. *)
Definition in_scene (a : addr) (st : Engine) : Prop :=
  ∃ k, dict_get k (sprites st) = Some a.

(** The item [draw] puts on the canvas for a sprite. *)
Definition drawn (s : Sprite.t) : Item :=
  match Sprite.texture s with
  | Some img => ImageItem (Sprite.x s) (Sprite.y s) img ["sprite"; Sprite.id s]
  | None =>
      RectangleItem (Sprite.x s) (Sprite.y s)
        (Sprite.x s + Sprite.width s) (Sprite.y s + Sprite.height s)
        (Sprite.color s) "white" ["sprite"; Sprite.id s]
  end.

(** Whether the probe of a click at (px, py), the rectangle from (px, py)
    to (px+1, py+1), meets the item drawn for the sprite at [a]. *)
Definition under_pointer (st : Engine) (px py : Z) (a : addr) : bool :=
  match heap st !! a with
  | Some s => overlaps (drawn s) px py (px + 1) (py + 1)
  | None => false
  end.

(** The first sprite in draw order under the pointer. *)
Definition bottommost (st : Engine) (px py : Z) : option addr :=
  List.find (under_pointer st px py) (dict_values (sprites st)).

(** The well-formed states: the identifier of the object at address [a] is
    the [a]-th one drawn, the dict maps each sprite's identifier to it, its
    keys are distinct, the selection is in the scene, and the canvas never
    handed out a handle that a sprite holds and that is still to come. *)
Record wf (st : Engine) : Prop := {
  wf_calls : uuid_calls st = length (heap st);
  wf_ids : ∀ a s, heap st !! a = Some s → Sprite.id s = uuid4 a;
  wf_dict : ∀ k a, (k, a) ∈ sprites st →
              ∃ s, heap st !! a = Some s ∧ Sprite.id s = k;
  wf_keys : NoDup (sprites st).*1;
  wf_selected : ∀ a, selected_sprite st = Some a → ∃ k, (k, a) ∈ sprites st;
  wf_handles : ∀ a s c, heap st !! a = Some s → Sprite.canvas_id s = Some c →
                 (c < next_item (canvas st))%nat;
  wf_canvas : ∀ p, p ∈ items (canvas st) → (p.1 < next_item (canvas st))%nat
}.
End mainloop.

(** The hit test in the specification's words (section 4.1), to compare with
    [clicked_sprite]: the last sprite in draw order whose bounding box
    contains the point. *)
Definition hit_test_spec (st : Engine) (px py : Z) : option addr :=
  last (List.filter
          (λ a, match heap st !! a with
                | Some s => Sprite.contains_point px py s
                | None => false
                end)
          (dict_values (sprites st))).

(** ** A concrete platform, to run the model *)

(** The bounding box of an item. *)
Definition bbox (it : Item) : Z * Z * Z * Z :=
  match it with
  | ImageItem x y img _ => (x, y, x + image_width img, y + image_height img)%Z
  | RectangleItem x1 y1 x2 y2 _ _ _ => (x1, y1, x2, y2)
  end.

(** Two closed rectangles meet. *)
Definition boxes_meet (it : Item) (qx1 qy1 qx2 qy2 : Z) : bool :=
  let '(x1, y1, x2, y2) := bbox it in
  ((x1 <=? qx2) && (qx1 <=? x2) && ((y1 <=? qy2) && (qy1 <=? y2)))%Z.

(** Python's [int] on a string of characters below 256: white space
    around, a sign, then decimal digits, with single underscores between
    digits. *)
Definition is_space (c : Ascii.ascii) : bool :=
  let n := Ascii.nat_of_ascii c in
  (Nat.leb 9 n && Nat.leb n 13) || Nat.eqb n 32 || Nat.eqb n 133 || Nat.eqb n 160.

Definition digit (c : Ascii.ascii) : option Z :=
  let n := Ascii.nat_of_ascii c in
  if Nat.leb 48 n && Nat.leb n 57 then Some (Z.of_nat (n - 48)) else None.

Fixpoint skip_space (s : string) : string :=
  match s with
  | String c rest => if is_space c then skip_space rest else s
  | EmptyString => s
  end.

Fixpoint all_space (s : string) : bool :=
  match s with
  | String c rest => is_space c && all_space rest
  | EmptyString => true
  end.

(** The digits after the first, whose value so far is [acc]. *)
Fixpoint more_digits (acc : Z) (s : string) : option Z :=
  match s with
  | EmptyString => Some acc
  | String c rest =>
      match digit c with
      | Some d => more_digits (10 * acc + d) rest
      | None =>
          if Nat.eqb (Ascii.nat_of_ascii c) 95 then
            match rest with
            | String c' rest' =>
                match digit c' with
                | Some d => more_digits (10 * acc + d) rest'
                | None => None
                end
            | EmptyString => None
            end
          else if all_space s then Some acc else None
      end
  end.

Definition unsigned_int (s : string) : option Z :=
  match s with
  | String c rest =>
      match digit c with
      | Some d => more_digits d rest
      | None => None
      end
  | EmptyString => None
  end.

Definition decimal_int (s : string) : option Z :=
  match skip_space s with
  | String c rest =>
      if Nat.eqb (Ascii.nat_of_ascii c) 43 then unsigned_int rest
      else if Nat.eqb (Ascii.nat_of_ascii c) 45 then Z.opp <$> unsigned_int rest
      else unsigned_int (String c rest)
  | EmptyString => None
  end.

(** Identifiers numbered by the call, closed rectangles, Python's [int];
    the lists are the plain strings, fewer than Tcl reads. *)
Definition demo : Platform :=
  {| uuid4 := λ n, "uuid-" ++ NilEmpty.string_of_uint (Nat.to_uint n);
     overlaps := boxes_meet;
     int := decimal_int;
     tcl_list := plain;
     tcl_list_plain := λ s H, H |}.

(** The started engine of the demo platform. *)
Definition demo_init : Engine := @FlamingEngineIDE_init demo.

(** The test object A and its copy B, drawn: A at (100,100), B at (120,120). *)
Definition two_sprites : Engine :=
  @run demo [CallDuplicate (Some 0%nat); Timer] demo_init.

(** The same scene with B selected from the tree. *)
Definition two_sprites_B_selected : Engine :=
  @run demo [TreeButtonPress1 "uuid-1"; TreeviewSelect] two_sprites.

(** The test object with a script saved from the editor. *)
Definition scripted : Engine :=
  @run demo [SaveScript 0%nat "print(1)"] demo_init.

(** The test object repainted by hand, from outside the handlers: 7 by 9,
    red, not draggable, with a script. *)
Definition repainted : Engine :=
  set_heap
    (alter (λ s, Sprite.set_script (Some "print(1)")
                   (Sprite.set_draggable false
                      (Sprite.set_height 9 (Sprite.set_width 7 (Sprite.set_color "red" s)))))
       0%nat (heap (@run demo [Timer] demo_init)))
    (@run demo [Timer] demo_init).

(** A scene whose only sprite has its draggable flag off, drawn. *)
Definition undraggable : Engine :=
  @run demo [Timer]
    (set_heap (alter (Sprite.set_draggable false) 0%nat (heap demo_init)) demo_init).

(** A drag: the pointer goes down at (px, py), then moves through the
    points of [moves] in turn. *)
Definition dragged (px py : Z) (moves : list (Z * Z)) (s : Sprite.t) : Sprite.t :=
  fold_left (λ s q, Sprite.update_drag q.1 q.2 s) moves (Sprite.start_drag px py s).

(** ** Predicates of the proofs *)

(** Two states that differ at most in the tree view. *)
Definition tree_apart (st st' : Engine) : Prop :=
  ∃ tv, st' = set_scene_tree tv st.

(** The state after [Sprite(...)] and [self.sprites[sprite.id] = sprite]. *)
Definition registered `{Platform} (make : string → Sprite.t) (st : Engine) : Engine :=
  let new := make (uuid4 (uuid_calls st)) in
  set_sprites (dict_set (Sprite.id new) (length (heap st)) (sprites st))
    (set_uuid_calls (S (uuid_calls st)) (set_heap (heap st ++ [new])%list st)).

(** The heap holds at least [n] objects and the state is well formed: the
    invariant of the main loop, for every [n] at once. *)
Definition wf_from `{Platform} (n : nat) (st : Engine) : Prop :=
  wf st ∧ (n ≤ length (heap st))%nat.

(** [m] keeps the invariant [wf_from n], from [st]; from every state. *)
Definition preserves_from `{Platform} {A} (n : nat) (st : Engine) (m : M A) : Prop :=
  wf_from n st → wf_from n (exec m st).
Definition preserves `{Platform} {A} (n : nat) (m : M A) : Prop :=
  ∀ st, preserves_from n st m.

(** The mutations that keep the identifier and the canvas handle. *)
Definition same_identity (f : Sprite.t → Sprite.t) : Prop :=
  ∀ s, Sprite.id (f s) = Sprite.id s ∧ Sprite.canvas_id (f s) = Sprite.canvas_id s.

(** ** What every reachable state has, beyond [wf] *)

(** A sprite as the program makes them: 50 by 50, draggable, and its image,
    when it has one, resized to 50 by 50. *)
Definition as_made (s : Sprite.t) : Prop :=
  Sprite.width s = 50%Z ∧ Sprite.height s = 50%Z ∧ Sprite.draggable s = true ∧
  ∀ img, Sprite.texture s = Some img → image_width img = 50%Z ∧ image_height img = 50%Z.

(** Every item of the canvas is the picture of a sprite: tagged "sprite"
    and with an identifier. *)
Definition pictures_only (cv : Canvas) : Prop :=
  ∀ p, p ∈ items cv → ∃ k, item_tags p.2 = ["sprite"; k].

(** The row that [update_scene_tree] inserts for a sprite. *)
Definition row_of (s : Sprite.t) : string * string := (Sprite.id s, Sprite.name s).

(** Well formed, with pictures only on the canvas and sprites as made. *)
Definition loose `{Platform} (st : Engine) : Prop :=
  wf st ∧ pictures_only (canvas st) ∧ Forall as_made (heap st).

(** Whether the tree takes the row of a sprite: [update_scene_tree] gives
    the name as the row's [values], which Tk reads as a list. *)
Definition listable `{Platform} (s : Sprite.t) : bool := tcl_list (Sprite.name s).

(** The sprites whose rows a rebuild of the tree inserts: those before the
    first one whose row is refused. *)
Fixpoint shown `{Platform} (l : list Sprite.t) : list Sprite.t :=
  match l with
  | [] => []
  | s :: rest => if listable s then s :: shown rest else []
  end.

(** How a rebuild of the tree ends over these sprites, and the state it
    leaves: the rows of the sprites shown and nothing selected. *)
Definition rebuild_outcome `{Platform} (l : list Sprite.t) : outcome unit :=
  if forallb listable l then Return tt else Raise TclError.

Definition rebuilt `{Platform} (st : Engine) : Engine :=
  set_scene_tree {| rows := row_of <$> shown (live st); selection := [] |} st.

(** The tree lists the scene as far as the last rebuild got: one row per
    sprite, in the dict's order, with the sprite's identifier and name, up to
    the first sprite whose name is no Tcl list; what is selected in it is a
    row. *)
Definition listed `{Platform} (st : Engine) : Prop :=
  rows (scene_tree st) = row_of <$> shown (live st) ∧
  ∀ iid, iid ∈ selection (scene_tree st) → iid ∈ (rows (scene_tree st)).*1.

Definition tidy `{Platform} (st : Engine) : Prop := loose st ∧ listed st.

(** The exception a rebuild of the tree ends in over the scene of [st]. *)
Definition refusal `{Platform} (st : Engine) : option exn :=
  if forallb listable (live st) then None else Some TclError.

(** The exception an event ends in, if any:
    - [IndexError], for a selection event on an empty selection;
    - [ValueError], for an X or Y entry whose text [int] rejects;
    - [TclError], for a press on a tree row that does not exist, for a click
      on a sprite whose row the tree does not have, and for a rebuild of the
      tree (after a creation, a copy, a removal, an assignment from an entry
      or a drop from the tree) over a scene in which a name is no Tcl list. *)
Definition fault `{Platform} (ev : Event) (st : Engine) : option exn :=
  let duplicating sprite :=
    match obj st sprite with
    | Some (_, s) => refusal (registered (λ uuid, Sprite.duplicate uuid s) st)
    | None => None
    end in
  let removing sprite :=
    match obj st sprite with
    | Some (_, s) =>
        if dict_in (Sprite.id s) (sprites st) then
          refusal (set_selected_sprite None
                     (set_sprites (dict_del (Sprite.id s) (sprites st)) st))
        else None
    | None => None
    end in
  let assigning p :=
    match obj st (selected_sprite st) with
    | Some (a, _) => refusal (set_heap (alter (setattr p) a (heap st)) st)
    | None => None
    end in
  let clicking x y :=
    match (clicked_sprite x y st).1 with
    | Return clicked =>
        match obj st clicked with
        | Some (_, s) =>
            if bool_decide (Sprite.id s ∈ (rows (scene_tree st)).*1) then None
            else Some TclError
        | None => None
        end
    | Raise _ => None
    end in
  match ev with
  | CallCreate name x y => refusal (registered (λ uuid, Sprite.init uuid name x y) st)
  | CallDuplicate sprite => duplicating sprite
  | MenuDuplicate => duplicating (selected_sprite st)
  | CallRemove sprite => removing sprite
  | MenuRemove => removing (selected_sprite st)
  | TreeviewSelect =>
      match selection (scene_tree st) with [] => Some IndexError | _ => None end
  | Button1 x y | Button3 x y => clicking x y
  | FocusOutName text => assigning (SetName text)
  | FocusOutX text =>
      match int text with Some v => assigning (SetX v) | None => Some ValueError end
  | FocusOutY text =>
      match int text with Some v => assigning (SetY v) | None => Some ValueError end
  | TreeButtonPress1 item =>
      if bool_decide (item ≠ "" ∧ item ∉ (rows (scene_tree st)).*1)
      then Some TclError else None
  | TreeButtonRelease1 x y pw ch =>
      match truthy_source (drag_source st) with
      | Some source =>
          if bool_decide (x > pw ∧ y < ch)%Z then
            match obj st (dict_get source (sprites st)) with
            | Some (_, s) =>
                refusal (registered
                           (λ uuid, Sprite.set_y y (Sprite.set_x (x - pw)
                                      (Sprite.duplicate uuid s))) st)
            | None => None
            end
          else None
      | None => None
      end
  | _ => None
  end.

(** [m], started in a state of [P], leaves a state of [Q] when it returns
    and a state of [E] when it raises. *)
Definition ends {A} (P : Engine → Prop) (m : M A) (Q : A → Engine → Prop)
    (E : Engine → Prop) : Prop :=
  ∀ st, P st →
    match m st with
    | (Return a, st') => Q a st'
    | (Raise _, st') => E st'
    end.

(** [m] leaves the flag of the frame loop as it finds it, whether it returns
    or raises. *)
Definition keeps_running {A} (m : M A) : Prop :=
  ∀ st, is_running (exec m st) = is_running st.

(** What an event leaves of an object: the identifier, the colour, the size
    and the draggable flag always; the name unless the event is the name
    entry's; x unless it is a pointer motion or the X entry's, and y
    likewise; the texture unless it is the load button's; the script unless
    it is a save from the editor. *)
Definition spares (ev : Event) (s s' : Sprite.t) : Prop :=
  Sprite.id s' = Sprite.id s ∧
  Sprite.color s' = Sprite.color s ∧
  Sprite.width s' = Sprite.width s ∧
  Sprite.height s' = Sprite.height s ∧
  Sprite.draggable s' = Sprite.draggable s ∧
  match ev with FocusOutName _ => True | _ => Sprite.name s' = Sprite.name s end ∧
  match ev with
  | B1Motion _ _ | FocusOutX _ => True
  | _ => Sprite.x s' = Sprite.x s
  end ∧
  match ev with
  | B1Motion _ _ | FocusOutY _ => True
  | _ => Sprite.y s' = Sprite.y s
  end ∧
  match ev with
  | LoadTextureButton _ _ => True
  | _ => Sprite.texture s' = Sprite.texture s
  end ∧
  match ev with
  | SaveScript _ _ | MenuSaveScript _ => True
  | _ => Sprite.script s' = Sprite.script s
  end.

(** Every object of [st] is still there in [st'], related by [R] to what
    it was. *)
Definition related (R : Sprite.t → Sprite.t → Prop) (st st' : Engine) : Prop :=
  ∀ a s, heap st !! a = Some s → ∃ s', heap st' !! a = Some s' ∧ R s s'.

Definition frames (R : Sprite.t → Sprite.t → Prop) {A} (m : M A) : Prop :=
  ∀ st, related R st (exec m st).

(** * Properties *)

(** Concrete states are evaluated by the virtual machine. *)
Ltac by_vm :=
  repeat match goal with |- _ ∧ _ => split end; vm_compute; reflexivity.
Ltac object_at e :=
  let t := eval vm_compute in e in
  lazymatch t with Some ?v => exists v end.

(** ** The monad *)

Lemma exec_bind {A B} (m : M A) (k : A → M B) st :
  exec (bind m k) st =
  match m st with
  | (Return a, st') => exec (k a) st'
  | (Raise _, st') => st'
  end.
Proof. unfold exec, bind. destruct (m st) as [[a|e] st']; reflexivity. Qed.

Lemma exec_get {A} (k : Engine → M A) st : exec (bind get k) st = exec (k st) st.
Proof. reflexivity. Qed.

Lemma exec_modify {A} f (k : unit → M A) st :
  exec (bind (modify f) k) st = exec (k tt) (f st).
Proof. reflexivity. Qed.

(** ** The tree view is beside the model *)

Lemma tree_apart_refl st : tree_apart st st.
Proof. exists (scene_tree st). by destruct st. Qed.

Lemma tree_apart_trans st1 st2 st3 :
  tree_apart st1 st2 → tree_apart st2 st3 → tree_apart st1 st3.
Proof. intros [tv ->] [tv' ->]. by exists tv'. Qed.

Lemma insert_rows_tree `{Platform} vals st : tree_apart st (insert_rows vals st).2.
Proof.
  revert st. induction vals as [|a rest IH]; intros st; simpl.
  - apply tree_apart_refl.
  - unfold bind, get. simpl. destruct (heap st !! a) as [s|]; simpl; [|apply IH].
    destruct (tree_insert _ _ _ _) as [tv|]; simpl; [|apply tree_apart_refl].
    eapply tree_apart_trans; [|apply IH]. by exists tv.
Qed.

Lemma update_scene_tree_tree `{Platform} st : tree_apart st (update_scene_tree st).2.
Proof.
  unfold update_scene_tree, bind, modify, get. simpl.
  eapply tree_apart_trans; [|apply insert_rows_tree]. by eexists.
Qed.

Lemma selection_set_tree iid st : tree_apart st (selection_set iid st).2.
Proof.
  unfold selection_set, bind, modify, get, raise. simpl.
  destruct (tree_selection_set _ _) as [tv|]; simpl;
    [by exists tv | apply tree_apart_refl].
Qed.

(** ** Dragging *)

Lemma update_drag_dragging px py s :
  Sprite.is_dragging s = true →
  let s' := Sprite.update_drag px py s in
  Sprite.x s' = (px - Sprite.drag_offset_x s)%Z ∧
  Sprite.y s' = (py - Sprite.drag_offset_y s)%Z ∧
  Sprite.is_dragging s' = true ∧
  Sprite.drag_offset_x s' = Sprite.drag_offset_x s ∧
  Sprite.drag_offset_y s' = Sprite.drag_offset_y s.
Proof. intros Hd. unfold Sprite.update_drag. rewrite Hd. by simpl. Qed.

Lemma moves_keep_offset moves s :
  Sprite.is_dragging s = true →
  let s' := fold_left (λ s q, Sprite.update_drag q.1 q.2 s) moves s in
  Sprite.is_dragging s' = true ∧
  Sprite.drag_offset_x s' = Sprite.drag_offset_x s ∧
  Sprite.drag_offset_y s' = Sprite.drag_offset_y s.
Proof.
  revert s. induction moves as [|q moves IH]; intros s Hd; simpl; [done|].
  destruct (update_drag_dragging q.1 q.2 s Hd) as (_ & _ & Hd' & Hx & Hy).
  destruct (IH _ Hd') as (? & ? & ?). by rewrite <- Hx, <- Hy.
Qed.

(** C4. A draggable sprite at S, grabbed at P and moved through any points
    and at last to Q, is at Q − (P − S), and the offset it holds is still
    P − S. *)
Theorem drag_preserves_offset (s : Sprite.t) (px py qx qy : Z) (moves : list (Z * Z)) :
  Sprite.draggable s = true →
  let s' := dragged px py (moves ++ [(qx, qy)]) s in
  Sprite.x s' = (qx - (px - Sprite.x s))%Z ∧
  Sprite.y s' = (qy - (py - Sprite.y s))%Z ∧
  Sprite.drag_offset_x s' = (px - Sprite.x s)%Z ∧
  Sprite.drag_offset_y s' = (py - Sprite.y s)%Z.
Proof.
  intros Hdr. unfold dragged. rewrite fold_left_app. simpl.
  set (s0 := Sprite.start_drag px py s).
  assert (Sprite.is_dragging s0 = true ∧
          Sprite.drag_offset_x s0 = (px - Sprite.x s)%Z ∧
          Sprite.drag_offset_y s0 = (py - Sprite.y s)%Z) as (Hd0 & Hx0 & Hy0).
  { unfold s0, Sprite.start_drag. rewrite Hdr. by simpl. }
  destruct (moves_keep_offset moves s0 Hd0) as (Hd & Hx & Hy).
  destruct (update_drag_dragging qx qy _ Hd) as (-> & -> & _ & -> & ->).
  rewrite Hx, Hy, Hx0, Hy0. done.
Qed.

Lemma drag_preserves_offset_witness :
  let s := Sprite.init "a" "A" 100 100 in
  let s' := dragged 110 115 [(0, 0); (300, 7)]%Z s in
  Sprite.x s' = 290%Z ∧ Sprite.y s' = (-8)%Z.
Proof.
  intros s s'.
  destruct (drag_preserves_offset s 110 115 300 7 [(0, 0)%Z] eq_refl)
    as (Hx & Hy & _).
  split; [exact Hx | exact Hy].
Defined.

(** ** Clicks *)

Lemma clicked_sprite_state `{Platform} ex ey st : (clicked_sprite ex ey st).2 = st.
Proof. reflexivity. Qed.

(** C10. A press of the primary button where the hit test finds no sprite
    returns and leaves the whole state as it was. *)
Theorem click_on_empty_canvas `{Platform} (st : Engine) (ex ey : Z) :
  (clicked_sprite ex ey st).1 = Return None →
  on_canvas_click ex ey st = (Return tt, st).
Proof.
  intros Hnone. unfold on_canvas_click, bind.
  destruct (clicked_sprite ex ey st) as [o st'] eqn:E.
  assert (st' = st) as -> by (by rewrite <- (clicked_sprite_state ex ey st), E).
  simpl in Hnone. subst o. reflexivity.
Qed.

Lemma click_on_empty_canvas_witness :
  (@clicked_sprite demo 300 300 two_sprites).1 = Return None ∧
  @on_canvas_click demo 300 300 two_sprites = (Return tt, two_sprites).
Proof.
  split; [vm_compute; reflexivity|].
  apply (@click_on_empty_canvas demo two_sprites 300 300).
  vm_compute; reflexivity.
Defined.

(** What a press that finds the sprite at [a] leaves: that sprite selected
    and [start_drag] run on it; the tree view apart. *)
Lemma on_canvas_click_hit `{Platform} st ex ey a s :
  (clicked_sprite ex ey st).1 = Return (Some a) →
  heap st !! a = Some s →
  tree_apart
    (set_heap (alter (Sprite.start_drag ex ey) a (heap st))
       (set_selected_sprite (Some a) st))
    (exec (on_canvas_click ex ey) st).
Proof.
  intros Hhit Hs. unfold exec, on_canvas_click, bind.
  destruct (clicked_sprite ex ey st) as [o st'] eqn:E.
  assert (st' = st) as -> by (by rewrite <- (clicked_sprite_state ex ey st), E).
  simpl in Hhit. subst o. unfold get, obj. rewrite Hs.
  unfold modify, mutate, update_inspector, ret. simpl.
  apply selection_set_tree.
Qed.

(** C6, as the code has it. A press that finds a sprite always selects it;
    the drag starts exactly when the sprite is draggable: then the dragging
    flag is set and the offset P − S captured, otherwise the sprite is left
    as it was (selected all the same). *)
Theorem click_selects_and_drags_if_draggable `{Platform}
    (st : Engine) (ex ey : Z) (a : addr) (s : Sprite.t) :
  (clicked_sprite ex ey st).1 = Return (Some a) →
  heap st !! a = Some s →
  let st' := exec (on_canvas_click ex ey) st in
  selected_sprite st' = Some a ∧
  ∃ s', heap st' !! a = Some s' ∧
    (Sprite.draggable s = true →
       Sprite.is_dragging s' = true ∧
       Sprite.drag_offset_x s' = (ex - Sprite.x s)%Z ∧
       Sprite.drag_offset_y s' = (ey - Sprite.y s)%Z) ∧
    (Sprite.draggable s = false → s' = s).
Proof.
  intros Hhit Hs st'.
  destruct (on_canvas_click_hit st ex ey a s Hhit Hs) as [tv Htv].
  subst st'. rewrite Htv. simpl. split; [done|].
  exists (Sprite.start_drag ex ey s). split.
  - by rewrite list_lookup_alter_eq, Hs.
  - unfold Sprite.start_drag. split; intros ->; by simpl.
Qed.

Lemma click_selects_and_drags_if_draggable_witness :
  selected_sprite (exec (@on_canvas_click demo 130 130) two_sprites) = Some 0%nat.
Proof.
  assert (∃ s, heap two_sprites !! 0%nat = Some s) as [s Hs]
    by (eexists; cbv; reflexivity).
  assert ((@clicked_sprite demo 130 130 two_sprites).1 = Return (Some 0%nat)) as Hhit
    by (vm_compute; reflexivity).
  exact (proj1 (@click_selects_and_drags_if_draggable demo two_sprites 130 130 0%nat
                  s Hhit Hs)).
Defined.

(** C6, as the claim has it, fails: the only sprite of [undraggable] is not
    draggable and nothing is selected; a press on it at (110,110) finds it,
    and afterwards it is the selection (and is not being dragged). *)
Lemma click_selects_undraggable :
  (@clicked_sprite demo 110 110 undraggable).1 = Return (Some 0%nat) ∧
  Sprite.draggable <$> heap undraggable !! 0%nat = Some false ∧
  selected_sprite undraggable = None ∧
  selected_sprite (exec (@on_canvas_click demo 110 110) undraggable) = Some 0%nat ∧
  Sprite.is_dragging <$> heap (exec (@on_canvas_click demo 110 110) undraggable) !! 0%nat
    = Some false.
Proof. vm_compute. repeat split. Qed.

(** ** The inspector's entries *)

(** C3, as the code has it. A text that [int] rejects never reaches the
    sprite: the callback of the X entry raises [ValueError], which nothing
    catches, and the state (so every sprite's x) is as before. *)
Theorem x_entry_rejects_non_integer `{Platform} (st : Engine) (text : string) :
  int text = None →
  x_entry_focus_out text st = (Raise ValueError, st).
Proof. intros Hbad. unfold x_entry_focus_out. by rewrite Hbad. Qed.

Lemma x_entry_rejects_non_integer_witness :
  @x_entry_focus_out demo "abc" two_sprites_B_selected
  = (Raise ValueError, two_sprites_B_selected).
Proof.
  apply (@x_entry_rejects_non_integer demo two_sprites_B_selected "abc").
  vm_compute; reflexivity.
Defined.

(** C3, as the claim has it, fails: with B selected, "abc" in the X entry
    does not end in a callback that returned; the [ValueError] escapes it. *)
Lemma x_entry_faults :
  @int demo "abc" = None ∧
  (@x_entry_focus_out demo "abc" two_sprites_B_selected).1 = Raise ValueError ∧
  (@x_entry_focus_out demo "abc" two_sprites_B_selected).1 ≠ Return tt.
Proof.
  split; [vm_compute; reflexivity|].
  split; [vm_compute; reflexivity|].
  vm_compute. discriminate.
Qed.

(** ** The dict *)

Section dict_facts.
Context {V : Type}.
Implicit Types (d : list (string * V)) (k : string) (v : V).

Lemma dict_get_elem d k v : dict_get k d = Some v → (k, v) ∈ d.
Proof.
  induction d as [|[k' v'] d IH]; simpl; [done|].
  case_decide as Hk.
  - intros [= ->]. subst. left.
  - intros Hget. right. by apply IH.
Qed.

Lemma dict_get_None d k : dict_get k d = None ↔ k ∉ d.*1.
Proof.
  induction d as [|[k' v'] d IH]; simpl.
  - split; [intros _; apply not_elem_of_nil | done].
  - rewrite not_elem_of_cons. destruct (decide (k' = k)) as [->|Hk].
    + split; [done | intros [? _]; congruence].
    + rewrite IH. split; [intros ?; split; [|done]; intros ->; by apply Hk | tauto].
Qed.

Lemma dict_get_unique d k v : NoDup d.*1 → (k, v) ∈ d → dict_get k d = Some v.
Proof.
  induction d as [|[k' v'] d IH]; simpl; intros Hnd Hin.
  - by apply elem_of_nil in Hin.
  - apply NoDup_cons in Hnd as [Hk' Hnd].
    apply elem_of_cons in Hin as [[= -> ->]|Hin].
    + by rewrite decide_True.
    + destruct (decide (k' = k)) as [->|Hk]; [|by apply IH].
      exfalso. apply Hk'. apply list_elem_of_fmap. by exists (k, v).
Qed.

Lemma dict_in_spec d k : dict_in k d = true ↔ k ∈ d.*1.
Proof. unfold dict_in. by rewrite bool_decide_eq_true. Qed.

Lemma dict_del_cons_eq d k v : dict_del k ((k, v) :: d) = dict_del k d.
Proof. unfold dict_del. rewrite filter_cons_False; [done|]. simpl. tauto. Qed.

Lemma dict_del_cons_ne d k k' v :
  k' ≠ k → dict_del k ((k', v) :: d) = (k', v) :: dict_del k d.
Proof. intros Hne. unfold dict_del. by rewrite filter_cons_True. Qed.

Lemma dict_del_elem d k p : p ∈ dict_del k d ↔ p ∈ d ∧ p.1 ≠ k.
Proof. unfold dict_del. rewrite list_elem_of_filter. tauto. Qed.

Lemma dict_get_del_eq d k : dict_get k (dict_del k d) = None.
Proof.
  apply dict_get_None. intros Hin.
  apply list_elem_of_fmap in Hin as ([k' v'] & -> & Hin).
  apply dict_del_elem in Hin as [_ Hne]. by apply Hne.
Qed.

Lemma dict_get_del_ne d k k' : k' ≠ k → dict_get k' (dict_del k d) = dict_get k' d.
Proof.
  intros Hne. induction d as [|[k0 v0] d IH]; [done|].
  destruct (decide (k0 = k)) as [->|Hk0].
  - rewrite dict_del_cons_eq, IH. simpl. by rewrite decide_False.
  - rewrite dict_del_cons_ne by done. simpl. by rewrite IH.
Qed.

Lemma dict_del_keys d k : NoDup d.*1 → NoDup (dict_del k d).*1.
Proof.
  induction d as [|[k0 v0] d IH]; [done|].
  simpl. intros [Hk0 Hnd]%NoDup_cons.
  destruct (decide (k0 = k)) as [->|Hne].
  - rewrite dict_del_cons_eq. by apply IH.
  - rewrite dict_del_cons_ne by done. simpl. apply NoDup_cons. split; [|by apply IH].
    intros Hin. apply Hk0.
    apply list_elem_of_fmap in Hin as (p & -> & Hin).
    apply dict_del_elem in Hin as [Hin _].
    apply list_elem_of_fmap. by exists p.
Qed.

Lemma dict_set_elem d k v p : p ∈ dict_set k v d → p = (k, v) ∨ p ∈ d.
Proof.
  induction d as [|[k' v'] d IH]; simpl.
  - rewrite list_elem_of_singleton. tauto.
  - destruct (decide (k' = k)) as [->|Hk]; rewrite !elem_of_cons; [tauto|].
    intros [->|Hin]; [tauto|]. destruct (IH Hin); tauto.
Qed.

Lemma dict_set_new d k v : (k, v) ∈ dict_set k v d.
Proof.
  induction d as [|[k' v'] d IH]; simpl; [left|].
  destruct (decide (k' = k)); [left | by right].
Qed.

Lemma dict_set_old d k v p : p ∈ d → p.1 ≠ k → p ∈ dict_set k v d.
Proof.
  induction d as [|[k' v'] d IH]; simpl; intros Hin Hne.
  - by apply elem_of_nil in Hin.
  - apply elem_of_cons in Hin as [->|Hin].
    + simpl in Hne. rewrite decide_False by done. left.
    + destruct (decide (k' = k)); right; [done | by apply IH].
Qed.

Lemma dict_set_keys d k v :
  (dict_set k v d).*1 = (if bool_decide (k ∈ d.*1) then d.*1 else (d.*1 ++ [k])%list).
Proof.
  induction d as [|[k' v'] d IH]; [done|].
  cbn [dict_set]. destruct (decide (k' = k)) as [->|Hk]; rewrite !fmap_cons; cbn [fst].
  - rewrite bool_decide_eq_true_2; [done | left].
  - rewrite IH. destruct (bool_decide (k ∈ d.*1)) eqn:E.
    + apply bool_decide_eq_true in E. rewrite bool_decide_eq_true_2; [done | by right].
    + apply bool_decide_eq_false in E. rewrite bool_decide_eq_false_2; [done|].
      rewrite not_elem_of_cons. split; [congruence | done].
Qed.

Lemma dict_set_nodup d k v : NoDup d.*1 → NoDup (dict_set k v d).*1.
Proof.
  intros Hnd. rewrite dict_set_keys. destruct (bool_decide (k ∈ d.*1)) eqn:E; [done|].
  apply bool_decide_eq_false in E. apply NoDup_app. repeat split; [done| |apply NoDup_singleton].
  intros x Hx ->%list_elem_of_singleton. done.
Qed.

Lemma dict_get_set_eq d k v : dict_get k (dict_set k v d) = Some v.
Proof.
  induction d as [|[k' v'] d IH]; simpl; [by rewrite decide_True|].
  destruct (decide (k' = k)) as [->|Hk]; simpl; [by rewrite decide_True|].
  by rewrite decide_False.
Qed.

Lemma dict_get_set_ne d k k' v : k' ≠ k → dict_get k' (dict_set k v d) = dict_get k' d.
Proof.
  intros Hne. induction d as [|[k0 v0] d IH]; simpl; [by rewrite decide_False|].
  destruct (decide (k0 = k)) as [->|Hk]; simpl.
  - by rewrite !decide_False.
  - by rewrite IH.
Qed.

End dict_facts.

(** ** Removing *)

(** What [remove_sprite] leaves when the sprite is in the dict: the key
    deleted and nothing selected; the tree view apart. *)
Lemma remove_sprite_present `{Platform} st a s :
  heap st !! a = Some s →
  dict_in (Sprite.id s) (sprites st) = true →
  tree_apart
    (set_selected_sprite None (set_sprites (dict_del (Sprite.id s) (sprites st)) st))
    (exec (remove_sprite (Some a)) st).
Proof.
  intros Hs Hin. unfold exec, remove_sprite, bind, get, obj. rewrite Hs, Hin.
  unfold modify, update_inspector. simpl.
  destruct (update_scene_tree _) as [[[]|e] st'] eqn:E; simpl;
    pose proof (update_scene_tree_tree
      (set_selected_sprite None
         (set_sprites (dict_del (Sprite.id s) (sprites st)) st))) as Ht;
    by rewrite E in Ht.
Qed.

Lemma remove_sprite_absent `{Platform} st a s :
  heap st !! a = Some s →
  dict_in (Sprite.id s) (sprites st) = false →
  remove_sprite (Some a) st = (Return tt, st).
Proof.
  intros Hs Hin. unfold remove_sprite, bind, get, obj. by rewrite Hs, Hin.
Qed.

(** C9, as the code has it. Removing a sprite that is in the scene deletes
    its key and no other, leaves every sprite object as it was, and leaves
    nothing selected, whichever sprite was selected before; removing a
    sprite that is not in the scene changes nothing. *)
Theorem remove_sprite_clears_selection `{Platform} (st : Engine) (a : addr) (s : Sprite.t) :
  heap st !! a = Some s →
  let st' := exec (remove_sprite (Some a)) st in
  if dict_in (Sprite.id s) (sprites st) then
    dict_get (Sprite.id s) (sprites st') = None ∧
    (∀ k, k ≠ Sprite.id s → dict_get k (sprites st') = dict_get k (sprites st)) ∧
    heap st' = heap st ∧
    selected_sprite st' = None
  else st' = st.
Proof.
  intros Hs st'. destruct (dict_in _ _) eqn:Hin.
  - destruct (remove_sprite_present st a s Hs Hin) as [tv Htv].
    subst st'. rewrite Htv. simpl. repeat split.
    + apply dict_get_del_eq.
    + intros k Hk. by apply dict_get_del_ne.
  - subst st'. unfold exec. by rewrite (remove_sprite_absent st a s Hs Hin).
Qed.

Lemma remove_sprite_clears_selection_witness :
  selected_sprite two_sprites_B_selected = Some 1%nat ∧
  selected_sprite (exec (@remove_sprite demo (Some 0%nat)) two_sprites_B_selected) = None.
Proof.
  split; [vm_compute; reflexivity|].
  assert (∃ s, heap two_sprites_B_selected !! 0%nat = Some s ∧
               dict_in (Sprite.id s) (sprites two_sprites_B_selected) = true)
    as (s & Hs & Hin) by (eexists; split; cbv; reflexivity).
  pose proof (@remove_sprite_clears_selection demo two_sprites_B_selected 0%nat s Hs) as Hrm.
  cbv zeta in Hrm. rewrite Hin in Hrm. exact (proj2 (proj2 (proj2 Hrm))).
Defined.

(** C9, as the claim has it, fails: B is selected and A is removed; A is
    not the selection, and yet nothing is selected afterwards. *)
Lemma remove_other_clears_selection :
  selected_sprite two_sprites_B_selected = Some 1%nat ∧
  dict_get "uuid-0" (sprites two_sprites_B_selected) = Some 0%nat ∧
  selected_sprite (exec (@remove_sprite demo (Some 0%nat)) two_sprites_B_selected) = None ∧
  selected_sprite (exec (@remove_sprite demo (Some 0%nat)) two_sprites_B_selected)
    ≠ selected_sprite two_sprites_B_selected.
Proof. vm_compute. repeat split. discriminate. Qed.

(** ** Duplicating *)

Lemma duplicate_fields uuid s :
  let c := Sprite.duplicate uuid s in
  Sprite.id c = uuid ∧
  Sprite.name c = Sprite.name s ++ "_copy" ∧
  Sprite.x c = (Sprite.x s + 20)%Z ∧
  Sprite.y c = (Sprite.y s + 20)%Z ∧
  Sprite.texture c = Sprite.texture s ∧
  Sprite.color c = Sprite.color s ∧
  Sprite.width c = Sprite.width s ∧
  Sprite.height c = Sprite.height s ∧
  Sprite.draggable c = Sprite.draggable s ∧
  Sprite.is_dragging c = false ∧
  Sprite.canvas_id c = None ∧
  Sprite.script c = None.
Proof. unfold Sprite.duplicate. destruct (Sprite.texture s) eqn:E; simpl; by rewrite ?E. Qed.

Lemma duplicate_sprite_exec `{Platform} st a s :
  heap st !! a = Some s →
  tree_apart (registered (λ uuid, Sprite.duplicate uuid s) st)
             (exec (duplicate_sprite (Some a)) st).
Proof.
  intros Hs. unfold exec, duplicate_sprite, bind, get, obj. rewrite Hs.
  unfold new_sprite, register, bind, get, obj. simpl.
  rewrite lookup_app_r, Nat.sub_diag by done. simpl.
  unfold modify. simpl.
  match goal with |- tree_apart ?x (update_scene_tree ?y).2 =>
    change y with x; apply update_scene_tree_tree end.
Qed.

(** ** Well-formed states *)

Section invariant.
Context `{Platform}.
Hypothesis uuid4_fresh : Inj (=) (=) uuid4.

Lemma wf_tree_apart st st' : tree_apart st st' → wf st → wf st'.
Proof. intros [tv ->] []. by constructor. Qed.

Lemma wf_set_drag_source v st : wf st → wf (set_drag_source v st).
Proof. intros []. by constructor. Qed.

Lemma wf_set_is_running v st : wf st → wf (set_is_running v st).
Proof. intros []. by constructor. Qed.

Lemma wf_select o st :
  wf st → (∀ a, o = Some a → ∃ k, (k, a) ∈ sprites st) → wf (set_selected_sprite o st).
Proof. intros [] Ho. by constructor. Qed.

Lemma wf_dict_get k st : wf st → wf (set_selected_sprite (dict_get k (sprites st)) st).
Proof.
  intros Hwf. apply wf_select; [done|]. intros a Ha. exists k. by apply dict_get_elem.
Qed.

(** A mutation that keeps the identifier and the canvas handle. *)
Lemma wf_mutate f a st :
  wf st →
  (∀ s, heap st !! a = Some s →
     Sprite.id (f s) = Sprite.id s ∧ Sprite.canvas_id (f s) = Sprite.canvas_id s) →
  wf (set_heap (alter f a (heap st)) st).
Proof.
  intros [] Hf.
  assert (∀ b s', alter f a (heap st) !! b = Some s' →
            ∃ s, heap st !! b = Some s ∧ Sprite.id s' = Sprite.id s ∧
                 Sprite.canvas_id s' = Sprite.canvas_id s) as Hback.
  { intros b s'. rewrite list_lookup_alter. case_decide as Hab.
    - subst b. destruct (heap st !! a) as [s|] eqn:Hs; [|done].
      intros [= <-]. exists s. split; [done|]. by apply Hf.
    - intros Hs. by exists s'. }
  constructor; simpl.
  - by rewrite length_alter.
  - intros b s' (s & Hs & -> & _)%Hback. eauto.
  - intros k b (s & Hs & Hk)%wf_dict0.
    destruct (decide (a = b)) as [->|Hab].
    + exists (f s). rewrite list_lookup_alter_eq, Hs. split; [done|].
      by rewrite (proj1 (Hf s Hs)).
    + exists s. by rewrite list_lookup_alter_ne.
  - done.
  - done.
  - intros b s' c (s & Hs & _ & Hc)%Hback. rewrite Hc. eauto.
  - done.
Qed.

Lemma wf_new_sprite make st :
  wf st →
  (∀ u, Sprite.id (make u) = u ∧ Sprite.canvas_id (make u) = None) →
  wf (set_uuid_calls (S (uuid_calls st))
        (set_heap (heap st ++ [make (uuid4 (uuid_calls st))]) st)).
Proof.
  intros [] Hmake.
  assert (∀ b s', (heap st ++ [make (uuid4 (uuid_calls st))])%list !! b = Some s' →
            heap st !! b = Some s' ∨
            (b = length (heap st) ∧ s' = make (uuid4 (uuid_calls st)))) as Hback.
  { intros b s' Hb. apply lookup_app_Some in Hb as [Hb|[Hge Hb]]; [by left|].
    right. apply list_lookup_singleton_Some in Hb as [Hb <-]. split; [lia|done]. }
  constructor; simpl.
  - rewrite length_app. simpl. lia.
  - intros b s' [Hb|[-> ->]]%Hback; [eauto|].
    rewrite (proj1 (Hmake _)). by rewrite wf_calls0.
  - intros k b (s & Hs & Hk)%wf_dict0. exists s. split; [|done].
    by apply lookup_app_l_Some.
  - done.
  - done.
  - intros b s' c [Hb|[-> ->]]%Hback; [eauto|].
    by rewrite (proj2 (Hmake _)).
  - done.
Qed.

(** [self.sprites[sprite.id] = sprite]; fresh identifiers are what keeps an
    older sprite, the selection among them, from losing its key. *)
Lemma wf_register a s st :
  wf st → heap st !! a = Some s →
  wf (set_sprites (dict_set (Sprite.id s) a (sprites st)) st).
Proof.
  intros [] Hs. constructor; simpl; try done.
  - intros k b [[= -> ->]|Hin]%dict_set_elem; eauto.
  - by apply dict_set_nodup.
  - intros b (k & Hin)%wf_selected0.
    destruct (decide (k = Sprite.id s)) as [->|Hk].
    + exists (Sprite.id s). destruct (wf_dict0 _ _ Hin) as (s' & Hs' & Hid).
      assert (b = a) as ->; [|apply dict_set_new].
      apply uuid4_fresh. by rewrite <- (wf_ids0 _ _ Hs'), <- (wf_ids0 _ _ Hs).
    + exists k. by apply dict_set_old.
Qed.

Lemma wf_registered make st :
  wf st →
  (∀ u, Sprite.id (make u) = u ∧ Sprite.canvas_id (make u) = None) →
  wf (registered make st).
Proof.
  intros Hwf Hmake. unfold registered.
  pose proof (wf_new_sprite make st Hwf Hmake) as Hwf'.
  apply (wf_register (length (heap st)) (make (uuid4 (uuid_calls st)))) in Hwf'; [done|].
  simpl. by rewrite lookup_app_r, Nat.sub_diag.
Qed.

Lemma wf_remove k st :
  wf st → wf (set_selected_sprite None (set_sprites (dict_del k (sprites st)) st)).
Proof.
  intros []. constructor; simpl; try done.
  - intros k' b [Hin _]%dict_del_elem. eauto.
  - by apply dict_del_keys.
Qed.

End invariant.

(** ** Rendering *)

Local Open Scope nat_scope.
Local Open Scope list_scope.

Lemma drawn_set_canvas_id c s : drawn (Sprite.set_canvas_id c s) = drawn s.
Proof. reflexivity. Qed.

Lemma filter_all {A} (P : A → Prop) `{∀ x, Decision (P x)} (l : list A) :
  Forall P l → filter P l = l.
Proof.
  induction 1 as [|x l Hx Hl IH]; [done|]. by rewrite filter_cons_True, IH.
Qed.

(** A handle that no item of the canvas has: deleting it changes nothing. *)
Lemma delete_old_stale s cv n0 :
  (∀ c, Sprite.canvas_id s = Some c → c < n0) →
  (∀ p, p ∈ items cv → n0 ≤ p.1) →
  Sprite.delete_old s cv = cv.
Proof.
  intros Hc Hcv. unfold Sprite.delete_old. destruct (Sprite.canvas_id s) as [c|]; [|done].
  unfold canvas_delete. rewrite filter_all; [by destruct cv|].
  apply Forall_forall. intros p Hp%Hcv. specialize (Hc c eq_refl). lia.
Qed.

Lemma draw_eq s cv :
  Sprite.draw s cv =
  (Sprite.set_canvas_id (Some (next_item (Sprite.delete_old s cv))) s,
   {| items := items (Sprite.delete_old s cv)
               ++ [(next_item (Sprite.delete_old s cv), drawn s)];
      next_item := S (next_item (Sprite.delete_old s cv)) |}).
Proof. unfold Sprite.draw, drawn. by destruct (Sprite.texture s). Qed.

(** The loop of [render], run on a canvas whose items are all newer than
    the handles the sprites still hold: one item per sprite is appended, in
    the order of the loop, with increasing handles; the sprites change in
    their canvas handle only. *)
Lemma draw_all_spec vals : ∀ h cv n0,
  NoDup vals →
  (∀ a, a ∈ vals → ∃ s, h !! a = Some s ∧ ∀ c, Sprite.canvas_id s = Some c → c < n0) →
  (∀ p, p ∈ items cv → n0 ≤ p.1 < next_item cv) →
  n0 ≤ next_item cv →
  ∃ new,
    items (draw_all vals h cv).2 = items cv ++ new ∧
    Forall2 (λ p a, ∃ s, h !! a = Some s ∧ p.2 = drawn s) new vals ∧
    (∀ p, p ∈ new → next_item cv ≤ p.1 < next_item (draw_all vals h cv).2) ∧
    NoDup new.*1 ∧
    next_item cv ≤ next_item (draw_all vals h cv).2 ∧
    length (draw_all vals h cv).1 = length h ∧
    (∀ b s, h !! b = Some s →
       ∃ s', (draw_all vals h cv).1 !! b = Some s' ∧
         (s' = s ∨ ∃ c, s' = Sprite.set_canvas_id (Some c) s ∧
                        c < next_item (draw_all vals h cv).2)).
Proof.
  induction vals as [|a rest IH]; intros h cv n0 Hnd Hvals Hcv Hn0.
  - exists []. simpl. rewrite app_nil_r.
    split; [done|]. split; [constructor|].
    split; [intros p Hp; by apply elem_of_nil in Hp|].
    split; [apply NoDup_nil_2|]. split; [done|]. split; [done|].
    intros b s Hs. exists s. split; [done | by left].
  - apply NoDup_cons in Hnd as [Ha Hnd].
    destruct (Hvals a) as (s & Hs & Hc); [left|].
    simpl. rewrite Hs, draw_eq.
    rewrite (delete_old_stale s cv n0) by (done || intros p Hp%Hcv; lia).
    set (s1 := Sprite.set_canvas_id (Some (next_item cv)) s).
    set (cv1 := {| items := items cv ++ [(next_item cv, drawn s)];
                   next_item := S (next_item cv) |}).
    destruct (IH (<[a:=s1]> h) cv1 n0)
      as (new & Hitems & Hrel & Hbound & Hnew & Hnext & Hlen & Hheap).
    + done.
    + intros b Hb. destruct (Hvals b) as (sb & Hsb & Hcb); [by right|].
      exists sb. split; [|done]. rewrite list_lookup_insert_ne; [done|].
      intros ->. done.
    + intros p. simpl. rewrite elem_of_app, list_elem_of_singleton.
      intros [Hp%Hcv| ->]; simpl; lia.
    + simpl. lia.
    + exists ((next_item cv, drawn s) :: new). simpl in *.
      split; [by rewrite Hitems, <- app_assoc|].
      split.
      { constructor; [by exists s|].
        eapply Forall2_impl; [exact Hrel|]. intros p b (sb & Hsb & Hp).
        destruct (decide (a = b)) as [->|Hab].
        - rewrite list_lookup_insert_eq in Hsb by (by eapply lookup_lt_Some).
          injection Hsb as <-. exists s. by rewrite Hp.
        - rewrite list_lookup_insert_ne in Hsb by done. by exists sb. }
      split.
      { intros p [->|Hp%Hbound]%elem_of_cons; simpl; lia. }
      split.
      { apply NoDup_cons. split; [|done].
        intros (p & Hp1 & Hp%Hbound)%list_elem_of_fmap. simpl in *. lia. }
      split; [lia|].
      split; [by rewrite Hlen, length_insert|].
      intros b sb Hsb. destruct (decide (a = b)) as [->|Hab].
      * destruct (Hheap b s1) as (s' & Hs' & Hrel').
        { rewrite list_lookup_insert_eq; [done | by eapply lookup_lt_Some]. }
        exists s'. split; [done|]. right.
        assert (sb = s) as -> by congruence.
        destruct Hrel' as [->|(c & -> & Hlt)].
        -- exists (next_item cv). split; [done | lia].
        -- exists c. split; [done | lia].
      * destruct (Hheap b sb) as (s' & Hs' & Hrel').
        { by rewrite list_lookup_insert_ne. }
        exists s'. split; [done|]. done.
Qed.

Lemma render_exec st :
  exec render st =
  let r := draw_all (dict_values (sprites st)) (heap st) (canvas_delete_all (canvas st)) in
  set_canvas r.2 (set_heap r.1 st).
Proof.
  unfold exec, render, modify. simpl. by destruct (draw_all _ _ _).
Qed.

Section well_formed_render.
Context `{Platform}.

Lemma wf_value st a :
  wf st → a ∈ dict_values (sprites st) →
  ∃ s, heap st !! a = Some s ∧ (Sprite.id s, a) ∈ sprites st.
Proof.
  intros Hwf (p & -> & Hp)%list_elem_of_fmap. destruct p as [k a].
  destruct (wf_dict st Hwf k a Hp) as (s & Hs & <-). eauto.
Qed.

(** Distinct keys are distinct sprites: every sprite sits under its own
    identifier. *)
Lemma wf_values_nodup st : wf st → NoDup (dict_values (sprites st)).
Proof.
  intros Hwf. unfold dict_values.
  apply (NoDup_fmap_1 (λ a, from_option Sprite.id ""%string (heap st !! a))).
  replace (_ <$> (sprites st).*2) with (sprites st).*1; [apply Hwf|].
  assert (Forall (λ p, ∃ s, heap st !! p.2 = Some s ∧ Sprite.id s = p.1) (sprites st))
    as Hall.
  { apply Forall_forall. intros [k a] Hp. by apply (wf_dict st Hwf). }
  induction Hall as [|[k a] d (s & Hs & Hk) _ IH]; [done|].
  simpl in Hs, Hk. rewrite !fmap_cons. cbn [fst snd]. rewrite Hs. cbn [from_option].
  by rewrite Hk, IH.
Qed.

(** What [render] leaves: the canvas holds one item per sprite of the
    scene, in draw order and under distinct handles, each the picture of its
    sprite; the sprites differ from before in their canvas handle at most. *)
Lemma render_spec st :
  wf st →
  let st' := exec render st in
  sprites st' = sprites st ∧
  selected_sprite st' = selected_sprite st ∧
  uuid_calls st' = uuid_calls st ∧
  length (heap st') = length (heap st) ∧
  Forall2 (λ p a, ∃ s, heap st !! a = Some s ∧ p.2 = drawn s)
    (items (canvas st')) (dict_values (sprites st)) ∧
  NoDup (items (canvas st')).*1 ∧
  (∀ p, p ∈ items (canvas st') → p.1 < next_item (canvas st')) ∧
  next_item (canvas st) ≤ next_item (canvas st') ∧
  (∀ b s, heap st !! b = Some s →
     ∃ s', heap st' !! b = Some s' ∧
       (s' = s ∨ ∃ c, s' = Sprite.set_canvas_id (Some c) s ∧
                      c < next_item (canvas st'))).
Proof.
  intros Hwf st'. subst st'. rewrite render_exec. cbv zeta.
  destruct (draw_all_spec (dict_values (sprites st)) (heap st)
              (canvas_delete_all (canvas st)) (next_item (canvas st)))
    as (new & Hitems & Hrel & Hbound & Hnew & Hnext & Hlen & Hheap).
  - by apply wf_values_nodup.
  - intros a (s & Hs & _)%(wf_value st a Hwf). exists s. split; [done|].
    intros c Hc. by eapply (wf_handles st Hwf).
  - intros p Hp. by apply elem_of_nil in Hp.
  - done.
  - simpl in *. rewrite Hitems. simpl.
    repeat split; try done.
    intros p Hp%Hbound. lia.
Qed.

Lemma wf_render st : wf st → wf (exec render st).
Proof.
  intros Hwf.
  destruct (render_spec st Hwf)
    as (Hd & Hsel & Hcalls & Hlen & _ & _ & Hitems & Hnext & Hheap).
  assert (∀ b s', heap (exec render st) !! b = Some s' →
            ∃ s, heap st !! b = Some s ∧
              (s' = s ∨ ∃ c, s' = Sprite.set_canvas_id (Some c) s ∧
                             c < next_item (canvas (exec render st)))) as Hback.
  { intros b s' Hs'. destruct (heap st !! b) as [s|] eqn:Hs.
    - exists s. split; [done|]. destruct (Hheap b s Hs) as (s'' & Hs'' & Hrel).
      by assert (s' = s'') as -> by congruence.
    - apply lookup_lt_Some in Hs'. apply lookup_ge_None in Hs. lia. }
  destruct Hwf. constructor.
  - by rewrite Hcalls, Hlen.
  - intros b s' (s & Hs & [->|(c & -> & _)])%Hback; simpl; eauto.
  - rewrite Hd. intros k b (s & Hs & Hk)%wf_dict0.
    destruct (Hheap b s Hs) as (s' & Hs' & [->|(c & -> & _)]); eauto.
  - by rewrite Hd.
  - rewrite Hsel, Hd. done.
  - intros b s' c (s & Hs & [->|(c' & -> & Hc')])%Hback; simpl.
    + intros Hc. specialize (wf_handles0 b s c Hs Hc). lia.
    + by intros [= <-].
  - done.
Qed.

End well_formed_render.

(** ** Well formed, and no object lost *)

Section well_formed_from.
Context `{Platform}.
Hypothesis uuid4_fresh : Inj (=) (=) uuid4.
Variable n : nat.

Lemma wfn_tree_apart st st' : tree_apart st st' → wf_from n st → wf_from n st'.
Proof.
  intros Ht [Hwf Hn]. split; [by eapply wf_tree_apart|]. by destruct Ht as [tv ->].
Qed.

Lemma wfn_set_drag_source v st : wf_from n st → wf_from n (set_drag_source v st).
Proof. intros [Hwf Hn]. split; [by apply wf_set_drag_source | done]. Qed.

Lemma wfn_set_is_running v st : wf_from n st → wf_from n (set_is_running v st).
Proof. intros [Hwf Hn]. split; [by apply wf_set_is_running | done]. Qed.

Lemma wfn_select o st :
  wf_from n st → (∀ a, o = Some a → ∃ k, (k, a) ∈ sprites st) →
  wf_from n (set_selected_sprite o st).
Proof. intros [Hwf Hn] Ho. split; [by apply wf_select | done]. Qed.

Lemma wfn_dict_get k st :
  wf_from n st → wf_from n (set_selected_sprite (dict_get k (sprites st)) st).
Proof. intros [Hwf Hn]. split; [by apply wf_dict_get | done]. Qed.

Lemma wfn_mutate f a st :
  wf_from n st →
  (∀ s, heap st !! a = Some s →
     Sprite.id (f s) = Sprite.id s ∧ Sprite.canvas_id (f s) = Sprite.canvas_id s) →
  wf_from n (set_heap (alter f a (heap st)) st).
Proof.
  intros [Hwf Hn] Hf. split; [by apply wf_mutate|]. simpl. by rewrite length_alter.
Qed.

Lemma wfn_new_sprite make st :
  wf_from n st →
  (∀ u, Sprite.id (make u) = u ∧ Sprite.canvas_id (make u) = None) →
  wf_from n (set_uuid_calls (S (uuid_calls st))
               (set_heap (heap st ++ [make (uuid4 (uuid_calls st))]) st)).
Proof.
  intros [Hwf Hn] Hmake. split; [by apply wf_new_sprite|]. simpl.
  rewrite length_app. lia.
Qed.

Lemma wfn_register a s st :
  wf_from n st → heap st !! a = Some s →
  wf_from n (set_sprites (dict_set (Sprite.id s) a (sprites st)) st).
Proof. intros [Hwf Hn] Hs. split; [by apply wf_register | done]. Qed.

Lemma wfn_remove k st :
  wf_from n st →
  wf_from n (set_selected_sprite None (set_sprites (dict_del k (sprites st)) st)).
Proof. intros [Hwf Hn]. split; [by apply wf_remove | done]. Qed.

Lemma wfn_render st : wf_from n st → wf_from n (exec render st).
Proof.
  intros [Hwf Hn]. split; [by apply wf_render|].
  destruct (render_spec st Hwf) as (_ & _ & _ & Hlen & _). by rewrite Hlen.
Qed.

End well_formed_from.

(** ** Every handler keeps the state well formed *)

Section handlers_keep_wf.
Context `{Platform}.
Hypothesis uuid4_fresh : Inj (=) (=) uuid4.
Variable n : nat.

Local Abbreviation keeps_from := (preserves_from n).
Local Abbreviation keeps := (preserves n).

Lemma keeps_from_bind {A B} st (m : M A) (k : A → M B) :
  keeps_from st m → (∀ a, keeps (k a)) → keeps_from st (bind m k).
Proof.
  intros Hm Hk Hwf. rewrite exec_bind. specialize (Hm Hwf). unfold exec in Hm.
  destruct (m st) as [[a|e] st']; simpl in *; [by apply Hk | done].
Qed.

Lemma keeps_bind {A B} (m : M A) (k : A → M B) :
  keeps m → (∀ a, keeps (k a)) → keeps (bind m k).
Proof. intros Hm Hk st. by apply keeps_from_bind. Qed.

Lemma keeps_get {A} (k : Engine → M A) :
  (∀ st, keeps_from st (k st)) → keeps (bind get k).
Proof. intros Hk st Hwf. rewrite exec_get. by apply Hk. Qed.

Lemma keeps_ret {A} (a : A) : keeps (ret a).
Proof. by intros st Hwf. Qed.

Lemma keeps_raise {A} e : keeps (@raise A e).
Proof. by intros st Hwf. Qed.

Lemma keeps_all {A} st (m : M A) : keeps m → keeps_from st m.
Proof. done. Qed.

Lemma keeps_update_scene_tree : keeps update_scene_tree.
Proof. intros st Hwf. eapply wfn_tree_apart; [apply update_scene_tree_tree | done]. Qed.

Lemma keeps_selection_set iid : keeps (selection_set iid).
Proof. intros st Hwf. eapply wfn_tree_apart; [apply selection_set_tree | done]. Qed.

Lemma keeps_update_inspector : keeps update_inspector.
Proof. apply keeps_ret. Qed.

Lemma keeps_mutate a f : same_identity f → keeps (mutate a f).
Proof. intros Hf st Hwf. apply wfn_mutate; [done|]. intros s _. apply Hf. Qed.

Lemma same_identity_start_drag px py : same_identity (Sprite.start_drag px py).
Proof. intros s. unfold Sprite.start_drag. by destruct (Sprite.draggable s). Qed.

Lemma same_identity_update_drag px py : same_identity (Sprite.update_drag px py).
Proof. intros s. unfold Sprite.update_drag. by destruct (Sprite.is_dragging s). Qed.

Lemma same_identity_setattr p : same_identity (setattr p).
Proof. intros s. by destruct p. Qed.

Lemma keeps_new_sprite make :
  (∀ u, Sprite.id (make u) = u ∧ Sprite.canvas_id (make u) = None) →
  keeps (new_sprite make).
Proof. intros Hmake st Hwf. by apply wfn_new_sprite. Qed.

Lemma keeps_register a : keeps (register a).
Proof.
  apply keeps_get. intros st Hwf. unfold obj.
  destruct (heap st !! a) as [s|] eqn:Hs; [|done].
  by apply (wfn_register uuid4_fresh n).
Qed.

Lemma keeps_create_sprite name x y : keeps (create_sprite name x y).
Proof.
  apply keeps_bind; [by apply keeps_new_sprite|]. intros a.
  apply keeps_bind; [apply keeps_register|]. intros _.
  apply keeps_bind; [apply keeps_update_scene_tree|]. intros _. apply keeps_ret.
Qed.

Lemma duplicate_makes s u :
  Sprite.id (Sprite.duplicate u s) = u ∧ Sprite.canvas_id (Sprite.duplicate u s) = None.
Proof. destruct (duplicate_fields u s) as (? & _ & _ & _ & _ & _ & _ & _ & _ & _ & ? & _). done. Qed.

Lemma keeps_duplicate_sprite sprite : keeps (duplicate_sprite sprite).
Proof.
  apply keeps_get. intros st. destruct (obj st sprite) as [[a s]|]; [|apply keeps_ret].
  apply keeps_all, keeps_bind; [apply keeps_new_sprite, duplicate_makes|]. intros new.
  apply keeps_bind; [apply keeps_register | intros _; apply keeps_update_scene_tree].
Qed.

Lemma keeps_remove_sprite sprite : keeps (remove_sprite sprite).
Proof.
  apply keeps_get. intros st. destruct (obj st sprite) as [[a s]|]; [|apply keeps_ret].
  destruct (dict_in _ _); [|apply keeps_ret].
  intros Hwf. rewrite !exec_modify.
  apply (keeps_bind update_scene_tree (λ _, update_inspector));
    [apply keeps_update_scene_tree | intros _; apply keeps_update_inspector |].
  by apply (wfn_remove n (Sprite.id s)) in Hwf.
Qed.

Lemma keeps_render : keeps render.
Proof. intros st Hwf. by apply wfn_render. Qed.

Lemma keeps_game_loop : keeps game_loop.
Proof.
  apply keeps_get. intros st. destruct (is_running st); [|apply keeps_ret].
  apply keeps_all, keeps_bind; [apply keeps_ret | intros _; apply keeps_render].
Qed.

Lemma keeps_update_sprite_property p : keeps (update_sprite_property p).
Proof.
  apply keeps_get. intros st.
  destruct (obj st (selected_sprite st)) as [[a s]|]; [|apply keeps_ret].
  apply keeps_all, keeps_bind; [apply keeps_mutate, same_identity_setattr|].
  intros _. apply keeps_update_scene_tree.
Qed.

Lemma obj_Some st r a s : obj st r = Some (a, s) → r = Some a ∧ heap st !! a = Some s.
Proof.
  unfold obj. destruct r as [b|]; [|done].
  destruct (heap st !! b) as [s'|] eqn:E; [|done]. by intros [= -> ->].
Qed.

Lemma keeps_load_texture path opened : keeps (load_texture path opened).
Proof.
  apply keeps_get. intros st.
  destruct (obj st (selected_sprite st)) as [[a s]|] eqn:Ho; [|apply keeps_ret].
  apply obj_Some in Ho as [_ Hs].
  destruct (bool_decide _); [|apply keeps_ret].
  destruct (Sprite.load_texture opened s) as [ok s'] eqn:E.
  apply keeps_from_bind; [|intros _; destruct ok; apply keeps_ret].
  intros Hwf. apply wfn_mutate; [done|]. intros s0 Hs0.
  assert (s0 = s) as -> by congruence.
  unfold Sprite.load_texture in E. destruct opened; by injection E as _ <-.
Qed.

Lemma keeps_on_sprite_select : keeps on_sprite_select.
Proof.
  apply keeps_get. intros st. destruct (selection (scene_tree st) !! 0) as [item|];
    [|apply keeps_raise].
  apply keeps_from_bind; [|intros _; apply keeps_update_inspector].
  intros Hwf. by apply (wfn_dict_get n item).
Qed.

Lemma first_sprite_elem cv d found a :
  first_sprite cv d found = Return (Some a) → ∃ k, (k, a) ∈ d.
Proof.
  induction found as [|item rest IH]; simpl; [done|].
  destruct (bool_decide _); [|done].
  destruct (gettags cv item !! 1) as [k|]; [|done].
  intros [= Hget]. exists k. by apply dict_get_elem.
Qed.

(** Both click handlers select what they found, then run a mutation that
    keeps the identity, then touch the tree view. *)
Lemma keeps_click ex ey (k : addr → Sprite.t → M unit) :
  (∀ a s, keeps (k a s)) →
  keeps (clicked <- clicked_sprite ex ey;;
         st <- get;;
         match obj st clicked with
         | Some (a, sprite) => modify (set_selected_sprite (Some a));; k a sprite
         | None => ret tt
         end).
Proof.
  intros Hk st Hwf. rewrite exec_bind.
  destruct (clicked_sprite ex ey st) as [[clicked|e] st'] eqn:E;
    pose proof (clicked_sprite_state ex ey st) as Hst; rewrite E in Hst;
    simpl in Hst; subst st'; [|done].
  rewrite exec_get. destruct (obj st clicked) as [[a s]|] eqn:Ho; [|done].
  apply obj_Some in Ho as [-> Hs]. rewrite exec_modify. apply Hk.
  apply wfn_select; [done|]. intros b [= <-].
  apply (first_sprite_elem (canvas st) _ (find_overlapping (canvas st) ex ey (ex + 1) (ey + 1))).
  unfold clicked_sprite in E. by injection E.
Qed.

Lemma keeps_on_canvas_click ex ey : keeps (on_canvas_click ex ey).
Proof.
  apply (keeps_click ex ey (λ a sprite,
    mutate a (Sprite.start_drag ex ey);; update_inspector;;
    selection_set (Sprite.id sprite))%py).
  intros a s. apply keeps_bind; [apply keeps_mutate, same_identity_start_drag|].
  intros _. apply keeps_bind; [apply keeps_update_inspector|].
  intros _. apply keeps_selection_set.
Qed.

Lemma keeps_on_right_click ex ey : keeps (on_right_click ex ey).
Proof.
  apply (keeps_click ex ey (λ a sprite, selection_set (Sprite.id sprite))).
  intros a s. apply keeps_selection_set.
Qed.

Lemma keeps_on_canvas_drag ex ey : keeps (on_canvas_drag ex ey).
Proof.
  apply keeps_get. intros st.
  destruct (obj st (selected_sprite st)) as [[a s]|]; [|apply keeps_ret].
  apply keeps_all, keeps_bind; [apply keeps_mutate, same_identity_update_drag|].
  intros _. apply keeps_render.
Qed.

Lemma keeps_on_canvas_release : keeps on_canvas_release.
Proof.
  apply keeps_get. intros st.
  destruct (obj st (selected_sprite st)) as [[a s]|]; [|apply keeps_ret].
  by apply keeps_all, keeps_mutate.
Qed.

Lemma keeps_start_tree_drag item : keeps (start_tree_drag item).
Proof.
  unfold start_tree_drag. destruct (bool_decide _); [|apply keeps_ret].
  apply keeps_bind; [|intros _; apply keeps_selection_set].
  intros st Hwf. by apply wfn_set_drag_source.
Qed.

Lemma keeps_end_tree_drag ex ey pw ch : keeps (end_tree_drag ex ey pw ch).
Proof.
  apply keeps_get. intros st. destruct (truthy_source _) as [source|]; [|apply keeps_ret].
  apply keeps_all, keeps_bind; [|intros _ st' Hwf; by apply wfn_set_drag_source].
  destruct (bool_decide _); [|apply keeps_ret].
  destruct (obj st _) as [[a s]|]; [|apply keeps_ret].
  apply keeps_bind; [apply keeps_new_sprite, duplicate_makes|]. intros new.
  apply keeps_bind; [by apply keeps_mutate|]. intros _.
  apply keeps_bind; [by apply keeps_mutate|]. intros _.
  apply keeps_bind; [apply keeps_register | intros _; apply keeps_update_scene_tree].
Qed.

Lemma keeps_save_script a text : keeps (save_script a text).
Proof.
  apply keeps_bind; [by apply keeps_mutate | intros _; apply keeps_update_inspector].
Qed.

Lemma keeps_start : keeps start.
Proof.
  apply keeps_bind; [intros st Hwf; by apply wfn_set_is_running | intros _; apply keeps_game_loop].
Qed.

Lemma keeps_handle ev : keeps (handle ev).
Proof.
  destruct ev; simpl.
  - apply keeps_bind; [apply keeps_create_sprite | intros _; apply keeps_ret].
  - apply keeps_duplicate_sprite.
  - apply keeps_remove_sprite.
  - apply keeps_get. intros st. apply keeps_all, keeps_duplicate_sprite.
  - apply keeps_get. intros st. apply keeps_all, keeps_remove_sprite.
  - apply keeps_get. intros st.
    destruct (obj st _) as [[a0 s0]|]; [apply keeps_all, keeps_save_script | apply keeps_ret].
  - apply keeps_save_script.
  - apply keeps_on_sprite_select.
  - apply keeps_on_canvas_click.
  - apply keeps_on_right_click.
  - apply keeps_on_canvas_drag.
  - apply keeps_on_canvas_release.
  - apply keeps_update_sprite_property.
  - unfold x_entry_focus_out. destruct (int text);
      [apply keeps_update_sprite_property | apply keeps_raise].
  - unfold y_entry_focus_out. destruct (int text);
      [apply keeps_update_sprite_property | apply keeps_raise].
  - apply keeps_start_tree_drag.
  - apply keeps_ret.
  - apply keeps_end_tree_drag.
  - apply keeps_load_texture.
  - apply keeps_game_loop.
  - intros st Hwf. by apply wfn_set_is_running.
Qed.

(** The main loop keeps the invariant. *)
Lemma wfn_run evs : ∀ st, wf_from n st → wf_from n (run evs st).
Proof.
  induction evs as [|ev evs IH]; intros st Hwf; [done|].
  simpl. apply IH. by apply keeps_handle.
Qed.

Lemma keeps_init : keeps (FlamingEngine_init;; start)%py.
Proof.
  apply keeps_bind; [|intros _; apply keeps_start].
  apply keeps_bind; [apply keeps_create_sprite|]. intros a. by apply keeps_mutate.
Qed.

End handlers_keep_wf.

Section reachable.
Context `{Platform}.
Hypothesis uuid4_fresh : Inj (=) (=) uuid4.

Lemma wf_new : wf FlamingEngine_new.
Proof.
  constructor; simpl; try done.
  - intros k a Hin. by apply elem_of_nil in Hin.
  - apply NoDup_nil_2.
  - intros p Hp. by apply elem_of_nil in Hp.
Qed.

Lemma wf_init : wf FlamingEngineIDE_init.
Proof.
  apply (keeps_init uuid4_fresh 0 FlamingEngine_new). split; [apply wf_new | simpl; lia].
Qed.

(** Every state the main loop reaches is well formed. *)
Lemma wf_run evs st : wf st → wf (run evs st).
Proof.
  intros Hwf. apply (wfn_run uuid4_fresh 0 evs st). split; [done | lia].
Qed.

Lemma wf_reachable evs : wf (run evs FlamingEngineIDE_init).
Proof. apply wf_run, wf_init. Qed.

(** No handler loses an object of the heap. *)
Lemma heap_grows ev st : wf st → length (heap st) ≤ length (heap (exec (handle ev) st)).
Proof.
  intros Hwf.
  apply (keeps_handle uuid4_fresh (length (heap st)) ev st). by split.
Qed.

End reachable.

(** ** The demo platform never repeats an identifier *)

Lemma demo_fresh : Inj (=) (=) (@uuid4 demo).
Proof.
  intros n m Heq. cbv [uuid4 demo] in Heq. apply String.app_inj in Heq.
  apply Unsigned.to_uint_inj.
  assert (Some (Nat.to_uint n) = Some (Nat.to_uint m)) as [= ->]; [|done].
  by rewrite <- !NilEmpty.usu, Heq.
Qed.

(** ** Identity *)

Section identity.
Context `{Platform}.
Hypothesis uuid4_fresh : Inj (=) (=) uuid4.

Lemma live_ids st : wf st → Sprite.id <$> live st = (sprites st).*1.
Proof.
  intros Hwf. unfold live, dict_values.
  assert (Forall (λ p, ∃ s, heap st !! p.2 = Some s ∧ Sprite.id s = p.1) (sprites st))
    as Hall.
  { apply Forall_forall. intros [k a] Hp. by apply (wf_dict st Hwf). }
  induction Hall as [|[k a] d (s & Hs & Hk) _ IH]; [done|].
  simpl in Hs, Hk. rewrite !fmap_cons. cbn [fst snd omap list_omap].
  rewrite Hs. rewrite fmap_cons. by rewrite Hk, <- IH.
Qed.

Lemma wf_heap_ids st a b sa sb :
  wf st → heap st !! a = Some sa → heap st !! b = Some sb →
  Sprite.id sa = Sprite.id sb → a = b.
Proof.
  intros Hwf Ha Hb Hid. apply uuid4_fresh.
  by rewrite <- (wf_ids st Hwf a sa Ha), <- (wf_ids st Hwf b sb Hb).
Qed.

Lemma handle_keeps_id ev st a s :
  wf st → heap st !! a = Some s →
  ∃ s', heap (exec (handle ev) st) !! a = Some s' ∧ Sprite.id s' = Sprite.id s.
Proof.
  intros Hwf Hs.
  pose proof (heap_grows uuid4_fresh ev st Hwf) as Hlen.
  pose proof (wf_run uuid4_fresh [ev] st Hwf) as Hwf'. simpl in Hwf'.
  destruct (heap (exec (handle ev) st) !! a) as [s'|] eqn:Hs'.
  - exists s'. split; [done|].
    by rewrite (wf_ids _ Hwf' a s' Hs'), (wf_ids _ Hwf a s Hs).
  - apply lookup_ge_None in Hs'. apply lookup_lt_Some in Hs. lia.
Qed.

End identity.

(** C8. Whatever the events so far, and as long as [uuid4] never returns
    the same identifier twice: the sprites of the scene have pairwise
    distinct identifiers; so have all sprites ever made, removed ones
    included, so none is used again; and no event changes the identifier of
    a sprite that exists. *)
Theorem identities_unique_and_stable `{Platform} (evs : list Event) :
  Inj (=) (=) uuid4 →
  let st := run evs FlamingEngineIDE_init in
  NoDup (Sprite.id <$> live st) ∧
  (∀ a b sa sb, heap st !! a = Some sa → heap st !! b = Some sb →
     Sprite.id sa = Sprite.id sb → a = b) ∧
  (∀ ev a s, heap st !! a = Some s →
     ∃ s', heap (exec (handle ev) st) !! a = Some s' ∧ Sprite.id s' = Sprite.id s).
Proof.
  intros Hfresh st. pose proof (wf_reachable Hfresh evs) as Hwf. fold st in Hwf.
  split; [|split].
  - rewrite live_ids by done. apply Hwf.
  - intros a b sa sb. by apply wf_heap_ids.
  - intros ev a s. by apply handle_keeps_id.
Qed.

Lemma identities_unique_and_stable_witness :
  NoDup (Sprite.id <$> live
           (@run demo [CallDuplicate (Some 0); CallRemove (Some 0); CallDuplicate (Some 1)]
              (@FlamingEngineIDE_init demo))).
Proof.
  exact (proj1 (@identities_unique_and_stable demo
                  [CallDuplicate (Some 0); CallRemove (Some 0); CallDuplicate (Some 1)]
                  demo_fresh)).
Defined.

(** ** The selection *)

Lemma remove_selected_clears `{Platform} st :
  wf st → selected_sprite (exec (remove_sprite (selected_sprite st)) st) = None.
Proof.
  intros Hwf. destruct (selected_sprite st) as [a|] eqn:Hsel; [|exact Hsel].
  destruct (wf_selected st Hwf a Hsel) as (k & Hin).
  destruct (wf_dict st Hwf k a Hin) as (s & Hs & <-).
  destruct (remove_sprite_present st a s Hs) as [tv ->]; [|done].
  apply dict_in_spec, list_elem_of_fmap. by exists (Sprite.id s, a).
Qed.

(** C5. Whatever the events so far (creating, duplicating, removing,
    selecting and all others), and as long as [uuid4] never returns the same
    identifier twice: the selection is empty or a sprite of the scene; and
    removing the selected sprite leaves nothing selected. *)
Theorem selection_never_dangles `{Platform} (evs : list Event) :
  Inj (=) (=) uuid4 →
  let st := run evs FlamingEngineIDE_init in
  (∀ a, selected_sprite st = Some a → in_scene a st ∧ is_Some (heap st !! a)) ∧
  selected_sprite (exec (remove_sprite (selected_sprite st)) st) = None.
Proof.
  intros Hfresh st. pose proof (wf_reachable Hfresh evs) as Hwf. fold st in Hwf.
  split; [|by apply remove_selected_clears].
  intros a (k & Hin)%(wf_selected st Hwf). split.
  - exists k. apply dict_get_unique; [apply Hwf | done].
  - destruct (wf_dict st Hwf k a Hin) as (s & Hs & _). by exists s.
Qed.

Lemma selection_never_dangles_witness :
  let st := @run demo [CallDuplicate (Some 0); Timer; TreeButtonPress1 "uuid-1"%string;
                       TreeviewSelect] (@FlamingEngineIDE_init demo) in
  selected_sprite st = Some 1 ∧
  selected_sprite (exec (@remove_sprite demo (selected_sprite st)) st) = None.
Proof.
  intros st. split; [vm_compute; reflexivity|].
  exact (proj2 (@selection_never_dangles demo
                  [CallDuplicate (Some 0); Timer; TreeButtonPress1 "uuid-1"%string;
                   TreeviewSelect]
                  demo_fresh)).
Defined.

(** ** Duplicating a sprite *)

(** C2, as the code has it. In every well-formed state, so in every state
    the main loop reaches and whatever the attributes of the sprite, and as
    long as [uuid4] never returns the same identifier twice, duplicating a
    sprite makes a new object, registered under its own identifier, which
    differs from the source's; its name is the source's with "_copy"
    appended; its position is the source's plus (20, 20); color, size,
    draggable flag and image reference are the source's; its script is
    empty, whatever the source's script; the source is untouched. *)
Theorem duplicate_copies_all_but_script `{Platform}
    (st : Engine) (a : addr) (s : Sprite.t) :
  Inj (=) (=) uuid4 →
  wf st →
  heap st !! a = Some s →
  let st' := exec (duplicate_sprite (Some a)) st in
  ∃ c, heap st' !! length (heap st) = Some c ∧
       dict_get (Sprite.id c) (sprites st') = Some (length (heap st)) ∧
       heap st' !! a = Some s ∧
       Sprite.id c ≠ Sprite.id s ∧
       Sprite.name c = (Sprite.name s ++ "_copy")%string ∧
       Sprite.x c = (Sprite.x s + 20)%Z ∧
       Sprite.y c = (Sprite.y s + 20)%Z ∧
       Sprite.color c = Sprite.color s ∧
       Sprite.width c = Sprite.width s ∧
       Sprite.height c = Sprite.height s ∧
       Sprite.draggable c = Sprite.draggable s ∧
       Sprite.texture c = Sprite.texture s ∧
       Sprite.script c = None.
Proof.
  intros Hfresh Hwf Hs st'.
  destruct (duplicate_sprite_exec st a s Hs) as [tv Htv]. fold st' in Htv.
  set (c := Sprite.duplicate (uuid4 (uuid_calls st)) s).
  destruct (duplicate_fields (uuid4 (uuid_calls st)) s)
    as (Hid & Hname & Hx & Hy & Htex & Hcol & Hw & Hh & Hdr & _ & _ & Hscr).
  fold c in Hid, Hname, Hx, Hy, Htex, Hcol, Hw, Hh, Hdr, Hscr.
  exists c. rewrite Htv. unfold registered. fold c. simpl.
  split; [by rewrite lookup_app_r, Nat.sub_diag|].
  split; [apply dict_get_set_eq|].
  split; [by apply lookup_app_l_Some|].
  split; [|done].
  rewrite Hid, (wf_ids st Hwf a s Hs), (wf_calls st Hwf).
  intros Heq%Hfresh. apply lookup_lt_Some in Hs. lia.
Qed.

(** The witness: the test object, made 7 by 9, red and not draggable, and
    carrying a script, is duplicated. *)
Lemma duplicate_copies_all_but_script_witness :
  ∃ c, heap (exec (@duplicate_sprite demo (Some 0)) repainted) !! 1 = Some c ∧
       Sprite.name c = "TestObject_copy"%string ∧
       Sprite.color c = "red"%string ∧
       Sprite.width c = 7%Z ∧ Sprite.height c = 9%Z ∧
       Sprite.draggable c = false ∧
       Sprite.script c = None.
Proof.
  assert (@wf demo repainted) as Hwf.
  { unfold repainted. apply wf_mutate; [apply (wf_reachable demo_fresh)|]. by intros s _. }
  assert (∃ s, heap repainted !! 0 = Some s ∧
               Sprite.name s = "TestObject"%string ∧ Sprite.color s = "red"%string ∧
               Sprite.width s = 7%Z ∧ Sprite.height s = 9%Z ∧
               Sprite.draggable s = false) as (s & Hs & Hname & Hcol & Hw & Hh & Hdr)
    by (object_at (heap repainted !! 0); by_vm).
  assert (length (heap repainted) = 1) as Hlen by (vm_compute; reflexivity).
  destruct (@duplicate_copies_all_but_script demo repainted 0 s demo_fresh Hwf Hs)
    as (c & Hc & _ & _ & _ & Hn & _ & _ & Hcol' & Hw' & Hh' & Hdr' & _ & Hscr).
  exists c. rewrite Hlen in Hc. split; [exact Hc|].
  rewrite Hn, Hcol', Hw', Hh', Hdr', Hname, Hcol, Hw, Hh, Hdr.
  split; [reflexivity|]. split; [reflexivity|]. split; [reflexivity|].
  split; [reflexivity|]. split; [reflexivity | exact Hscr].
Defined.

(** C2, as the claim has it, fails: the test object carries the script
    "print(1)"; its copy carries none. *)
Lemma duplicate_drops_script :
  Sprite.script <$> heap scripted !! 0 = Some (Some "print(1)"%string) ∧
  Sprite.script <$> heap (exec (@duplicate_sprite demo (Some 0)) scripted) !! 1
    = Some None ∧
  Sprite.script <$> heap (exec (@duplicate_sprite demo (Some 0)) scripted) !! 1
    ≠ Sprite.script <$> heap scripted !! 0.
Proof. vm_compute. repeat split. discriminate. Qed.

(** ** The selection event *)

Lemma on_sprite_select_empty st :
  selection (scene_tree st) = [] → on_sprite_select st = (Raise IndexError, st).
Proof. intros Hsel. unfold on_sprite_select, bind, get. by rewrite Hsel. Qed.

(** C7 fails on the code. The test object is picked in the tree and removed
    from the menu; the tree is rebuilt, so its selection is empty; the
    selection event that follows makes [on_sprite_select] raise
    [IndexError]. *)
Theorem selection_event_on_empty_selection_raises :
  let st := @run demo [TreeButtonPress1 "uuid-0"%string; TreeviewSelect; MenuRemove]
              demo_init in
  selection (scene_tree st) = [] ∧
  @handle demo TreeviewSelect st = (Raise IndexError, st).
Proof.
  intros st. assert (selection (scene_tree st) = []) as Hsel by (vm_compute; reflexivity).
  split; [done|]. by apply on_sprite_select_empty.
Qed.

(** ** The hit test of a click *)

Lemma Forall2_impl_elem {A B} (R R' : A → B → Prop) l k :
  Forall2 R l k →
  (∀ x y, x ∈ l → y ∈ k → R x y → R' x y) →
  Forall2 R' l k.
Proof.
  induction 1 as [|x y l k Hxy _ IH]; intros Himpl; constructor.
  - apply Himpl; [left | left | done].
  - apply IH. intros x' y' Hx' Hy'. apply Himpl; by right.
Qed.

Lemma gettags_elem cv p :
  NoDup (items cv).*1 → p ∈ items cv → gettags cv p.1 = item_tags p.2.
Proof.
  unfold gettags. induction (items cv) as [|q l IH]; intros Hnd Hp.
  - by apply elem_of_nil in Hp.
  - rewrite fmap_cons in Hnd. apply NoDup_cons in Hnd as [Hq Hnd].
    simpl. destruct (Nat.eqb_spec q.1 p.1) as [Heq|Hne].
    + apply elem_of_cons in Hp as [->|Hp]; [done|].
      exfalso. apply Hq. rewrite Heq. apply list_elem_of_fmap. by exists p.
    + apply elem_of_cons in Hp as [->|Hp]; [done|]. by apply IH.
Qed.

Lemma find_first {A} (f : A → bool) l a :
  List.find f l = Some a →
  ∃ before after, l = before ++ a :: after ∧ f a = true ∧
                  Forall (λ b, f b = false) before.
Proof.
  induction l as [|b l IH]; simpl; [done|].
  destruct (f b) eqn:Hb.
  - intros [= ->]. by exists [], l.
  - intros (before & after & -> & Ha & Hbefore)%IH.
    exists (b :: before), after. split; [done|]. split; [done|]. by constructor.
Qed.

Lemma find_nowhere {A} (f : A → bool) l :
  List.find f l = None → Forall (λ b, f b = false) l.
Proof.
  induction l as [|b l IH]; simpl; [constructor|].
  destruct (f b) eqn:Hb; [done|]. intros Hl. constructor; [done | by apply IH].
Qed.

(** The loop of the click handlers over the items found, when every item
    is the picture of a sprite of the dict: the first sprite whose picture
    passes the area test. *)
Lemma first_sprite_first (ov : nat * Item → bool) (up : addr → bool) cv d shown vals :
  Forall2 (λ p a, ov p = up a ∧ gettags cv p.1 = item_tags p.2 ∧
                  ∃ k, item_tags p.2 = ["sprite"%string; k] ∧ dict_get k d = Some a)
    shown vals →
  first_sprite cv d (map fst (List.filter ov shown)) = Return (List.find up vals).
Proof.
  induction 1 as [|p a shown vals (Hov & Htags & k & Hk & Hget) _ IH]; [done|].
  simpl. rewrite <- Hov. destruct (ov p); [|done].
  simpl. rewrite Htags, Hk. rewrite bool_decide_eq_true_2 by left.
  simpl. by rewrite Hget.
Qed.

Section hit_test.
Context `{Platform}.

(** After [render], a click at (ex, ey) finds the first sprite in draw
    order whose picture meets the probe. *)
Lemma clicked_sprite_rendered st ex ey :
  wf st →
  let st' := exec render st in
  clicked_sprite ex ey st' = (Return (bottommost st' ex ey), st').
Proof.
  intros Hwf st'. unfold clicked_sprite, bottommost. f_equal.
  destruct (render_spec st Hwf) as (Hd & _ & _ & _ & Hrel & Hnd & _ & _ & Hheap).
  fold st' in Hd, Hrel, Hnd, Hheap. unfold find_overlapping. rewrite Hd.
  apply first_sprite_first.
  eapply Forall2_impl_elem; [exact Hrel|].
  intros p a Hp Ha (s & Hs & Hdrawn).
  destruct (wf_value st a Hwf Ha) as (s0 & Hs0 & Hin).
  assert (s0 = s) as -> by congruence.
  split; [|split].
  - unfold under_pointer.
    destruct (Hheap a s Hs) as (s' & -> & [->|(c & -> & _)]);
      by rewrite Hdrawn, ?drawn_set_canvas_id.
  - by apply gettags_elem.
  - exists (Sprite.id s). split.
    + rewrite Hdrawn. unfold drawn. by destruct (Sprite.texture s).
    + apply dict_get_unique; [apply Hwf | done].
Qed.

End hit_test.

(** C1, as the code has it. In any state the main loop reaches, once
    rendered, and as long as [uuid4] never returns the same identifier
    twice: the hit test of a click returns the first sprite in draw order
    whose picture Tk finds under the pointer, so the bottommost of several,
    the only one when there is one, and none when there is none. *)
Theorem click_finds_first_drawn `{Platform} (evs : list Event) (ex ey : Z) :
  Inj (=) (=) uuid4 →
  let st := exec render (run evs FlamingEngineIDE_init) in
  clicked_sprite ex ey st = (Return (bottommost st ex ey), st) ∧
  match bottommost st ex ey with
  | Some a =>
      ∃ before after,
        dict_values (sprites st) = before ++ a :: after ∧
        under_pointer st ex ey a = true ∧
        Forall (λ b, under_pointer st ex ey b = false) before
  | None => Forall (λ b, under_pointer st ex ey b = false) (dict_values (sprites st))
  end.
Proof.
  intros Hfresh st. split.
  - apply clicked_sprite_rendered, (wf_reachable Hfresh).
  - unfold bottommost. destruct (List.find _ _) as [a|] eqn:Hfind.
    + by apply find_first.
    + by apply find_nowhere.
Qed.

Lemma click_finds_first_drawn_witness :
  let st := exec render (@run demo [CallDuplicate (Some 0)] (@FlamingEngineIDE_init demo)) in
  @clicked_sprite demo 130 130 st = (Return (@bottommost demo st 130 130), st) ∧
  match @bottommost demo st 130 130 with
  | Some a =>
      ∃ before after,
        dict_values (sprites st) = before ++ a :: after ∧
        @under_pointer demo st 130 130 a = true ∧
        Forall (λ b, @under_pointer demo st 130 130 b = false) before
  | None => Forall (λ b, @under_pointer demo st 130 130 b = false) (dict_values (sprites st))
  end.
Proof.
  exact (@click_finds_first_drawn demo [CallDuplicate (Some 0)] 130 130 demo_fresh).
Defined.

(** C1, as the claim has it, fails: A is drawn first and B over it; the
    point (130,130) is in both boxes; the last sprite in draw order that
    contains it is B, and the click finds A. *)
Lemma click_finds_bottom_sprite :
  (Sprite.contains_point 130 130 <$> heap two_sprites !! 0) = Some true ∧
  (Sprite.contains_point 130 130 <$> heap two_sprites !! 1) = Some true ∧
  dict_values (sprites two_sprites) = [0; 1] ∧
  hit_test_spec two_sprites 130 130 = Some 1 ∧
  (@clicked_sprite demo 130 130 two_sprites).1 = Return (Some 0) ∧
  (@clicked_sprite demo 130 130 two_sprites).1
    ≠ Return (hit_test_spec two_sprites 130 130).
Proof. vm_compute. repeat split. discriminate. Qed.

(** * More of the controller *)

(** ** The tree view lists the scene *)

(** A view of the sprites through the dict is the same on two heaps that
    agree, object by object, on what the view shows. *)
Lemma view_heap {B} (g : Sprite.t → B) (h h' : list Sprite.t) (vals : list nat) :
  (∀ b s, h !! b = Some s → ∃ s', h' !! b = Some s' ∧ g s' = g s) →
  (∀ b, b ∈ vals → is_Some (h !! b)) →
  g <$> omap (λ b, h' !! b) vals = g <$> omap (λ b, h !! b) vals.
Proof.
  intros Hh. induction vals as [|b vals IH]; intros Hvals; [done|].
  destruct (Hvals b) as [s Hs]; [left|].
  destruct (Hh b s Hs) as (s' & Hs' & Hg).
  cbn [omap list_omap]. rewrite Hs, Hs'. rewrite !fmap_cons, Hg, IH; [done|].
  intros b' Hb'. apply Hvals. by right.
Qed.

(** The sprites shown are a prefix of the sprites, and all of them when
    every name is a list. *)
Lemma shown_elem `{Platform} l s : s ∈ shown l → s ∈ l.
Proof.
  induction l as [|s' l IH]; simpl; [done|].
  destruct (listable s'); [|by intros ?%elem_of_nil].
  intros [->|Hin]%elem_of_cons; [left | right; by apply IH].
Qed.

Lemma shown_all `{Platform} l : forallb listable l = true → shown l = l.
Proof.
  induction l as [|s l IH]; simpl; [done|].
  destruct (listable s); [|done]. simpl. intros Hl. by rewrite IH.
Qed.

Lemma shown_rows `{Platform} l l' :
  row_of <$> l' = row_of <$> l → row_of <$> shown l' = row_of <$> shown l.
Proof.
  revert l'. induction l as [|s l IH]; intros [|s' l']; try done.
  rewrite !fmap_cons. intros [= Hid Hname Hrest]. simpl. unfold listable.
  rewrite Hname. destruct (tcl_list (Sprite.name s)); [|done].
  rewrite !fmap_cons. unfold row_of at 1 3. by rewrite Hid, Hname, (IH l').
Qed.

Lemma set_scene_tree_same st :
  set_scene_tree {| rows := rows (scene_tree st); selection := selection (scene_tree st) |} st
  = st.
Proof. by destruct st as [? ? ? ? ? ? ? []]. Qed.

(** The loop of [update_scene_tree] over valid references with identifiers
    that are no rows yet: it inserts the rows of the sprites shown, and
    raises at the first sprite whose name is no list. *)
Lemma insert_rows_shown `{Platform} vals : ∀ st,
  (∀ b, b ∈ vals → is_Some (heap st !! b)) →
  NoDup ((rows (scene_tree st)).*1 ++ (Sprite.id <$> omap (λ b, heap st !! b) vals)) →
  insert_rows vals st =
  (rebuild_outcome (omap (λ b, heap st !! b) vals),
   set_scene_tree
     {| rows := rows (scene_tree st) ++ (row_of <$> shown (omap (λ b, heap st !! b) vals));
        selection := selection (scene_tree st) |} st).
Proof.
  induction vals as [|b vals IH]; intros st Hvals Hnd.
  - simpl. rewrite app_nil_r. unfold ret, rebuild_outcome. simpl.
    by rewrite set_scene_tree_same.
  - destruct (Hvals b) as [s Hs]; [left|].
    assert (omap (λ b, heap st !! b) (b :: vals) = s :: omap (λ b, heap st !! b) vals)
      as Hom by (simpl; by rewrite Hs).
    rewrite Hom in Hnd |- *. rewrite fmap_cons in Hnd.
    cbn [insert_rows]. unfold bind, get, obj. rewrite Hs.
    unfold tree_insert. rewrite bool_decide_eq_false_2.
    + unfold rebuild_outcome. cbn [forallb shown]. unfold listable at 1 3.
      destruct (tcl_list (Sprite.name s)) eqn:Hname.
      * unfold modify. rewrite IH.
        -- simpl. rewrite <- app_assoc. done.
        -- intros b' Hb'. simpl. apply Hvals. by right.
        -- simpl. rewrite fmap_app, <- app_assoc. done.
      * simpl. unfold raise. rewrite app_nil_r. by rewrite set_scene_tree_same.
    + apply NoDup_app in Hnd as (_ & Hdisj & _). intros Hin.
      apply (Hdisj _ Hin). left.
Qed.

Section listing.
Context `{Platform}.

Lemma wf_values_valid st b : wf st → b ∈ dict_values (sprites st) → is_Some (heap st !! b).
Proof. intros Hwf (s & Hs & _)%(wf_value st b Hwf). by exists s. Qed.

(** [update_scene_tree] on a well-formed state leaves the tree listing the
    sprites shown, with nothing selected; it returns when every name of the
    scene is a list, and raises [TclError] otherwise. *)
Lemma update_scene_tree_rebuilds st :
  wf st → update_scene_tree st = (rebuild_outcome (live st), rebuilt st).
Proof.
  intros Hwf. unfold update_scene_tree, bind, modify, get. simpl.
  rewrite insert_rows_shown; simpl.
  - done.
  - intros b Hb. by apply wf_values_valid.
  - fold (live st). rewrite live_ids by done. apply Hwf.
Qed.

End listing.

(** ** Handlers, returning or raising *)

Lemma ends_bind {A B} P (m : M A) R (k : A → M B) Q E :
  ends P m R E → (∀ a, ends (R a) (k a) Q E) → ends P (bind m k) Q E.
Proof.
  intros Hm Hk st HP. specialize (Hm st HP). unfold bind.
  destruct (m st) as [[a|e] st1]; [|done]. by apply Hk.
Qed.

Lemma ends_get {A} P (k : Engine → M A) Q E :
  (∀ st0, P st0 → ends (λ st, st = st0) (k st0) Q E) → ends P (bind get k) Q E.
Proof. intros Hk st HP. by apply (Hk st HP). Qed.

Lemma ends_ret {A} (P : Engine → Prop) (a : A) (Q : A → Engine → Prop) E :
  (∀ st, P st → Q a st) → ends P (ret a) Q E.
Proof. intros HQ st HP. by apply HQ. Qed.

Lemma ends_raise {A} (P : Engine → Prop) e (Q : A → Engine → Prop) (E : Engine → Prop) :
  (∀ st, P st → E st) → ends P (raise e) Q E.
Proof. intros HE st HP. by apply HE. Qed.

Lemma ends_modify (P : Engine → Prop) f (Q : unit → Engine → Prop) E :
  (∀ st, P st → Q tt (f st)) → ends P (modify f) Q E.
Proof. intros HQ st HP. by apply HQ. Qed.

Lemma ends_mutate (P : Engine → Prop) a f (Q : unit → Engine → Prop) E :
  (∀ st, P st → Q tt (set_heap (alter f a (heap st)) st)) → ends P (mutate a f) Q E.
Proof. apply ends_modify. Qed.

Lemma ends_pre {A} (P P' : Engine → Prop) (m : M A) Q E :
  (∀ st, P' st → P st) → ends P m Q E → ends P' m Q E.
Proof. intros HP Hm st HP'. apply Hm, HP, HP'. Qed.

(** ** Loose and tidy states *)

Lemma as_made_init uuid name x y : as_made (Sprite.init uuid name x y).
Proof. repeat split; done. Qed.

Lemma as_made_duplicate uuid s : as_made s → as_made (Sprite.duplicate uuid s).
Proof.
  intros (Hw & Hh & Hd & Himg).
  destruct (duplicate_fields uuid s)
    as (_ & _ & _ & _ & Htex & _ & Hw' & Hh' & Hd' & _).
  unfold as_made. rewrite Hw', Hh', Hd', Htex. done.
Qed.

(** A mutation that keeps identity and shape; one that keeps the row too. *)
Definition same_shape (f : Sprite.t → Sprite.t) : Prop :=
  same_identity f ∧ ∀ s, as_made s → as_made (f s).
Definition same_row (f : Sprite.t → Sprite.t) : Prop :=
  same_shape f ∧ ∀ s, Sprite.name (f s) = Sprite.name s.

Ltac same_fields :=
  repeat match goal with
         | |- same_row _ => split
         | |- same_shape _ => split
         | |- same_identity _ => intros ?
         | |- ∀ s, as_made s → _ => intros ? ?
         | |- ∀ s, Sprite.name _ = _ => intros ?
         end;
  unfold as_made, Sprite.start_drag, Sprite.update_drag, Sprite.end_drag, setattr in *;
  repeat match goal with
         | |- context [if ?b then _ else _] => destruct b eqn:?
         | p : Assignment |- _ => destruct p
         end;
  simpl; try done; try (intuition congruence).

Lemma same_row_start_drag px py : same_row (Sprite.start_drag px py).
Proof. same_fields. Qed.

Lemma same_row_update_drag px py : same_row (Sprite.update_drag px py).
Proof. same_fields. Qed.

Lemma same_row_end_drag : same_row Sprite.end_drag.
Proof. same_fields. Qed.

Lemma same_row_set_x v : same_row (Sprite.set_x v).
Proof. same_fields. Qed.

Lemma same_row_set_y v : same_row (Sprite.set_y v).
Proof. same_fields. Qed.

Lemma same_row_set_color v : same_row (Sprite.set_color v).
Proof. same_fields. Qed.

Lemma same_row_set_script v : same_row (Sprite.set_script v).
Proof. same_fields. Qed.

Lemma same_shape_setattr p : same_shape (setattr p).
Proof. same_fields. Qed.

Section tidy_facts.
Context `{Platform}.
Hypothesis uuid4_fresh : Inj (=) (=) uuid4.

Lemma live_set_scene_tree tv st : live (set_scene_tree tv st) = live st.
Proof. done. Qed.

(** The rows of the tree are sprites of the scene. *)
Lemma rows_in_keys st iid :
  tidy st → iid ∈ (rows (scene_tree st)).*1 → iid ∈ (sprites st).*1.
Proof.
  intros [(Hwf & _) [Hrows _]]. rewrite Hrows, <- live_ids by done.
  rewrite <- list_fmap_compose.
  intros (s & -> & Hs%shown_elem)%list_elem_of_fmap. apply list_elem_of_fmap. by exists s.
Qed.

Lemma loose_tree_apart st st' : tree_apart st st' → loose st → loose st'.
Proof.
  intros Ht (Hwf & Hpic & Hmade). split; [by eapply wf_tree_apart|].
  by destruct Ht as [tv ->].
Qed.

Lemma loose_mutate f a st :
  same_shape f → loose st → loose (set_heap (alter f a (heap st)) st).
Proof.
  intros [Hid Hshape] (Hwf & Hpic & Hmade). split; [|split].
  - apply wf_mutate; [done|]. intros s _. apply Hid.
  - done.
  - simpl. apply Forall_alter; [done|]. intros s _. apply Hshape.
Qed.

Lemma loose_new_sprite make st :
  (∀ u, Sprite.id (make u) = u ∧ Sprite.canvas_id (make u) = None) →
  (∀ u, as_made (make u)) →
  loose st →
  loose (set_uuid_calls (S (uuid_calls st))
           (set_heap (heap st ++ [make (uuid4 (uuid_calls st))]) st)).
Proof.
  intros Hmake Hshape (Hwf & Hpic & Hmade). split; [by apply wf_new_sprite|].
  split; [done|]. simpl. apply Forall_app. split; [done|]. by constructor.
Qed.

Lemma loose_register a s st :
  loose st → heap st !! a = Some s →
  loose (set_sprites (dict_set (Sprite.id s) a (sprites st)) st).
Proof. intros (Hwf & Hpic & Hmade) Hs. split; [by apply wf_register | done]. Qed.

Lemma loose_remove k st :
  loose st → loose (set_selected_sprite None (set_sprites (dict_del k (sprites st)) st)).
Proof. intros (Hwf & Hpic & Hmade). split; [by apply wf_remove | done]. Qed.

Lemma loose_select o st :
  loose st → (∀ a, o = Some a → ∃ k, (k, a) ∈ sprites st) →
  loose (set_selected_sprite o st).
Proof. intros (Hwf & Hpic & Hmade) Ho. split; [by apply wf_select | done]. Qed.

(** The objects of the heap after [render]: as before, the canvas handle
    apart. *)
Lemma render_back st b s' :
  wf st → heap (exec render st) !! b = Some s' →
  ∃ s, heap st !! b = Some s ∧ (s' = s ∨ ∃ c, s' = Sprite.set_canvas_id (Some c) s).
Proof.
  intros Hwf Hs'.
  destruct (render_spec st Hwf) as (_ & _ & _ & Hlen & _ & _ & _ & _ & Hheap).
  destruct (heap st !! b) as [s|] eqn:Hs.
  - exists s. split; [done|]. destruct (Hheap b s Hs) as (s'' & Hs'' & Hrel).
    assert (s' = s'') as -> by congruence.
    destruct Hrel as [->|(c & -> & _)]; eauto.
  - apply lookup_lt_Some in Hs'. apply lookup_ge_None in Hs. lia.
Qed.

Lemma loose_render st : loose st → loose (exec render st).
Proof.
  intros (Hwf & Hpic & Hmade). split; [by apply wf_render|]. split.
  - destruct (render_spec st Hwf) as (_ & _ & _ & _ & Hrel & _).
    intros p Hp. apply list_elem_of_lookup in Hp as [i Hp].
    destruct (Forall2_lookup_l _ _ _ _ _ Hrel Hp) as (a & _ & s & _ & ->).
    exists (Sprite.id s). unfold drawn. by destruct (Sprite.texture s).
  - apply Forall_lookup. intros b s' (s & Hs & Hrel)%render_back; [|done].
    rewrite Forall_lookup in Hmade. specialize (Hmade b s Hs).
    by destruct Hrel as [->|(c & ->)].
Qed.

Lemma listed_view st st' :
  wf st →
  sprites st' = sprites st → scene_tree st' = scene_tree st →
  (∀ b s, heap st !! b = Some s → ∃ s', heap st' !! b = Some s' ∧ row_of s' = row_of s) →
  listed st → listed st'.
Proof.
  intros Hwf Hd Ht Hh [Hrows Hsel]. unfold listed, live. rewrite Ht, Hd. split; [|done].
  rewrite Hrows. unfold live. symmetry. apply shown_rows, view_heap; [done|].
  intros b Hb. by apply wf_values_valid.
Qed.

Lemma tidy_mutate f a st :
  same_row f → tidy st → tidy (set_heap (alter f a (heap st)) st).
Proof.
  intros [Hshape Hname] [Hloose Hlisted]. split; [by apply loose_mutate|].
  eapply listed_view; [apply Hloose | done | done | | done].
  intros b s Hs. simpl. destruct (decide (a = b)) as [->|Hab].
  - exists (f s). rewrite list_lookup_alter_eq, Hs. split; [done|].
    unfold row_of. by rewrite Hname, (proj1 (proj1 Hshape s)).
  - exists s. by rewrite list_lookup_alter_ne.
Qed.

Lemma tidy_select o st :
  tidy st → (∀ a, o = Some a → ∃ k, (k, a) ∈ sprites st) → tidy (set_selected_sprite o st).
Proof. intros [Hloose Hlisted] Ho. split; [by apply loose_select | done]. Qed.

Lemma tidy_set_drag_source v st : tidy st → tidy (set_drag_source v st).
Proof.
  intros [(Hwf & Hpic & Hmade) Hlisted].
  split; [|done]. split; [by apply wf_set_drag_source | done].
Qed.

Lemma tidy_set_is_running v st : tidy st → tidy (set_is_running v st).
Proof.
  intros [(Hwf & Hpic & Hmade) Hlisted].
  split; [|done]. split; [by apply wf_set_is_running | done].
Qed.

Lemma tidy_render st : tidy st → tidy (exec render st).
Proof.
  intros [Hloose Hlisted]. split; [by apply loose_render|].
  destruct Hloose as (Hwf & _).
  destruct (render_spec st Hwf) as (Hd & _ & _ & _ & _ & _ & _ & _ & Hheap).
  eapply listed_view; [done | done | | | done].
  - rewrite render_exec. done.
  - intros b s Hs. destruct (Hheap b s Hs) as (s' & Hs' & [->|(c & -> & _)]); eauto.
Qed.

End tidy_facts.

(** ** Every handler, on a tidy state *)

Section handlers_end.
Context `{Platform}.
Hypothesis uuid4_fresh : Inj (=) (=) uuid4.

Lemma tidy_loose st : tidy st → loose st.
Proof. by intros [? _]. Qed.

Lemma tidy_rebuilt st : loose st → tidy (rebuilt st).
Proof.
  intros Hloose. split.
  - eapply loose_tree_apart; [|done]. by eexists.
  - split; [done|]. intros iid Hin. by apply elem_of_nil in Hin.
Qed.

(** Returning or raising, [update_scene_tree] leaves a tidy state. *)
Lemma ends_update_scene_tree : ends loose update_scene_tree (λ _, tidy) tidy.
Proof.
  intros st Hloose. rewrite update_scene_tree_rebuilds by apply Hloose.
  pose proof (tidy_rebuilt st Hloose). unfold rebuild_outcome.
  by destruct (forallb _ _).
Qed.

Lemma ends_selection_set iid : ends tidy (selection_set iid) (λ _, tidy) tidy.
Proof.
  intros st Ht. unfold selection_set, bind, get, tree_selection_set.
  case_bool_decide as Hin; [|done]. simpl.
  destruct Ht as [Hloose [Hrows Hsel]]. split.
  - eapply loose_tree_apart; [|done]. by eexists.
  - split; [done|]. simpl. by intros iid' ->%list_elem_of_singleton.
Qed.

Lemma ends_new_sprite make E :
  (∀ u, Sprite.id (make u) = u ∧ Sprite.canvas_id (make u) = None) →
  (∀ u, as_made (make u)) →
  ends loose (new_sprite make) (λ _, loose) E.
Proof. intros Hmake Hshape st Hloose. by apply loose_new_sprite. Qed.

Lemma ends_register a E : ends loose (register a) (λ _, loose) E.
Proof.
  apply ends_get. intros st Hloose. unfold obj.
  destruct (heap st !! a) as [s|] eqn:Hs.
  - apply ends_modify. intros ? ->. by apply loose_register.
  - apply ends_ret. by intros ? ->.
Qed.

Lemma ends_render E : ends tidy render (λ _, tidy) E.
Proof. intros st Htidy. by apply tidy_render. Qed.

Lemma ends_create_sprite name x y : ends tidy (create_sprite name x y) (λ _, tidy) tidy.
Proof.
  eapply ends_bind.
  { eapply ends_pre; [apply tidy_loose|].
    apply (ends_new_sprite (λ uuid, Sprite.init uuid name x y)); [done|].
    intros u. apply as_made_init. }
  intros a. eapply ends_bind; [apply ends_register|].
  intros ?. eapply ends_bind; [apply ends_update_scene_tree|].
  intros ?. by apply ends_ret.
Qed.

Lemma obj_as_made st r a s : loose st → obj st r = Some (a, s) → as_made s.
Proof.
  intros (_ & _ & Hmade) [_ Hs]%obj_Some. rewrite Forall_lookup in Hmade. by eapply Hmade.
Qed.

Lemma ends_duplicate_sprite sprite : ends tidy (duplicate_sprite sprite) (λ _, tidy) tidy.
Proof.
  apply ends_get. intros st Htidy.
  destruct (obj st sprite) as [[a s]|] eqn:Ho; [|apply ends_ret; by intros ? ->].
  eapply ends_bind.
  { eapply ends_pre; [intros ? ->; by apply tidy_loose|].
    apply (ends_new_sprite (λ uuid, Sprite.duplicate uuid s)).
    - intros u. apply duplicate_makes.
    - intros u. apply as_made_duplicate. eapply obj_as_made; [by apply tidy_loose | done]. }
  intros new. eapply ends_bind; [apply ends_register|].
  intros ?. apply ends_update_scene_tree.
Qed.

Lemma ends_remove_sprite sprite : ends tidy (remove_sprite sprite) (λ _, tidy) tidy.
Proof.
  apply ends_get. intros st Htidy.
  destruct (obj st sprite) as [[a s]|]; [|apply ends_ret; by intros ? ->].
  destruct (dict_in _ _); [|apply ends_ret; by intros ? ->].
  eapply ends_bind.
  { apply (ends_modify _ _ (λ _ st', st' = set_sprites (dict_del (Sprite.id s) (sprites st)) st)).
    by intros ? ->. }
  intros ?. eapply ends_bind.
  { apply (ends_modify _ _ (λ _, loose)). intros ? ->.
    by apply (loose_remove (Sprite.id s)), tidy_loose. }
  intros ?. eapply ends_bind; [apply ends_update_scene_tree|].
  intros ?. by apply ends_ret.
Qed.

Lemma ends_update_sprite_property p :
  ends tidy (update_sprite_property p) (λ _, tidy) tidy.
Proof.
  apply ends_get. intros st Htidy.
  destruct (obj st (selected_sprite st)) as [[a s]|]; [|apply ends_ret; by intros ? ->].
  eapply ends_bind; [|intros ?; apply ends_update_scene_tree].
  apply ends_mutate. intros ? ->.
  apply loose_mutate; [apply same_shape_setattr | by apply tidy_loose].
Qed.

Lemma alter_const (h : list Sprite.t) a s f :
  h !! a = Some s → alter (λ _, f s) a h = alter f a h.
Proof. intros Hs. apply list_alter_ext; [|done]. intros s' Hs'. congruence. Qed.

Lemma ends_load_texture path opened E :
  ends tidy (load_texture path opened) (λ _, tidy) E.
Proof.
  apply ends_get. intros st Htidy.
  destruct (obj st (selected_sprite st)) as [[a s]|] eqn:Ho; [|apply ends_ret; by intros ? ->].
  pose proof (obj_as_made _ _ _ _ (tidy_loose _ Htidy) Ho) as (Hw & Hh & Hd & Himg).
  apply obj_Some in Ho as [_ Hs].
  destruct (bool_decide _); [|apply ends_ret; by intros ? ->].
  unfold Sprite.load_texture. destruct opened as [px|].
  - eapply ends_bind; [|intros ?; apply ends_ret; intros st' Hst'; exact Hst'].
    apply ends_mutate. intros ? ->.
    rewrite (alter_const _ _ s
               (Sprite.set_texture
                  (Some {| image_id := px; image_width := Sprite.width s;
                           image_height := Sprite.height s |}))) by done.
    apply tidy_mutate; [|done].
    split; [split|]; [done| |done].
    intros s' (Hw' & Hh' & Hd' & _). split; [done|]. split; [done|]. split; [done|].
    intros img [= <-]. simpl. by split.
  - eapply ends_bind; [|intros ?; apply ends_ret; intros st' Hst'; exact Hst'].
    apply ends_mutate. intros ? ->.
    rewrite (alter_const _ _ s (λ s, s)) by done.
    apply tidy_mutate; [|done]. same_fields.
Qed.

Lemma ends_on_sprite_select : ends tidy on_sprite_select (λ _, tidy) tidy.
Proof.
  apply ends_get. intros st Htidy.
  destruct (selection (scene_tree st)) as [|item sel]; simpl.
  { apply ends_raise. by intros ? ->. }
  eapply ends_bind; [|intros ?; apply ends_ret; intros st' Hst'; exact Hst'].
  apply ends_modify. intros ? ->. apply tidy_select; [done|].
  intros a Ha. exists item. by apply dict_get_elem.
Qed.

Lemma gettags_pictures cv item :
  pictures_only cv → gettags cv item = [] ∨ ∃ k, gettags cv item = ["sprite"%string; k].
Proof.
  intros Hpic. unfold gettags.
  destruct (List.find _ _) as [p|] eqn:Hfind; [|by left].
  right. apply find_some in Hfind as [Hp _]. apply Hpic. by apply list_elem_of_In.
Qed.

(** On a canvas of pictures the loop of the click handlers never raises,
    and what it finds is in the dict. *)
Lemma first_sprite_returns cv d found :
  pictures_only cv →
  ∃ c, first_sprite cv d found = Return c ∧ ∀ a, c = Some a → ∃ k, (k, a) ∈ d.
Proof.
  intros Hpic. induction found as [|item rest IH]; simpl.
  - exists None. by split.
  - destruct (gettags_pictures cv item Hpic) as [->|[k ->]].
    + rewrite bool_decide_eq_false_2; [done|]. apply not_elem_of_nil.
    + rewrite bool_decide_eq_true_2 by left. simpl.
      exists (dict_get k d). split; [done|]. intros a Ha. exists k. by apply dict_get_elem.
Qed.

Lemma ends_clicked_sprite ex ey st0 E :
  tidy st0 →
  ends (λ st, st = st0) (clicked_sprite ex ey)
    (λ c st, st = st0 ∧ ∀ a, c = Some a → ∃ k, (k, a) ∈ sprites st0) E.
Proof.
  intros [(Hwf & Hpic & _) _] ? ->. unfold clicked_sprite.
  destruct (first_sprite_returns (canvas st0) (sprites st0)
              (find_overlapping (canvas st0) ex ey (ex + 1) (ey + 1)) Hpic)
    as (c & -> & Hc).
  done.
Qed.

(** Both click handlers: select what was found, run a handler that keeps
    the state tidy, then select the row. *)
Lemma ends_click ex ey (k : addr → M unit) :
  (∀ a, ends tidy (k a) (λ _, tidy) tidy) →
  ends tidy
    (clicked <- clicked_sprite ex ey;;
     st <- get;;
     match obj st clicked with
     | Some (a, sprite) =>
         modify (set_selected_sprite (Some a));; k a;; selection_set (Sprite.id sprite)
     | None => ret tt
     end)
    (λ _, tidy) tidy.
Proof.
  intros Hk st0 Htidy.
  eapply (ends_bind (λ st, st = st0)); [by apply ends_clicked_sprite| |done].
  intros c. apply ends_get. intros ? [-> Hc].
  destruct (obj st0 c) as [[a s]|] eqn:Ho; [|apply ends_ret; by intros ? ->].
  apply obj_Some in Ho as [-> Hs]. destruct (Hc a eq_refl) as (key & Hin).
  eapply (ends_bind _ _ (λ _, tidy)).
  { apply ends_modify. intros ? ->. apply tidy_select; eauto. }
  intros ?. eapply ends_bind; [apply Hk|].
  intros ?. apply ends_selection_set.
Qed.

Lemma ends_on_canvas_click ex ey : ends tidy (on_canvas_click ex ey) (λ _, tidy) tidy.
Proof.
  apply (ends_click ex ey
           (λ a, mutate a (Sprite.start_drag ex ey);; update_inspector)%py).
  intros a. eapply ends_bind; [|intros ?; apply ends_ret; intros st' Hst'; exact Hst'].
  apply ends_mutate. intros st Ht. apply tidy_mutate; [apply same_row_start_drag | done].
Qed.

Lemma ends_on_right_click ex ey : ends tidy (on_right_click ex ey) (λ _, tidy) tidy.
Proof.
  intros st Ht.
  pose proof (ends_click ex ey (λ _, ret tt)) as Hclick.
  specialize (Hclick (λ a, ends_ret tidy tt (λ _, tidy) tidy (λ st Hst, Hst)) st Ht).
  revert Hclick. unfold on_right_click, bind.
  destruct (clicked_sprite ex ey st) as [[c|e] st1]; [|done].
  unfold get. by destruct (obj st1 c) as [[a s]|].
Qed.

Lemma ends_on_canvas_drag ex ey E : ends tidy (on_canvas_drag ex ey) (λ _, tidy) E.
Proof.
  apply ends_get. intros st Htidy.
  destruct (obj st (selected_sprite st)) as [[a s]|]; [|apply ends_ret; by intros ? ->].
  eapply ends_bind; [|intros ?; apply ends_render].
  apply ends_mutate. intros ? ->. apply tidy_mutate; [apply same_row_update_drag | done].
Qed.

Lemma ends_on_canvas_release E : ends tidy on_canvas_release (λ _, tidy) E.
Proof.
  apply ends_get. intros st Htidy.
  destruct (obj st (selected_sprite st)) as [[a s]|]; [|apply ends_ret; by intros ? ->].
  apply ends_mutate. intros ? ->. apply tidy_mutate; [apply same_row_end_drag | done].
Qed.

Lemma ends_start_tree_drag item : ends tidy (start_tree_drag item) (λ _, tidy) tidy.
Proof.
  unfold start_tree_drag. case_bool_decide as Hitem.
  - eapply ends_bind; [|intros ?; apply ends_selection_set].
    apply ends_modify. intros st Ht. by apply tidy_set_drag_source.
  - by apply ends_ret.
Qed.

Lemma ends_end_tree_drag ex ey pw ch :
  ends tidy (end_tree_drag ex ey pw ch) (λ _, tidy) tidy.
Proof.
  apply ends_get. intros st Htidy.
  destruct (truthy_source _) as [source|]; [|apply ends_ret; by intros ? ->].
  eapply (ends_bind _ _ (λ _, tidy));
    [|intros ?; apply ends_modify; intros st' Ht'; by apply tidy_set_drag_source].
  destruct (bool_decide _); [|apply ends_ret; by intros ? ->].
  destruct (obj st _) as [[a s]|] eqn:Ho; [|apply ends_ret; by intros ? ->].
  eapply ends_bind.
  { eapply ends_pre; [intros ? ->; by apply tidy_loose|].
    apply (ends_new_sprite (λ uuid, Sprite.duplicate uuid s)).
    - intros u. apply duplicate_makes.
    - intros u. apply as_made_duplicate. eapply obj_as_made; [by apply tidy_loose | done]. }
  intros new. eapply (ends_bind _ _ (λ _, loose)).
  { apply ends_mutate. intros st' Hl. apply loose_mutate; [apply same_row_set_x | done]. }
  intros ?. eapply (ends_bind _ _ (λ _, loose)).
  { apply ends_mutate. intros st' Hl. apply loose_mutate; [apply same_row_set_y | done]. }
  intros ?. eapply ends_bind; [apply ends_register|].
  intros ?. apply ends_update_scene_tree.
Qed.

Lemma ends_save_script a text E : ends tidy (save_script a text) (λ _, tidy) E.
Proof.
  eapply ends_bind; [|intros ?; apply ends_ret; intros st' Hst'; exact Hst'].
  apply ends_mutate. intros st Ht. apply tidy_mutate; [apply same_row_set_script | done].
Qed.

Lemma ends_game_loop E : ends tidy game_loop (λ _, tidy) E.
Proof.
  apply ends_get. intros st Htidy.
  destruct (is_running st); [|apply ends_ret; by intros ? ->].
  eapply (ends_bind _ _ (λ _ st', st' = st)); [by apply ends_ret|].
  intros ?. eapply ends_pre; [|apply ends_render]. by intros ? ->.
Qed.

Lemma ends_start E : ends tidy start (λ _, tidy) E.
Proof.
  eapply ends_bind; [|intros ?; apply ends_game_loop].
  apply ends_modify. intros st Ht. by apply tidy_set_is_running.
Qed.

(** Every event, returning or raising, leaves a tidy state. *)
Lemma ends_handle ev : ends tidy (handle ev) (λ _, tidy) tidy.
Proof.
  destruct ev; simpl.
  - eapply ends_bind; [apply ends_create_sprite|].
    intros ?. apply ends_ret. by intros st Ht.
  - apply ends_duplicate_sprite.
  - apply ends_remove_sprite.
  - apply ends_get. intros st Ht.
    eapply ends_pre; [|apply ends_duplicate_sprite]. by intros ? ->.
  - apply ends_get. intros st Ht.
    eapply ends_pre; [|apply ends_remove_sprite]. by intros ? ->.
  - apply ends_get. intros st Ht.
    destruct (obj st _) as [[a0 s0]|]; [|apply ends_ret; by intros ? ->].
    eapply ends_pre; [|apply ends_save_script]. by intros ? ->.
  - apply ends_save_script.
  - apply ends_on_sprite_select.
  - apply ends_on_canvas_click.
  - apply ends_on_right_click.
  - apply ends_on_canvas_drag.
  - apply ends_on_canvas_release.
  - apply ends_update_sprite_property.
  - unfold x_entry_focus_out. destruct (int text) eqn:E.
    + apply ends_update_sprite_property.
    + by apply ends_raise.
  - unfold y_entry_focus_out. destruct (int text) eqn:E.
    + apply ends_update_sprite_property.
    + by apply ends_raise.
  - apply ends_start_tree_drag.
  - by apply ends_ret.
  - apply ends_end_tree_drag.
  - apply ends_load_texture.
  - apply ends_game_loop.
  - apply ends_modify. intros st Ht. by apply tidy_set_is_running.
Qed.

Lemma tidy_handle ev st : tidy st → tidy (exec (handle ev) st).
Proof.
  intros Ht. pose proof (ends_handle ev st Ht) as Hend. unfold exec.
  by destruct (handle ev st) as [[u|e] st'].
Qed.

Lemma tidy_run evs : ∀ st, tidy st → tidy (run evs st).
Proof.
  induction evs as [|ev evs IH]; intros st Ht; [done|].
  simpl. apply IH. by apply tidy_handle.
Qed.

Lemma tidy_init : tidy FlamingEngineIDE_init.
Proof.
  assert (loose FlamingEngine_new) as Hnew.
  { split; [apply wf_new|]. split; [|constructor].
    intros p Hp. by apply elem_of_nil in Hp. }
  assert (ends loose (FlamingEngine_init;; start)%py (λ _, tidy) tidy) as Hinit.
  { eapply ends_bind; [|intros ?; apply ends_start].
    eapply ends_bind.
    - eapply (ends_bind _ _ (λ _, loose)).
      + apply (ends_new_sprite (λ uuid, Sprite.init uuid "TestObject" 100 100)); [done|].
        intros u. apply as_made_init.
      + intros a. eapply ends_bind; [apply ends_register|].
        intros ?. eapply ends_bind; [apply ends_update_scene_tree|].
        intros ?. apply (ends_ret _ _ (λ _, tidy)). by intros st Ht.
    - intros a. apply ends_mutate. intros st Ht.
      apply tidy_mutate; [apply same_row_set_color | done]. }
  specialize (Hinit _ Hnew). unfold FlamingEngineIDE_init, exec.
  by destruct ((FlamingEngine_init;; start)%py FlamingEngine_new) as [[u|e] st'].
Qed.

Lemma tidy_reachable evs : tidy (run evs FlamingEngineIDE_init).
Proof. apply tidy_run, tidy_init. Qed.

End handlers_end.

(** ** What holds in every state the main loop reaches *)

(** X2. In every reachable state the tree lists the scene as far as its
    last rebuild got: its rows are the sprites of the dict, in the dict's
    order, each with the sprite's identifier and current name, up to the
    first sprite whose name Tk does not read as a list, where the rebuild
    raised; so the tree lists the whole scene when every name is a list.
    Whatever is selected in the tree is the identifier of a sprite of the
    scene. *)
Theorem tree_lists_scene `{Platform} (evs : list Event) :
  Inj (=) (=) uuid4 →
  let st := run evs FlamingEngineIDE_init in
  rows (scene_tree st) = row_of <$> shown (live st) ∧
  (forallb listable (live st) = true → rows (scene_tree st) = row_of <$> live st) ∧
  ∀ iid, iid ∈ selection (scene_tree st) → is_Some (dict_get iid (sprites st)).
Proof.
  intros Hfresh st. pose proof (tidy_reachable Hfresh evs) as Ht. fold st in Ht.
  pose proof (rows_in_keys st) as Hkeys. destruct Ht as [Hloose [Hrows Hsel]].
  split; [done|]. split; [intros Hall; by rewrite Hrows, shown_all|].
  intros iid Hin%Hsel. apply Hkeys in Hin; [|done].
  destruct (dict_get iid (sprites st)) as [a|] eqn:Hget; [by exists a|].
  by apply dict_get_None in Hget.
Qed.

Lemma tree_lists_scene_witness :
  let st := @run demo [CallDuplicate (Some 0); Button1 110 110; ButtonRelease1;
                       FocusOutName "Hero"%string; TreeButtonPress1 "uuid-1"%string;
                       TreeviewSelect; FocusOutName "{"%string]
              (@FlamingEngineIDE_init demo) in
  rows (scene_tree st) = row_of <$> @shown demo (live st) ∧
  (forallb (@listable demo) (live st) = true →
   rows (scene_tree st) = row_of <$> live st) ∧
  ∀ iid, iid ∈ selection (scene_tree st) → is_Some (dict_get iid (sprites st)).
Proof.
  exact (@tree_lists_scene demo
           [CallDuplicate (Some 0); Button1 110 110; ButtonRelease1;
            FocusOutName "Hero"%string; TreeButtonPress1 "uuid-1"%string;
            TreeviewSelect; FocusOutName "{"%string] demo_fresh).
Defined.

(** X3. No event resizes a sprite or turns its draggable flag off: in every
    reachable state every sprite ever made is 50 by 50 and draggable, and
    the image of a textured sprite has that size too. *)
Theorem sprites_stay_as_made `{Platform} (evs : list Event) (a : addr) (s : Sprite.t) :
  Inj (=) (=) uuid4 →
  heap (run evs FlamingEngineIDE_init) !! a = Some s →
  Sprite.width s = 50%Z ∧ Sprite.height s = 50%Z ∧ Sprite.draggable s = true ∧
  ∀ img, Sprite.texture s = Some img → image_width img = 50%Z ∧ image_height img = 50%Z.
Proof.
  intros Hfresh Hs. destruct (tidy_reachable Hfresh evs) as [(_ & _ & Hmade) _].
  rewrite Forall_lookup in Hmade. exact (Hmade a s Hs).
Qed.

Lemma sprites_stay_as_made_witness :
  ∃ s, heap (@run demo [Button1 110 110; LoadTextureButton "a.png"%string (Some 7);
                        MenuDuplicate] (@FlamingEngineIDE_init demo)) !! 1 = Some s ∧
       Sprite.width s = 50%Z ∧ Sprite.draggable s = true ∧
       ∃ img, Sprite.texture s = Some img ∧ image_width img = 50%Z.
Proof.
  assert (∃ s, heap (@run demo [Button1 110 110;
                                LoadTextureButton "a.png"%string (Some 7);
                                MenuDuplicate] (@FlamingEngineIDE_init demo)) !! 1 = Some s ∧
               ∃ img, Sprite.texture s = Some img) as (s & Hs & img & Himg)
    by (eexists; split; [cbv; reflexivity | eexists; cbv; reflexivity]).
  destruct (@sprites_stay_as_made demo _ 1 s demo_fresh Hs) as (Hw & _ & Hd & Hsize).
  exists s. split; [exact Hs|]. split; [exact Hw|]. split; [exact Hd|].
  exists img. split; [exact Himg | exact (proj1 (Hsize img Himg))].
Defined.

(** ** Rendering, seen from outside *)

Lemma pictures_of_sprites (h : list Sprite.t) its vals :
  Forall2 (λ (p : nat * Item) a, ∃ s, h !! a = Some s ∧ p.2 = drawn s) its vals →
  its.*2 = drawn <$> omap (λ a, h !! a) vals.
Proof.
  induction 1 as [|p a its vals (s & Hs & Hp) _ IH]; [done|].
  rewrite fmap_cons. cbn [omap list_omap]. rewrite Hs, fmap_cons. by rewrite Hp, IH.
Qed.

Lemma set_canvas_id_same s : Sprite.set_canvas_id (Sprite.canvas_id s) s = s.
Proof. by destruct s. Qed.

(** X4. After [render], in every reachable state: the canvas holds exactly
    the pictures of the sprites of the scene, one each, in the dict's order
    (the last registered sprite on top), under pairwise distinct handles;
    the dict and the selection are as before, and no sprite has changed but
    in its canvas handle. *)
Theorem render_draws_scene `{Platform} (evs : list Event) :
  Inj (=) (=) uuid4 →
  let st := run evs FlamingEngineIDE_init in
  let st' := exec render st in
  (items (canvas st')).*2 = drawn <$> live st' ∧
  NoDup (items (canvas st')).*1 ∧
  sprites st' = sprites st ∧
  selected_sprite st' = selected_sprite st ∧
  ∀ b s, heap st !! b = Some s →
    ∃ c, heap st' !! b = Some (Sprite.set_canvas_id c s).
Proof.
  intros Hfresh st st'. pose proof (wf_reachable Hfresh evs) as Hwf. fold st in Hwf.
  destruct (render_spec st Hwf) as (Hd & Hsel & _ & _ & Hrel & Hnd & _ & _ & Hheap).
  fold st' in Hd, Hsel, Hrel, Hnd, Hheap.
  split; [|split; [done|split; [done|split; [done|]]]].
  - rewrite (pictures_of_sprites _ _ _ Hrel). unfold live. rewrite Hd. symmetry.
    apply view_heap.
    + intros b s Hs. destruct (Hheap b s Hs) as (s' & Hs' & [->|(c & -> & _)]); eauto.
    + intros b Hb. by apply wf_values_valid.
  - intros b s Hs. destruct (Hheap b s Hs) as (s' & Hs' & [->|(c & -> & _)]).
    + exists (Sprite.canvas_id s). by rewrite set_canvas_id_same.
    + by exists (Some c).
Qed.

Lemma render_draws_scene_witness :
  let st := @run demo [CallDuplicate (Some 0); CallCreate "Wall"%string 10 20]
              (@FlamingEngineIDE_init demo) in
  let st' := exec render st in
  (items (canvas st')).*2 = drawn <$> live st' ∧
  NoDup (items (canvas st')).*1 ∧
  sprites st' = sprites st ∧
  selected_sprite st' = selected_sprite st ∧
  ∀ b s, heap st !! b = Some s →
    ∃ c, heap st' !! b = Some (Sprite.set_canvas_id c s).
Proof.
  exact (@render_draws_scene demo [CallDuplicate (Some 0); CallCreate "Wall"%string 10 20]
           demo_fresh).
Defined.

(** X5. The picture of a reachable sprite, textured or not, has the
    sprite's own box, from (x, y) to (x + width, y + height); and
    [contains_point] is the closed-box test of a point against it. *)
Theorem picture_has_sprite_box `{Platform}
    (evs : list Event) (a : addr) (s : Sprite.t) (px py : Z) :
  Inj (=) (=) uuid4 →
  heap (run evs FlamingEngineIDE_init) !! a = Some s →
  bbox (drawn s) =
    (Sprite.x s, Sprite.y s, Sprite.x s + Sprite.width s, Sprite.y s + Sprite.height s)%Z ∧
  Sprite.contains_point px py s = boxes_meet (drawn s) px py px py.
Proof.
  intros Hfresh Hs. destruct (tidy_reachable Hfresh evs) as [(_ & _ & Hmade) _].
  rewrite Forall_lookup in Hmade. destruct (Hmade a s Hs) as (Hw & Hh & _ & Himg).
  assert (bbox (drawn s) =
            (Sprite.x s, Sprite.y s, Sprite.x s + Sprite.width s,
             Sprite.y s + Sprite.height s)%Z) as Hbox.
  { unfold drawn. destruct (Sprite.texture s) as [img|] eqn:Htex; [|done].
    simpl. destruct (Himg img eq_refl) as [-> ->]. by rewrite Hw, Hh. }
  split; [done|]. unfold boxes_meet. by rewrite Hbox.
Qed.

Lemma picture_has_sprite_box_witness :
  ∃ s, heap (@run demo [Button1 110 110; LoadTextureButton "a.png"%string (Some 7)]
               (@FlamingEngineIDE_init demo)) !! 0 = Some s ∧
       bbox (drawn s) = (100, 100, 150, 150)%Z ∧
       Sprite.contains_point 150 100 s = boxes_meet (drawn s) 150 100 150 100.
Proof.
  assert (∃ s, heap (@run demo [Button1 110 110;
                                LoadTextureButton "a.png"%string (Some 7)]
                       (@FlamingEngineIDE_init demo)) !! 0 = Some s ∧
               (Sprite.x s, Sprite.y s, Sprite.x s + Sprite.width s,
                Sprite.y s + Sprite.height s)%Z = (100, 100, 150, 150)%Z)
    as (s & Hs & Hbox) by (eexists; split; cbv; reflexivity).
  destruct (@picture_has_sprite_box demo _ 0 s 150 100 demo_fresh Hs) as [Hb Hc].
  exists s. split; [exact Hs|]. split; [by rewrite Hb | exact Hc].
Defined.

(** ** Dragging on the canvas *)

Lemma on_canvas_drag_exec st ex ey a s :
  selected_sprite st = Some a → heap st !! a = Some s →
  exec (on_canvas_drag ex ey) st =
  exec render (set_heap (alter (Sprite.update_drag ex ey) a (heap st)) st).
Proof.
  intros Hsel Hs. unfold exec at 1. unfold on_canvas_drag, bind, get, obj.
  by rewrite Hsel, Hs.
Qed.

Lemma on_canvas_drag_idle st ex ey :
  obj st (selected_sprite st) = None → on_canvas_drag ex ey st = (Return tt, st).
Proof. intros Ho. unfold on_canvas_drag, bind, get. by rewrite Ho. Qed.

Lemma update_drag_idle px py s :
  Sprite.is_dragging s = false → Sprite.update_drag px py s = s.
Proof. intros Hd. unfold Sprite.update_drag. by rewrite Hd. Qed.

Section dragging.
Context `{Platform}.

(** A pointer move leaves every sprite where it is, but the selected one
    when it is being dragged. *)
Lemma drag_keeps_others st qx qy b s :
  wf st → heap st !! b = Some s →
  selected_sprite st ≠ Some b ∨ Sprite.is_dragging s = false →
  ∃ s', heap (exec (on_canvas_drag qx qy) st) !! b = Some s' ∧
        Sprite.x s' = Sprite.x s ∧ Sprite.y s' = Sprite.y s ∧
        Sprite.is_dragging s' = Sprite.is_dragging s.
Proof.
  intros Hwf Hs Hnot.
  destruct (obj st (selected_sprite st)) as [[a sa]|] eqn:Ho.
  - apply obj_Some in Ho as [Hsel Hsa]. rewrite (on_canvas_drag_exec st qx qy a sa) by done.
    set (st2 := set_heap (alter (Sprite.update_drag qx qy) a (heap st)) st).
    assert (wf st2) as Hwf2.
    { apply wf_mutate; [done|]. intros s0 _. apply same_identity_update_drag. }
    assert (heap st2 !! b = Some s) as Hs2.
    { simpl. destruct (decide (a = b)) as [->|Hab].
      - rewrite list_lookup_alter_eq, Hs. simpl. f_equal. apply update_drag_idle.
        destruct Hnot as [Hne|Hd]; [by destruct Hne | done].
      - by rewrite list_lookup_alter_ne. }
    destruct (render_spec st2 Hwf2) as (_ & _ & _ & _ & _ & _ & _ & _ & Hheap).
    destruct (Hheap b s Hs2) as (s' & Hs' & [->|(c & -> & _)]); by eexists.
  - unfold exec. rewrite on_canvas_drag_idle by done. by exists s.
Qed.

End dragging.

Lemma sprites_made_draggable `{Platform} (evs : list Event) a s :
  Inj (=) (=) uuid4 →
  heap (run evs FlamingEngineIDE_init) !! a = Some s → Sprite.draggable s = true.
Proof.
  intros Hfresh Hs. destruct (tidy_reachable Hfresh evs) as [(_ & _ & Hmade) _].
  rewrite Forall_lookup in Hmade. by destruct (Hmade a s Hs) as (_ & _ & ? & _).
Qed.

(** X6. In every reachable state, a press of the primary button that finds
    a sprite at S, followed by a pointer move to Q, leaves that sprite
    selected, being dragged, and at Q − (P − S), P being the point of the
    press: every reachable sprite is draggable. *)
Theorem click_then_drag_follows_pointer `{Platform}
    (evs : list Event) (ex ey qx qy : Z) (a : addr) (s : Sprite.t) :
  Inj (=) (=) uuid4 →
  let st := run evs FlamingEngineIDE_init in
  (clicked_sprite ex ey st).1 = Return (Some a) →
  heap st !! a = Some s →
  let st' := run [Button1 ex ey; B1Motion qx qy] st in
  selected_sprite st' = Some a ∧
  ∃ s', heap st' !! a = Some s' ∧
        Sprite.x s' = (qx - (ex - Sprite.x s))%Z ∧
        Sprite.y s' = (qy - (ey - Sprite.y s))%Z ∧
        Sprite.is_dragging s' = true.
Proof.
  intros Hfresh st Hhit Hs st'.
  pose proof (wf_reachable Hfresh evs) as Hwf. fold st in Hwf.
  pose proof (sprites_made_draggable evs a s Hfresh Hs) as Hdr.
  set (st1 := exec (on_canvas_click ex ey) st).
  assert (wf st1) as Hwf1 by (apply (wf_run Hfresh [Button1 ex ey]); done).
  destruct (on_canvas_click_hit st ex ey a s Hhit Hs) as [tv Htv]. fold st1 in Htv.
  assert (selected_sprite st1 = Some a) as Hsel1 by (by rewrite Htv).
  assert (heap st1 !! a = Some (Sprite.start_drag ex ey s)) as Hs1.
  { rewrite Htv. simpl. by rewrite list_lookup_alter_eq, Hs. }
  subst st'. simpl. fold st1.
  rewrite (on_canvas_drag_exec st1 qx qy a _ Hsel1 Hs1).
  set (st2 := set_heap (alter (Sprite.update_drag qx qy) a (heap st1)) st1).
  assert (wf st2) as Hwf2.
  { apply wf_mutate; [done|]. intros s0 _. apply same_identity_update_drag. }
  destruct (render_spec st2 Hwf2) as (_ & Hsel & _ & _ & _ & _ & _ & _ & Hheap).
  split; [by rewrite Hsel|].
  destruct (Hheap a (Sprite.update_drag qx qy (Sprite.start_drag ex ey s)))
    as (s' & Hs' & Hrel).
  { simpl. by rewrite list_lookup_alter_eq, Hs1. }
  exists s'. split; [done|].
  assert (Sprite.x s' = Sprite.x (Sprite.update_drag qx qy (Sprite.start_drag ex ey s)) ∧
          Sprite.y s' = Sprite.y (Sprite.update_drag qx qy (Sprite.start_drag ex ey s)) ∧
          Sprite.is_dragging s'
          = Sprite.is_dragging (Sprite.update_drag qx qy (Sprite.start_drag ex ey s)))
    as (-> & -> & ->) by (by destruct Hrel as [->|(c & -> & _)]).
  unfold Sprite.start_drag. rewrite Hdr. done.
Qed.

Lemma click_then_drag_follows_pointer_witness :
  let st' := @run demo [Button1 110 110; B1Motion 300 200]
               (@run demo [] (@FlamingEngineIDE_init demo)) in
  selected_sprite st' = Some 0 ∧
  ∃ s', heap st' !! 0 = Some s' ∧ Sprite.x s' = 290%Z ∧ Sprite.y s' = 190%Z.
Proof.
  assert (∃ s, heap (@run demo [] (@FlamingEngineIDE_init demo)) !! 0 = Some s ∧
               Sprite.x s = 100%Z ∧ Sprite.y s = 100%Z) as (s & Hs & Hx & Hy)
    by (eexists; repeat split; cbv; reflexivity).
  assert ((@clicked_sprite demo 110 110 (@run demo [] (@FlamingEngineIDE_init demo))).1
          = Return (Some 0)) as Hhit by (vm_compute; reflexivity).
  destruct (@click_then_drag_follows_pointer demo [] 110 110 300 200 0 s demo_fresh Hhit Hs)
    as (Hsel & s' & Hs' & Hx' & Hy' & _).
  split; [exact Hsel|]. exists s'. split; [exact Hs'|].
  rewrite Hx', Hy', Hx, Hy. split; reflexivity.
Defined.

(** X7. In every reachable state a pointer move with the button down moves
    no sprite but the selected one, and the selected one only while it is
    being dragged. *)
Theorem drag_moves_only_the_dragged `{Platform}
    (evs : list Event) (qx qy : Z) (b : addr) (s : Sprite.t) :
  Inj (=) (=) uuid4 →
  let st := run evs FlamingEngineIDE_init in
  heap st !! b = Some s →
  selected_sprite st ≠ Some b ∨ Sprite.is_dragging s = false →
  ∃ s', heap (exec (on_canvas_drag qx qy) st) !! b = Some s' ∧
        Sprite.x s' = Sprite.x s ∧ Sprite.y s' = Sprite.y s.
Proof.
  intros Hfresh st Hs Hnot.
  destruct (drag_keeps_others st qx qy b s (wf_reachable Hfresh evs) Hs Hnot)
    as (s' & Hs' & Hx & Hy & _).
  by exists s'.
Qed.

Lemma drag_moves_only_the_dragged_witness :
  ∃ s', heap (exec (on_canvas_drag 300 200)
                (@run demo [CallDuplicate (Some 0); Timer; Button1 160 160]
                   (@FlamingEngineIDE_init demo))) !! 0 = Some s' ∧
        Sprite.x s' = 100%Z ∧ Sprite.y s' = 100%Z.
Proof.
  assert (∃ s, heap (@run demo [CallDuplicate (Some 0); Timer; Button1 160 160]
                       (@FlamingEngineIDE_init demo)) !! 0 = Some s ∧
               Sprite.x s = 100%Z ∧ Sprite.y s = 100%Z ∧
               Sprite.is_dragging s = false) as (s & Hs & Hx & Hy & Hd)
    by (eexists; repeat split; cbv; reflexivity).
  destruct (@drag_moves_only_the_dragged demo
              [CallDuplicate (Some 0); Timer; Button1 160 160] 300 200 0 s demo_fresh Hs
              (or_intror Hd)) as (s' & Hs' & Hx' & Hy').
  exists s'. split; [exact Hs'|]. rewrite Hx', Hy'. split; [exact Hx | exact Hy].
Defined.

(** X8. In every reachable state, once the button is released a pointer
    move moves nothing: every sprite is where it was before the release,
    and the selected one is no longer being dragged. *)
Theorem release_ends_the_drag `{Platform}
    (evs : list Event) (qx qy : Z) (b : addr) (s : Sprite.t) :
  Inj (=) (=) uuid4 →
  let st := run evs FlamingEngineIDE_init in
  heap st !! b = Some s →
  let st' := run [ButtonRelease1; B1Motion qx qy] st in
  selected_sprite st' = selected_sprite st ∧
  ∃ s', heap st' !! b = Some s' ∧
        Sprite.x s' = Sprite.x s ∧ Sprite.y s' = Sprite.y s ∧
        (selected_sprite st = Some b → Sprite.is_dragging s' = false).
Proof.
  intros Hfresh st Hs st'.
  pose proof (wf_reachable Hfresh evs) as Hwf. fold st in Hwf.
  set (st1 := exec on_canvas_release st).
  assert (wf st1) as Hwf1 by (apply (wf_run Hfresh [ButtonRelease1]); done).
  assert (selected_sprite st1 = selected_sprite st ∧
          ∃ s1, heap st1 !! b = Some s1 ∧ Sprite.x s1 = Sprite.x s ∧
                Sprite.y s1 = Sprite.y s ∧
                (selected_sprite st = Some b → Sprite.is_dragging s1 = false) ∧
                (selected_sprite st ≠ Some b → s1 = s))
    as (Hsel1 & s1 & Hs1 & Hx1 & Hy1 & Hd1 & Hsame).
  { unfold st1, exec, on_canvas_release, bind, get.
    destruct (obj st (selected_sprite st)) as [[a sa]|] eqn:Ho; simpl.
    - apply obj_Some in Ho as [Hsel Hsa]. split; [done|].
      destruct (decide (a = b)) as [->|Hab].
      + exists (Sprite.end_drag s). rewrite list_lookup_alter_eq, Hs.
        repeat split; try done; intros Hne; by destruct Hne.
      + exists s. rewrite list_lookup_alter_ne by done.
        repeat split; try done; intros Hb; congruence.
    - split; [done|]. exists s.
      repeat split; try done; intros Hb; rewrite Hb in Ho; unfold obj in Ho;
        by rewrite Hs in Ho. }
  subst st'. simpl. fold st1. split.
  - destruct (obj st1 (selected_sprite st1)) as [[a sa]|] eqn:Ho.
    + apply obj_Some in Ho as [Hsel Hsa].
      rewrite (on_canvas_drag_exec st1 qx qy a sa) by done.
      set (st2 := set_heap (alter (Sprite.update_drag qx qy) a (heap st1)) st1).
      assert (wf st2) as Hwf2.
      { apply wf_mutate; [done|]. intros s0 _. apply same_identity_update_drag. }
      destruct (render_spec st2 Hwf2) as (_ & -> & _). done.
    + unfold exec. by rewrite on_canvas_drag_idle.
  - destruct (drag_keeps_others st1 qx qy b s1 Hwf1 Hs1) as (s' & Hs' & Hx & Hy & Hd).
    + rewrite Hsel1. destruct (decide (selected_sprite st = Some b)) as [Hb|Hb].
      * right. by apply Hd1.
      * by left.
    + exists s'. split; [done|]. rewrite Hx, Hy, Hd. by repeat split.
Qed.

Lemma release_ends_the_drag_witness :
  let st' := @run demo [ButtonRelease1; B1Motion 400 400]
               (@run demo [Button1 110 110; B1Motion 300 200]
                  (@FlamingEngineIDE_init demo)) in
  ∃ s', heap st' !! 0 = Some s' ∧ Sprite.x s' = 290%Z ∧ Sprite.y s' = 190%Z.
Proof.
  assert (∃ s, heap (@run demo [Button1 110 110; B1Motion 300 200]
                       (@FlamingEngineIDE_init demo)) !! 0 = Some s ∧
               Sprite.x s = 290%Z ∧ Sprite.y s = 190%Z) as (s & Hs & Hx & Hy)
    by (object_at (heap (@run demo [Button1 110 110; B1Motion 300 200]
                           (@FlamingEngineIDE_init demo)) !! 0); by_vm).
  destruct (@release_ends_the_drag demo [Button1 110 110; B1Motion 300 200]
              400 400 0 s demo_fresh Hs) as (_ & s' & Hs' & Hx' & Hy' & _).
  exists s'. split; [exact Hs'|]. rewrite Hx', Hy'. split; [exact Hx | exact Hy].
Defined.


(** ** The secondary button *)

Lemma on_right_click_hit `{Platform} st ex ey a s :
  (clicked_sprite ex ey st).1 = Return (Some a) →
  heap st !! a = Some s →
  tree_apart (set_selected_sprite (Some a) st) (exec (on_right_click ex ey) st).
Proof.
  intros Hhit Hs. unfold exec, on_right_click, bind.
  destruct (clicked_sprite ex ey st) as [o st'] eqn:E.
  assert (st' = st) as -> by (by rewrite <- (clicked_sprite_state ex ey st), E).
  simpl in Hhit. subst o. unfold get, obj. rewrite Hs. unfold modify. simpl.
  apply selection_set_tree.
Qed.

Lemma on_right_click_miss `{Platform} st ex ey :
  (∀ a, (clicked_sprite ex ey st).1 ≠ Return (Some a)) →
  exec (on_right_click ex ey) st = st.
Proof.
  intros Hmiss. unfold exec, on_right_click, bind.
  destruct (clicked_sprite ex ey st) as [o st'] eqn:E.
  assert (st' = st) as -> by (by rewrite <- (clicked_sprite_state ex ey st), E).
  destruct o as [[a|]|e]; [|done..]. by destruct (Hmiss a).
Qed.

(** X9. In every reachable state a press of the secondary button changes
    no sprite, starts no drag and leaves the dict and the canvas alone; it
    selects the sprite the hit test finds, and leaves the selection as it
    was when the hit test finds none. *)
Theorem right_click_selects_without_drag `{Platform} (evs : list Event) (ex ey : Z) :
  Inj (=) (=) uuid4 →
  let st := run evs FlamingEngineIDE_init in
  let st' := exec (on_right_click ex ey) st in
  heap st' = heap st ∧ sprites st' = sprites st ∧ canvas st' = canvas st ∧
  selected_sprite st' =
    match (clicked_sprite ex ey st).1 with
    | Return (Some a) => Some a
    | _ => selected_sprite st
    end.
Proof.
  intros Hfresh st st'. pose proof (wf_reachable Hfresh evs) as Hwf. fold st in Hwf.
  destruct ((clicked_sprite ex ey st).1) as [[a|]|e] eqn:Hhit.
  - destruct (first_sprite_elem (canvas st) (sprites st)
                (find_overlapping (canvas st) ex ey (ex + 1) (ey + 1)) a Hhit)
      as (k & Hin).
    destruct (wf_dict st Hwf k a Hin) as (s & Hs & _).
    destruct (on_right_click_hit st ex ey a s Hhit Hs) as [tv Htv].
    subst st'. by rewrite Htv.
  - subst st'. rewrite on_right_click_miss; [done|]. intros a. by rewrite Hhit.
  - subst st'. rewrite on_right_click_miss; [done|]. intros a. by rewrite Hhit.
Qed.

Lemma right_click_selects_without_drag_witness :
  let st := @run demo [CallDuplicate (Some 0); Timer] (@FlamingEngineIDE_init demo) in
  let st' := exec (@on_right_click demo 160 160) st in
  heap st' = heap st ∧ sprites st' = sprites st ∧ canvas st' = canvas st ∧
  selected_sprite st' =
    match (@clicked_sprite demo 160 160 st).1 with
    | Return (Some a) => Some a
    | _ => selected_sprite st
    end.
Proof.
  exact (@right_click_selects_without_drag demo [CallDuplicate (Some 0); Timer]
           160 160 demo_fresh).
Defined.

(** ** A click between a removal and the next frame *)

(** What the loop of the click handlers found, it found by a key; with
    another dict it returns what that key maps to there. *)
Lemma first_sprite_key cv d found a :
  first_sprite cv d found = Return (Some a) →
  ∃ k, dict_get k d = Some a ∧ ∀ d', first_sprite cv d' found = Return (dict_get k d').
Proof.
  induction found as [|item rest IH]; simpl; [done|].
  destruct (bool_decide _); [|done].
  destruct (gettags cv item !! 1) as [k|]; [|done].
  intros [= Hget]. by exists k.
Qed.

(** X10. In every reachable state, when a click at a point finds a sprite
    and that sprite is removed, then until the next [render] a click at the
    same point finds nothing: the picture of the removed sprite is still the
    first item there, and its identifier is no key of the dict any more
    (whatever other sprite lies under it). *)
Theorem click_on_removed_sprite_finds_nothing `{Platform}
    (evs : list Event) (ex ey : Z) (a : addr) :
  Inj (=) (=) uuid4 →
  let st := run evs FlamingEngineIDE_init in
  (clicked_sprite ex ey st).1 = Return (Some a) →
  (clicked_sprite ex ey (exec (remove_sprite (Some a)) st)).1 = Return None.
Proof.
  intros Hfresh st Hhit. pose proof (wf_reachable Hfresh evs) as Hwf. fold st in Hwf.
  destruct (first_sprite_key _ _ _ _ Hhit) as (k & Hget & Hkey).
  apply dict_get_elem in Hget as Hin.
  destruct (wf_dict st Hwf k a Hin) as (s & Hs & Hid).
  destruct (remove_sprite_present st a s Hs) as [tv ->].
  { apply dict_in_spec, list_elem_of_fmap. exists (k, a). by rewrite Hid. }
  unfold clicked_sprite. simpl. rewrite Hkey, Hid. by rewrite dict_get_del_eq.
Qed.

Lemma click_on_removed_sprite_finds_nothing_witness :
  (@clicked_sprite demo 130 130
     (exec (@remove_sprite demo (Some 0))
        (@run demo [CallDuplicate (Some 0); Timer] (@FlamingEngineIDE_init demo)))).1
  = Return None.
Proof.
  apply (@click_on_removed_sprite_finds_nothing demo [CallDuplicate (Some 0); Timer]
           130 130 0 demo_fresh).
  vm_compute; reflexivity.
Defined.

(** ** Selecting from the tree *)

(** X11. In every reachable state with a non-empty tree selection, the
    selection event returns and selects the sprite of the scene whose
    identifier is the first selected row; no sprite changes, so no drag
    starts. *)
Theorem tree_selection_selects_by_id `{Platform}
    (evs : list Event) (iid : string) (rest : list string) :
  Inj (=) (=) uuid4 →
  let st := run evs FlamingEngineIDE_init in
  selection (scene_tree st) = iid :: rest →
  on_sprite_select st = (Return tt, set_selected_sprite (dict_get iid (sprites st)) st) ∧
  ∃ a s, dict_get iid (sprites st) = Some a ∧ heap st !! a = Some s ∧ Sprite.id s = iid.
Proof.
  intros Hfresh st Hsel. pose proof (tidy_reachable Hfresh evs) as Ht. fold st in Ht.
  split.
  - unfold on_sprite_select, bind, get. by rewrite Hsel.
  - pose proof (rows_in_keys st iid Ht) as Hkeys. destruct Ht as [(Hwf & _) [_ Hrows]].
    assert (iid ∈ (sprites st).*1) as Hin.
    { apply Hkeys, Hrows. rewrite Hsel. left. }
    destruct (dict_get iid (sprites st)) as [a|] eqn:Hget.
    + apply dict_get_elem in Hget as Hin'.
      destruct (wf_dict st Hwf iid a Hin') as (s & Hs & Hid). by exists a, s.
    + by apply dict_get_None in Hget.
Qed.

Lemma tree_selection_selects_by_id_witness :
  ∃ a s, dict_get "uuid-1"%string
           (sprites (@run demo [CallDuplicate (Some 0); TreeButtonPress1 "uuid-1"%string]
                       (@FlamingEngineIDE_init demo))) = Some a ∧
         heap (@run demo [CallDuplicate (Some 0); TreeButtonPress1 "uuid-1"%string]
                 (@FlamingEngineIDE_init demo)) !! a = Some s ∧
         Sprite.id s = "uuid-1"%string.
Proof.
  apply (@tree_selection_selects_by_id demo
           [CallDuplicate (Some 0); TreeButtonPress1 "uuid-1"%string]
           "uuid-1"%string [] demo_fresh).
  vm_compute; reflexivity.
Defined.

(** ** Loading a texture *)

Lemma set_heap_same st : set_heap (heap st) st = st.
Proof. by destruct st. Qed.

Lemma alter_same (h : list Sprite.t) a s : h !! a = Some s → alter (λ _, s) a h = h.
Proof.
  intros Hs. rewrite (list_alter_ext _ id _ h a); [by apply list_alter_id | | done].
  intros s' Hs'. simpl. congruence.
Qed.

(** X12. When the file dialog is cancelled (empty path) or the image cannot
    be opened, [load_texture] returns and leaves the whole state as it was,
    in any state and whatever is selected. *)
Theorem load_texture_cancel_or_failure (st : Engine) (path : string) (opened : option nat) :
  path = ""%string ∨ opened = None →
  load_texture path opened st = (Return tt, st).
Proof.
  intros Hno. unfold load_texture, bind, get.
  destruct (obj st (selected_sprite st)) as [[a s]|] eqn:Ho; [|done].
  apply obj_Some in Ho as [_ Hs].
  case_bool_decide as Hpath; [|done].
  destruct Hno as [->| ->]; [done|].
  simpl. unfold mutate, modify. simpl. by rewrite alter_same, set_heap_same.
Qed.

Lemma load_texture_cancel_or_failure_witness :
  load_texture "missing.png"%string None two_sprites_B_selected
  = (Return tt, two_sprites_B_selected).
Proof.
  exact (load_texture_cancel_or_failure two_sprites_B_selected "missing.png"%string None
           (or_intror eq_refl)).
Defined.

(** ** New sprites go last *)

Lemma dict_set_fresh {V} (d : list (string * V)) k v :
  k ∉ d.*1 → dict_set k v d = (d ++ [(k, v)])%list.
Proof.
  induction d as [|[k' v'] d IH]; simpl; [done|].
  intros Hk. destruct (decide (k' = k)) as [->|_].
  - destruct Hk. left.
  - rewrite IH; [done|]. intros Hin. apply Hk. by right.
Qed.

Lemma alter_last {A} (f : A → A) (h : list A) x :
  alter f (length h) (h ++ [x])%list = (h ++ [f x])%list.
Proof. induction h as [|y h IH]; [done|]. cbn. f_equal. apply IH. Qed.

Section appending.
Context `{Platform}.
Hypothesis uuid4_fresh : Inj (=) (=) uuid4.

(** The identifier drawn next is no key of the dict. *)
Lemma fresh_key st : wf st → uuid4 (uuid_calls st) ∉ (sprites st).*1.
Proof.
  intros Hwf (p & Hk & Hin)%list_elem_of_fmap. destruct p as [k a]. simpl in Hk.
  destruct (wf_dict st Hwf k a Hin) as (s & Hs & Hid).
  pose proof (wf_ids st Hwf a s Hs) as Hida.
  assert (uuid_calls st = a) as Ha by (apply uuid4_fresh; congruence).
  apply lookup_lt_Some in Hs. rewrite <- (wf_calls st Hwf) in Hs. lia.
Qed.

Lemma live_appended st new k :
  wf st →
  omap (λ a, (heap st ++ [new])%list !! a)
       (dict_values (sprites st ++ [(k, length (heap st))])%list)
  = (live st ++ [new])%list.
Proof.
  intros Hwf. unfold dict_values, live. rewrite fmap_app, omap_app. simpl.
  rewrite lookup_app_r, Nat.sub_diag by done. simpl. f_equal.
  assert (∀ b, b ∈ dict_values (sprites st) → is_Some (heap st !! b)) as Hval
    by (intros b; by apply wf_values_valid).
  unfold dict_values in *. induction ((sprites st).*2) as [|b l IH]; [done|].
  simpl. destruct (Hval b) as [s Hs]; [left|].
  rewrite (lookup_app_l_Some _ _ _ _ Hs), Hs. f_equal. apply IH.
  intros b' Hb'. apply Hval. by right.
Qed.

(** The state after a constructor call and the assignment to the dict: the
    new object is last in the heap, in the dict and in the scene. *)
Lemma registered_appends make st :
  wf st → (∀ u, Sprite.id (make u) = u) →
  let new := make (uuid4 (uuid_calls st)) in
  heap (registered make st) = (heap st ++ [new])%list ∧
  sprites (registered make st)
    = (sprites st ++ [(uuid4 (uuid_calls st), length (heap st))])%list ∧
  live (registered make st) = (live st ++ [new])%list ∧
  selected_sprite (registered make st) = selected_sprite st ∧
  canvas (registered make st) = canvas st ∧
  drag_source (registered make st) = drag_source st.
Proof.
  intros Hwf Hmake new.
  assert (sprites (registered make st)
          = (sprites st ++ [(uuid4 (uuid_calls st), length (heap st))])%list) as Hd.
  { unfold registered. simpl. rewrite Hmake. apply dict_set_fresh, fresh_key, Hwf. }
  repeat split; try done.
  unfold live. rewrite Hd. by apply live_appended.
Qed.

Lemma create_sprite_runs st name x y :
  wf st →
  let st1 := registered (λ uuid, Sprite.init uuid name x y) st in
  create_sprite name x y st =
  (match rebuild_outcome (live st1) with
   | Return _ => Return (length (heap st))
   | Raise e => Raise e
   end, rebuilt st1).
Proof.
  intros Hwf st1.
  assert (wf st1) as Hwf' by (by apply wf_registered).
  unfold create_sprite, bind at 1. unfold new_sprite. unfold bind at 1.
  unfold register, bind at 1. unfold get, obj. simpl.
  rewrite lookup_app_r, Nat.sub_diag by done. simpl. unfold modify. unfold bind. simpl.
  match goal with |- context [update_scene_tree ?e] => change e with st1 end.
  rewrite (update_scene_tree_rebuilds _ Hwf'). by destruct (rebuild_outcome _) as [[]|].
Qed.

Lemma wf_duplicated st s : wf st → wf (registered (λ uuid, Sprite.duplicate uuid s) st).
Proof.
  intros Hwf. apply wf_registered; [done..|]. intros u.
  pose proof (duplicate_fields u s) as Hc. simpl in Hc. split; apply Hc.
Qed.

Lemma duplicate_sprite_runs st a s :
  wf st → heap st !! a = Some s →
  let st1 := registered (λ uuid, Sprite.duplicate uuid s) st in
  duplicate_sprite (Some a) st = (rebuild_outcome (live st1), rebuilt st1).
Proof.
  intros Hwf Hs st1.
  assert (wf st1) as Hwf' by (by apply wf_duplicated).
  unfold duplicate_sprite, bind at 1. unfold get, obj. rewrite Hs.
  unfold bind at 1. unfold new_sprite. unfold bind at 1.
  unfold register, bind at 1. unfold get, obj. simpl.
  rewrite lookup_app_r, Nat.sub_diag by done. simpl. unfold modify. simpl.
  match goal with |- context [update_scene_tree ?e] => change e with st1 end.
  by rewrite (update_scene_tree_rebuilds _ Hwf').
Qed.

Lemma wf_dropped st s ex ey :
  wf st →
  wf (registered (λ uuid, Sprite.set_y ey (Sprite.set_x ex (Sprite.duplicate uuid s))) st).
Proof.
  intros Hwf. apply wf_registered; [done..|]. intros u.
  pose proof (duplicate_fields u s) as Hc. simpl in Hc. split; apply Hc.
Qed.

(** A drop over the canvas, from a row whose sprite is in the dict: the
    drag source is reset when the rebuild of the tree returns, and only
    then. *)
Lemma end_tree_drag_runs st source a s ex ey pw ch :
  wf st → drag_source st = Some source → source ≠ ""%string →
  dict_get source (sprites st) = Some a → heap st !! a = Some s →
  (ex > pw)%Z → (ey < ch)%Z →
  let st1 := registered (λ uuid, Sprite.set_y ey (Sprite.set_x (ex - pw)
                                   (Sprite.duplicate uuid s))) st in
  end_tree_drag ex ey pw ch st =
  (rebuild_outcome (live st1),
   if forallb listable (live st1) then set_drag_source None (rebuilt st1) else rebuilt st1).
Proof.
  intros Hwf Hsrc Hne Hget Hs Hx Hy st1.
  assert (wf st1) as Hwf' by (by apply wf_dropped).
  unfold end_tree_drag, bind at 1. unfold get. rewrite Hsrc. simpl.
  rewrite bool_decide_eq_true_2 by done.
  rewrite bool_decide_eq_true_2 by done.
  rewrite Hget. unfold obj at 1. rewrite Hs.
  unfold bind at 1. unfold bind at 1. unfold new_sprite.
  unfold bind at 1. unfold mutate at 1, modify at 1. simpl.
  unfold bind at 1. unfold mutate at 1, modify at 1. simpl.
  rewrite !alter_last.
  unfold bind at 1. unfold register, bind at 1. unfold get, obj. simpl.
  rewrite lookup_app_r, Nat.sub_diag by done. simpl. unfold modify at 1. simpl.
  match goal with |- context [update_scene_tree ?e] => change e with st1 end.
  rewrite (update_scene_tree_rebuilds _ Hwf'). unfold rebuild_outcome, modify.
  by destruct (forallb _ _).
Qed.

Lemma update_sprite_property_runs st p a s :
  wf st → selected_sprite st = Some a → heap st !! a = Some s →
  let st1 := set_heap (alter (setattr p) a (heap st)) st in
  update_sprite_property p st = (rebuild_outcome (live st1), rebuilt st1).
Proof.
  intros Hwf Hsel Hs st1.
  assert (wf st1) as Hwf'.
  { apply wf_mutate; [done|]. intros s' _. by destruct p. }
  unfold update_sprite_property, bind at 1. unfold get, obj. rewrite Hsel, Hs.
  unfold bind, mutate, modify. fold st1. by rewrite (update_scene_tree_rebuilds _ Hwf').
Qed.

(** The sprites of the scene without a key are the sprites of the scene
    with another identifier. *)
Lemma live_removed st k :
  wf st →
  omap (λ a, heap st !! a) (dict_values (dict_del k (sprites st)))
  = filter (λ s, Sprite.id s ≠ k) (live st).
Proof.
  intros Hwf. unfold live, dict_values, dict_del.
  assert (Forall (λ p, ∃ s, heap st !! p.2 = Some s ∧ Sprite.id s = p.1) (sprites st))
    as Hall.
  { apply Forall_forall. intros [k' a] Hp. by apply (wf_dict st Hwf). }
  induction Hall as [|[k' a] d (s & Hs & Hk) _ IH]; [done|].
  simpl in Hs, Hk. rewrite fmap_cons. cbn [snd omap list_omap]. rewrite Hs.
  destruct (decide (k' = k)) as [->|Hne].
  - rewrite filter_cons_False by (simpl; tauto).
    rewrite filter_cons_False by (rewrite Hk; tauto). apply IH.
  - rewrite filter_cons_True by done.
    rewrite filter_cons_True by (by rewrite Hk).
    rewrite fmap_cons. cbn [snd omap list_omap]. rewrite Hs. f_equal. apply IH.
Qed.

Lemma remove_sprite_runs st a s :
  wf st → heap st !! a = Some s → dict_in (Sprite.id s) (sprites st) = true →
  let st1 := set_selected_sprite None
               (set_sprites (dict_del (Sprite.id s) (sprites st)) st) in
  remove_sprite (Some a) st = (rebuild_outcome (live st1), rebuilt st1).
Proof.
  intros Hwf Hs Hkey st1.
  unfold remove_sprite, bind at 1. unfold get, obj. rewrite Hs, Hkey.
  unfold bind at 1. unfold modify at 1. unfold bind at 1. unfold modify at 1.
  unfold bind. fold st1.
  rewrite (update_scene_tree_rebuilds st1 (wf_remove (Sprite.id s) st Hwf)).
  unfold rebuild_outcome. by destruct (forallb _ _).
Qed.

(** The click handlers on a tidy state: the hit test returns, and the
    handler raises only when the tree has no row for the sprite found. *)
Lemma click_outcome st ex ey (k : addr → M unit) :
  tidy st →
  (∀ a st1, ∃ st2, k a st1 = (Return tt, st2) ∧ scene_tree st2 = scene_tree st1) →
  ((clicked <- clicked_sprite ex ey;;
    st <- get;;
    match obj st clicked with
    | Some (a, sprite) =>
        modify (set_selected_sprite (Some a));; k a;; selection_set (Sprite.id sprite)
    | None => ret tt
    end)%py st).1 =
  match fault (Button1 ex ey) st with
  | Some e => Raise e
  | None => Return tt
  end.
Proof.
  intros [(Hwf & Hpic & _) _] Hk. unfold fault. cbv zeta. unfold bind at 1.
  unfold clicked_sprite at 1 2.
  destruct (first_sprite_returns (canvas st) (sprites st)
              (find_overlapping (canvas st) ex ey (ex + 1) (ey + 1)) Hpic)
    as (c & -> & _).
  cbn [fst]. unfold bind at 1. unfold get at 1.
  destruct (obj st c) as [[a s]|]; [|done].
  unfold bind at 1. unfold modify at 1.
  destruct (Hk a (set_selected_sprite (Some a) st)) as (st2 & Ek & Htree).
  unfold bind at 1. rewrite Ek.
  unfold selection_set, bind, get, tree_selection_set. rewrite Htree. simpl.
  by case_bool_decide.
Qed.

End appending.

(** X13. In every reachable state [create_sprite] makes a new object with
    the next identifier and the defaults of the constructor and puts it last
    in the heap, in the dict and so in draw order (on top at the next frame);
    the selection and the canvas stay as they were, and the tree is rebuilt
    as far as the names allow.  It returns the reference to the object when
    every name of the scene, the new one included, is a Tcl list; otherwise
    the tree refuses a row and [create_sprite] raises [TclError], the object
    being registered all the same. *)
Theorem create_sprite_appends `{Platform} (evs : list Event) (name : string) (x y : Z) :
  Inj (=) (=) uuid4 →
  let st := run evs FlamingEngineIDE_init in
  let new := Sprite.init (uuid4 (uuid_calls st)) name x y in
  let st' := exec (create_sprite name x y) st in
  heap st' = (heap st ++ [new])%list ∧
  sprites st' = (sprites st ++ [(Sprite.id new, length (heap st))])%list ∧
  live st' = (live st ++ [new])%list ∧
  rows (scene_tree st') = row_of <$> shown (live st') ∧
  selected_sprite st' = selected_sprite st ∧
  canvas st' = canvas st ∧
  (create_sprite name x y st).1 =
    if forallb listable (live st ++ [new]) then Return (length (heap st))
    else Raise TclError.
Proof.
  intros Hfresh st new st'. pose proof (wf_reachable Hfresh evs) as Hwf. fold st in Hwf.
  pose proof (create_sprite_runs Hfresh st name x y Hwf) as Hrun. cbv zeta in Hrun.
  destruct (registered_appends Hfresh (λ uuid, Sprite.init uuid name x y) st Hwf)
    as (Hh & Hd & Hl & Hsel & Hcv & _); [done|].
  subst st'. unfold exec. rewrite Hrun. cbn [fst snd].
  split; [exact Hh|]. split; [exact Hd|]. split; [exact Hl|]. split; [done|].
  split; [exact Hsel|]. split; [exact Hcv|].
  rewrite Hl. unfold rebuild_outcome. by destruct (forallb _ _).
Qed.

Lemma create_sprite_appends_witness :
  let st := @run demo [CallDuplicate (Some 0)] (@FlamingEngineIDE_init demo) in
  let new := Sprite.init (@uuid4 demo (uuid_calls st)) "{"%string 10 20 in
  let st' := exec (@create_sprite demo "{"%string 10 20) st in
  heap st' = (heap st ++ [new])%list ∧
  sprites st' = (sprites st ++ [(Sprite.id new, length (heap st))])%list ∧
  live st' = (live st ++ [new])%list ∧
  rows (scene_tree st') = row_of <$> @shown demo (live st') ∧
  selected_sprite st' = selected_sprite st ∧
  canvas st' = canvas st ∧
  (@create_sprite demo "{"%string 10 20 st).1 =
    if forallb (@listable demo) (live st ++ [new]) then Return (length (heap st))
    else Raise TclError.
Proof.
  exact (@create_sprite_appends demo [CallDuplicate (Some 0)] "{"%string 10 20
           demo_fresh).
Defined.

(** X14. In every reachable state [duplicate_sprite] of any object made so
    far, in the scene or removed from it, puts the copy last in the heap, in
    the dict and in draw order; the tree is rebuilt as far as the names
    allow and has nothing selected, while the selected sprite and the canvas
    stay as they were.  It returns when every name of the scene, the copy's
    included, is a Tcl list, and raises [TclError] otherwise, the copy being
    registered all the same. *)
Theorem duplicate_sprite_appends `{Platform} (evs : list Event) (a : addr) (s : Sprite.t) :
  Inj (=) (=) uuid4 →
  let st := run evs FlamingEngineIDE_init in
  heap st !! a = Some s →
  let new := Sprite.duplicate (uuid4 (uuid_calls st)) s in
  let st' := exec (duplicate_sprite (Some a)) st in
  heap st' = (heap st ++ [new])%list ∧
  sprites st' = (sprites st ++ [(uuid4 (uuid_calls st), length (heap st))])%list ∧
  live st' = (live st ++ [new])%list ∧
  rows (scene_tree st') = row_of <$> shown (live st') ∧
  selection (scene_tree st') = [] ∧
  selected_sprite st' = selected_sprite st ∧
  canvas st' = canvas st ∧
  (duplicate_sprite (Some a) st).1 =
    if forallb listable (live st ++ [new]) then Return tt else Raise TclError.
Proof.
  intros Hfresh st Hs new st'. pose proof (wf_reachable Hfresh evs) as Hwf. fold st in Hwf.
  pose proof (duplicate_sprite_runs Hfresh st a s Hwf Hs) as Hrun. cbv zeta in Hrun.
  destruct (registered_appends Hfresh (λ uuid, Sprite.duplicate uuid s) st Hwf)
    as (Hh & Hd & Hl & Hsel & Hcv & _).
  { intros u. pose proof (duplicate_fields u s) as Hc. apply Hc. }
  subst st'. unfold exec. rewrite Hrun. cbn [fst snd].
  split; [exact Hh|]. split; [exact Hd|]. split; [exact Hl|]. split; [done|].
  split; [done|]. split; [exact Hsel|]. split; [exact Hcv|].
  rewrite Hl. done.
Qed.

Lemma duplicate_sprite_appends_witness :
  let st := @run demo [CallRemove (Some 0)] (@FlamingEngineIDE_init demo) in
  let st' := exec (@duplicate_sprite demo (Some 0)) st in
  length (heap st') = 2 ∧ length (sprites st') = 1 ∧ selected_sprite st' = None.
Proof.
  assert (∃ s, heap (@run demo [CallRemove (Some 0)] (@FlamingEngineIDE_init demo)) !! 0
               = Some s) as [s Hs]
    by (object_at (heap (@run demo [CallRemove (Some 0)] (@FlamingEngineIDE_init demo))
                     !! 0); by_vm).
  destruct (@duplicate_sprite_appends demo [CallRemove (Some 0)] 0 s demo_fresh Hs)
    as (Hh & Hd & _ & _ & _ & Hsel & _ & _).
  intros st st'. subst st st'. rewrite Hh, Hd, Hsel, !length_app. by_vm.
Defined.

(** ** Dragging a row of the tree onto the canvas *)



(** ** The inspector's entries, when they apply *)

(** X16. In every reachable state with a sprite selected,
    [update_sprite_property] assigns the one attribute of the selected
    sprite; every other object, the dict, the selected sprite and the canvas
    stay as they were (the picture moves at the next frame), and the tree is
    rebuilt as far as the names allow, with nothing selected any more.  It
    returns when every name of the scene after the assignment is a Tcl list,
    and raises [TclError] otherwise, the attribute being assigned all the
    same. *)
Theorem entry_updates_selected_only `{Platform}
    (evs : list Event) (p : Assignment) (a : addr) (s : Sprite.t) :
  Inj (=) (=) uuid4 →
  let st := run evs FlamingEngineIDE_init in
  selected_sprite st = Some a → heap st !! a = Some s →
  let st' := exec (update_sprite_property p) st in
  heap st' !! a = Some (setattr p s) ∧
  (∀ b, b ≠ a → heap st' !! b = heap st !! b) ∧
  sprites st' = sprites st ∧
  selected_sprite st' = Some a ∧
  canvas st' = canvas st ∧
  rows (scene_tree st') = row_of <$> shown (live st') ∧
  selection (scene_tree st') = [] ∧
  (update_sprite_property p st).1 =
    if forallb listable (live st') then Return tt else Raise TclError.
Proof.
  intros Hfresh st Hsel Hs st'. pose proof (wf_reachable Hfresh evs) as Hwf. fold st in Hwf.
  pose proof (update_sprite_property_runs st p a s Hwf Hsel Hs) as Hrun.
  cbv zeta in Hrun. subst st'. unfold exec. rewrite Hrun. cbn [fst snd].
  split; [simpl; by rewrite list_lookup_alter_eq, Hs|].
  split; [intros b Hb; simpl; by rewrite list_lookup_alter_ne|].
  by repeat split.
Qed.

Lemma entry_updates_selected_only_witness :
  let st := @run demo [CallDuplicate (Some 0); Timer; TreeButtonPress1 "uuid-1"%string;
                       TreeviewSelect] (@FlamingEngineIDE_init demo) in
  let st' := exec (@update_sprite_property demo (SetName "{"%string)) st in
  selected_sprite st' = Some 1 ∧ selection (scene_tree st') = [] ∧
  (@update_sprite_property demo (SetName "{"%string) st).1 =
    if forallb (@listable demo) (live st') then Return tt else Raise TclError.
Proof.
  assert (selected_sprite
            (@run demo [CallDuplicate (Some 0); Timer; TreeButtonPress1 "uuid-1"%string;
                        TreeviewSelect] (@FlamingEngineIDE_init demo)) = Some 1)
    as Hsel by by_vm.
  assert (∃ s, heap (@run demo [CallDuplicate (Some 0); Timer;
                                TreeButtonPress1 "uuid-1"%string; TreeviewSelect]
                       (@FlamingEngineIDE_init demo)) !! 1 = Some s) as [s Hs]
    by (object_at (heap (@run demo [CallDuplicate (Some 0); Timer;
                                    TreeButtonPress1 "uuid-1"%string; TreeviewSelect]
                           (@FlamingEngineIDE_init demo)) !! 1); by_vm).
  destruct (@entry_updates_selected_only demo _ (SetName "{"%string) 1 s demo_fresh Hsel Hs)
    as (_ & _ & _ & Hsel' & _ & _ & Htree & Hout).
  split; [exact Hsel'|]. split; [exact Htree | exact Hout].
Defined.

(** ** Removing a sprite *)

(** X17. In every reachable state, removing a sprite of the scene takes its
    key out of the dict, the others keeping their order in the dict and so
    in draw order; no object changes, nothing is selected afterwards, the
    canvas is as before (the picture stays until the next frame) and the
    tree is rebuilt as far as the names allow.  The removal returns when
    every name left in the scene is a Tcl list, and raises [TclError]
    otherwise, the sprite being removed all the same.  Removing the same
    sprite once more returns and changes nothing. *)
Theorem remove_keeps_the_others `{Platform} (evs : list Event) (k : string) (a : addr) :
  Inj (=) (=) uuid4 →
  let st := run evs FlamingEngineIDE_init in
  dict_get k (sprites st) = Some a →
  let st' := exec (remove_sprite (Some a)) st in
  heap st' = heap st ∧
  sprites st' = dict_del k (sprites st) ∧
  live st' = filter (λ s, Sprite.id s ≠ k) (live st) ∧
  rows (scene_tree st') = row_of <$> shown (live st') ∧
  selected_sprite st' = None ∧
  canvas st' = canvas st ∧
  (remove_sprite (Some a) st).1 =
    (if forallb listable (live st') then Return tt else Raise TclError) ∧
  remove_sprite (Some a) st' = (Return tt, st').
Proof.
  intros Hfresh st Hget st'. pose proof (wf_reachable Hfresh evs) as Hwf. fold st in Hwf.
  apply dict_get_elem in Hget as Hin.
  destruct (wf_dict st Hwf k a Hin) as (s & Hs & Hid).
  assert (dict_in (Sprite.id s) (sprites st) = true) as Hkey.
  { apply dict_in_spec, list_elem_of_fmap. exists (k, a). by rewrite Hid. }
  pose proof (remove_sprite_runs st a s Hwf Hs Hkey) as Hrun. cbv zeta in Hrun.
  rewrite Hid in Hrun. subst st'. unfold exec. rewrite Hrun. cbn [fst snd].
  split; [done|]. split; [done|]. split; [exact (live_removed st k Hwf)|].
  split; [done|]. split; [done|]. split; [done|]. split; [done|].
  unfold remove_sprite, bind, get, obj. simpl. rewrite Hs, Hid.
  destruct (dict_in k (dict_del k (sprites st))) eqn:Hk; [|done].
  apply dict_in_spec, list_elem_of_fmap in Hk as ([k' b] & -> & Hp).
  apply list_elem_of_filter in Hp as [Hne _]. by destruct Hne.
Qed.

Lemma remove_keeps_the_others_witness :
  let st := @run demo [CallDuplicate (Some 0); CallCreate "Wall"%string 10 20]
              (@FlamingEngineIDE_init demo) in
  let st' := exec (@remove_sprite demo (Some 0)) st in
  sprites st' = [("uuid-1"%string, 1); ("uuid-2"%string, 2)] ∧
  @remove_sprite demo (Some 0) st' = (Return tt, st').
Proof.
  assert (dict_get "uuid-0"%string
            (sprites (@run demo [CallDuplicate (Some 0); CallCreate "Wall"%string 10 20]
                        (@FlamingEngineIDE_init demo))) = Some 0) as Hget by by_vm.
  destruct (@remove_keeps_the_others demo
              [CallDuplicate (Some 0); CallCreate "Wall"%string 10 20]
              "uuid-0"%string 0 demo_fresh Hget)
    as (_ & Hd & _ & _ & _ & _ & _ & Hagain).
  split; [|exact Hagain].
  rewrite Hd. by_vm.
Defined.

(** ** The frame loop's flag *)

Lemma kr_ret {A} (a : A) : keeps_running (ret a).
Proof. by intros st. Qed.

Lemma kr_raise {A} e : keeps_running (@raise A e).
Proof. by intros st. Qed.

Lemma kr_bind {A B} (m : M A) (k : A → M B) :
  keeps_running m → (∀ a, keeps_running (k a)) → keeps_running (bind m k).
Proof.
  intros Hm Hk st. specialize (Hm st). unfold exec, bind in *.
  destruct (m st) as [[a|e] st']; simpl in *; [|done].
  by rewrite <- Hm, <- (Hk a st').
Qed.

Lemma kr_get {A} (k : Engine → M A) :
  (∀ st, keeps_running (k st)) → keeps_running (bind get k).
Proof. intros Hk st. apply (Hk st st). Qed.

Lemma kr_modify f :
  (∀ st, is_running (f st) = is_running st) → keeps_running (modify f).
Proof. intros Hf st. apply Hf. Qed.

Lemma kr_insert_rows `{Platform} vals : keeps_running (insert_rows vals).
Proof.
  induction vals as [|a rest IH]; [apply kr_ret|]. cbn [insert_rows].
  apply kr_get. intros st. destruct (obj st (Some a)) as [[b s]|]; [|done].
  destruct (tree_insert _ _ _ _); [|apply kr_raise].
  apply kr_bind; [by apply kr_modify | done].
Qed.

Lemma kr_update_scene_tree `{Platform} : keeps_running update_scene_tree.
Proof.
  apply kr_bind; [by apply kr_modify|]. intros _.
  apply kr_get. intros st. apply kr_insert_rows.
Qed.

Lemma kr_selection_set iid : keeps_running (selection_set iid).
Proof.
  apply kr_get. intros st.
  destruct (tree_selection_set _ _); [by apply kr_modify | apply kr_raise].
Qed.

Lemma kr_register a : keeps_running (register a).
Proof.
  apply kr_get. intros st. destruct (obj st _) as [[b s]|]; [by apply kr_modify | apply kr_ret].
Qed.

Lemma kr_render : keeps_running render.
Proof.
  apply kr_modify. intros st. cbv zeta.
  by destruct (draw_all (dict_values (sprites st)) (heap st) (canvas_delete_all (canvas st))).
Qed.

Lemma kr_clicked_sprite `{Platform} ex ey : keeps_running (clicked_sprite ex ey).
Proof. by intros st. Qed.

Lemma kr_new_sprite `{Platform} make : keeps_running (new_sprite make).
Proof. by intros st. Qed.

Lemma kr_mutate a f : keeps_running (mutate a f).
Proof. by apply kr_modify. Qed.

Ltac kr :=
  repeat match goal with
    | |- keeps_running (ret _) => apply kr_ret
    | |- keeps_running (raise _) => apply kr_raise
    | |- keeps_running update_scene_tree => apply kr_update_scene_tree
    | |- keeps_running (selection_set _) => apply kr_selection_set
    | |- keeps_running (register _) => apply kr_register
    | |- keeps_running render => apply kr_render
    | |- keeps_running (clicked_sprite _ _) => apply kr_clicked_sprite
    | |- keeps_running (new_sprite _) => apply kr_new_sprite
    | |- keeps_running (mutate _ _) => apply kr_mutate
    | |- keeps_running (modify _) => apply kr_modify; intros ?; reflexivity
    | |- keeps_running (bind get _) => apply kr_get; intros ?
    | |- keeps_running (bind _ _) => apply kr_bind; [|intros ?]
    | |- keeps_running (match ?x with _ => _ end) => destruct x
    end.

Lemma kr_create_sprite `{Platform} name x y : keeps_running (create_sprite name x y).
Proof. unfold create_sprite. kr. Qed.

Lemma kr_duplicate_sprite `{Platform} sprite : keeps_running (duplicate_sprite sprite).
Proof. unfold duplicate_sprite. kr. Qed.

Lemma kr_remove_sprite `{Platform} sprite : keeps_running (remove_sprite sprite).
Proof. unfold remove_sprite, update_inspector. kr. Qed.

Lemma kr_handle `{Platform} ev : ev ≠ Stop → keeps_running (handle ev).
Proof.
  intros Hev. destruct ev; try done; simpl;
    unfold save_script, on_sprite_select, on_canvas_click, on_right_click,
      on_canvas_drag, on_canvas_release, name_entry_focus_out, x_entry_focus_out,
      y_entry_focus_out, update_sprite_property, start_tree_drag, on_tree_drag,
      end_tree_drag, load_texture, game_loop, update, update_inspector;
    kr; first [apply kr_create_sprite | apply kr_duplicate_sprite | apply kr_remove_sprite].
Qed.

Lemma running_after_start st : is_running (exec start st) = true.
Proof.
  unfold exec, start, bind, modify, game_loop, bind, get. simpl.
  unfold update, bind, ret. apply (kr_render (set_is_running true st)).
Qed.

(** Start-up returns: the name of the test object is a plain string, which
    the tree takes. *)
Lemma running_at_start `{Platform} : is_running FlamingEngineIDE_init = true.
Proof.
  unfold FlamingEngineIDE_init, exec, bind.
  destruct (FlamingEngine_init FlamingEngine_new) as [[[]|e] st] eqn:E.
  - apply running_after_start.
  - exfalso. revert E. unfold FlamingEngine_init, create_sprite, bind, new_sprite,
      register, update_scene_tree, bind, get, modify, obj. simpl. unfold bind. simpl.
    unfold tree_insert. simpl.
    by rewrite (tcl_list_plain "TestObject" eq_refl).
Qed.

(** X18. The frame loop runs from the start and until [stop()] is called:
    in the state reached by any events, the flag is set exactly when none of
    them was [Stop]; no handler, returning or raising, sets it again. *)
Theorem engine_runs_until_stopped `{Platform} (evs : list Event) :
  is_running (run evs FlamingEngineIDE_init) = true ↔ Stop ∉ evs.
Proof.
  rewrite <- (and_True (Stop ∉ evs)), (and_comm _ True).
  assert (True ↔ is_running FlamingEngineIDE_init = true) as ->
    by (by rewrite running_at_start).
  generalize FlamingEngineIDE_init. induction evs as [|ev evs IH]; intros st.
  - simpl. split; [intros ?; split; [done | apply not_elem_of_nil] | by intros [? _]].
  - change (run (ev :: evs) st) with (run evs (exec (handle ev) st)). rewrite IH.
    rewrite not_elem_of_cons.
    assert (ev = Stop ∨ ev ≠ Stop) as [->|Hev] by (destruct ev; (by left) || (by right)).
    + simpl. split; [by intros [? _] | by intros (_ & ? & _)].
    + rewrite (kr_handle ev Hev st). split; [by intros [? ?] | by intros (? & _ & ?)].
Qed.

(** ** A loaded texture *)



(** ** What an event leaves of the objects *)

Section framing.
Context `{Platform}.
Variable R : Sprite.t → Sprite.t → Prop.
Hypothesis R_refl : ∀ s, R s s.
Hypothesis R_trans : ∀ s1 s2 s3, R s1 s2 → R s2 s3 → R s1 s3.
Hypothesis R_draw : ∀ s cv, R s (Sprite.draw s cv).1.

Lemma related_refl st : related R st st.
Proof. intros a s Hs. by exists s. Qed.

Lemma related_trans st1 st2 st3 :
  related R st1 st2 → related R st2 st3 → related R st1 st3.
Proof.
  intros H12 H23 a s Hs. destruct (H12 a s Hs) as (s2 & Hs2 & HR2).
  destruct (H23 a s2 Hs2) as (s3 & Hs3 & HR3). exists s3. split; [done|].
  by apply (R_trans _ s2).
Qed.

Lemma related_same_heap st st' : heap st' = heap st → related R st st'.
Proof. intros Hh a s Hs. exists s. by rewrite Hh. Qed.

Lemma fr_ret {A} (a : A) : frames R (ret a).
Proof. intros st. apply related_refl. Qed.

Lemma fr_raise {A} e : frames R (@raise A e).
Proof. intros st. apply related_refl. Qed.

Lemma fr_bind {A B} (m : M A) (k : A → M B) :
  frames R m → (∀ a, frames R (k a)) → frames R (bind m k).
Proof.
  intros Hm Hk st. specialize (Hm st). unfold exec, bind in *.
  destruct (m st) as [[a|e] st']; simpl in *; [|done].
  apply (related_trans _ st'); [done|]. apply (Hk a st').
Qed.

Lemma fr_get {A} (k : Engine → M A) :
  (∀ st, frames R (k st)) → frames R (bind get k).
Proof. intros Hk st. apply (Hk st st). Qed.

Lemma fr_modify f : (∀ st, heap (f st) = heap st) → frames R (modify f).
Proof. intros Hf st. apply related_same_heap, Hf. Qed.

Lemma related_mutate st a f :
  (∀ s, heap st !! a = Some s → R s (f s)) →
  related R st (set_heap (alter f a (heap st)) st).
Proof.
  intros Hf b s Hs. simpl. destruct (decide (b = a)) as [->|Hne].
  - exists (f s). rewrite list_lookup_alter_eq, Hs. split; [done|]. by apply Hf.
  - exists s. by rewrite list_lookup_alter_ne.
Qed.

Lemma fr_mutate a f : (∀ s, R s (f s)) → frames R (mutate a f).
Proof. intros Hf st. apply related_mutate. intros s _. apply Hf. Qed.

Lemma fr_new_sprite make : frames R (new_sprite make).
Proof.
  intros st a s Hs. exists s. split; [|done]. unfold exec, new_sprite. simpl.
  by apply lookup_app_l_Some.
Qed.

Lemma fr_insert_rows vals : frames R (insert_rows vals).
Proof.
  induction vals as [|a rest IH]; [apply fr_ret|]. cbn [insert_rows].
  apply fr_get. intros st. destruct (obj st (Some a)) as [[b s]|]; [|done].
  destruct (tree_insert _ _ _ _); [|apply fr_raise].
  apply fr_bind; [by apply fr_modify | done].
Qed.

Lemma fr_update_scene_tree : frames R update_scene_tree.
Proof.
  apply fr_bind; [by apply fr_modify|]. intros _.
  apply fr_get. intros st. apply fr_insert_rows.
Qed.

Lemma fr_selection_set iid : frames R (selection_set iid).
Proof.
  apply fr_get. intros st.
  destruct (tree_selection_set _ _); [by apply fr_modify | apply fr_raise].
Qed.

Lemma fr_register a : frames R (register a).
Proof.
  apply fr_get. intros st.
  destruct (obj st (Some a)) as [[b s]|]; [by apply fr_modify | apply fr_ret].
Qed.

Lemma fr_clicked_sprite ex ey : frames R (clicked_sprite ex ey).
Proof. intros st. apply related_refl. Qed.

Lemma draw_all_related vals : ∀ h cv a s,
  h !! a = Some s → ∃ s', (draw_all vals h cv).1 !! a = Some s' ∧ R s s'.
Proof.
  induction vals as [|b rest IH]; intros h cv a s Hs; [by exists s|].
  cbn [draw_all]. destruct (h !! b) as [sb|] eqn:Hb; [|by apply IH].
  pose proof (R_draw sb cv) as Hd. destruct (Sprite.draw sb cv) as [sb' cv'].
  simpl in Hd. destruct (decide (a = b)) as [->|Hne].
  - assert (s = sb) as -> by congruence.
    destruct (IH (<[b := sb']> h) cv' b sb') as (s' & Hs' & HR).
    { apply list_lookup_insert_eq. by apply lookup_lt_Some in Hb. }
    exists s'. split; [done|]. by apply (R_trans _ sb').
  - apply IH. by rewrite list_lookup_insert_ne.
Qed.

Lemma fr_render : frames R render.
Proof.
  intros st a s Hs. unfold exec, render, modify. cbv zeta.
  destruct (draw_all_related (dict_values (sprites st)) (heap st)
              (canvas_delete_all (canvas st)) a s Hs) as (s' & Hs' & HR).
  destruct (draw_all _ _ _) as [h cv]. by exists s'.
Qed.

Ltac fr :=
  repeat match goal with
    | |- frames _ (ret _) => apply fr_ret
    | |- frames _ (raise _) => apply fr_raise
    | |- frames _ update_scene_tree => apply fr_update_scene_tree
    | |- frames _ (selection_set _) => apply fr_selection_set
    | |- frames _ (register _) => apply fr_register
    | |- frames _ render => apply fr_render
    | |- frames _ (clicked_sprite _ _) => apply fr_clicked_sprite
    | |- frames _ (new_sprite _) => apply fr_new_sprite
    | |- frames _ (modify _) => apply fr_modify; intros ?; reflexivity
    | |- frames _ (bind get _) => apply fr_get; intros ?
    | |- frames _ (bind _ _) => apply fr_bind; [|intros ?]
    | |- frames _ (match ?x with _ => _ end) => destruct x
    end.

Lemma fr_create_sprite name x y : frames R (create_sprite name x y).
Proof. unfold create_sprite. fr. Qed.

Lemma fr_duplicate_sprite sprite : frames R (duplicate_sprite sprite).
Proof. unfold duplicate_sprite. fr. Qed.

Lemma fr_remove_sprite sprite : frames R (remove_sprite sprite).
Proof. unfold remove_sprite, update_inspector. fr. Qed.

Lemma fr_on_sprite_select : frames R on_sprite_select.
Proof. unfold on_sprite_select, update_inspector. fr. Qed.

Lemma fr_on_canvas_click ex ey :
  (∀ s, R s (Sprite.start_drag ex ey s)) → frames R (on_canvas_click ex ey).
Proof. intros Hf. unfold on_canvas_click, update_inspector. fr. by apply fr_mutate. Qed.

Lemma fr_on_right_click ex ey : frames R (on_right_click ex ey).
Proof. unfold on_right_click. fr. Qed.

Lemma fr_on_canvas_drag ex ey :
  (∀ s, R s (Sprite.update_drag ex ey s)) → frames R (on_canvas_drag ex ey).
Proof. intros Hf. unfold on_canvas_drag. fr. by apply fr_mutate. Qed.

Lemma fr_on_canvas_release :
  (∀ s, R s (Sprite.end_drag s)) → frames R on_canvas_release.
Proof. intros Hf. unfold on_canvas_release. fr. by apply fr_mutate. Qed.

Lemma fr_update_sprite_property p :
  (∀ s, R s (setattr p s)) → frames R (update_sprite_property p).
Proof. intros Hf. unfold update_sprite_property. fr. by apply fr_mutate. Qed.

Lemma fr_save_script a text :
  (∀ s, R s (Sprite.set_script (Some text) s)) → frames R (save_script a text).
Proof. intros Hf. unfold save_script, update_inspector. fr. by apply fr_mutate. Qed.

Lemma fr_start_tree_drag item : frames R (start_tree_drag item).
Proof. unfold start_tree_drag. fr. Qed.

(** The copy that a drop makes is moved to the pointer before it is
    registered: the objects there were are not touched. *)
Lemma fr_end_tree_drag ex ey pw ch : frames R (end_tree_drag ex ey pw ch).
Proof.
  unfold end_tree_drag. apply fr_get. intros st0.
  destruct (truthy_source _) as [source|]; [|apply fr_ret].
  apply fr_bind; [|intros ?; fr].
  destruct (bool_decide _); [|apply fr_ret].
  destruct (obj st0 _) as [[b original_sprite]|]; [|apply fr_ret].
  intros st. unfold exec, bind at 1. unfold new_sprite.
  unfold bind at 1. unfold mutate at 1, modify at 1.
  unfold bind at 1. unfold mutate at 1, modify at 1. cbn [heap set_heap set_uuid_calls].
  rewrite !alter_last.
  match goal with |- related _ _ (bind _ _ ?e).2 =>
    apply (related_trans _ e); [|apply (fr_bind (register _) _); [fr | intros ?; fr]]
  end.
  intros a s Hs. exists s. split; [|done]. simpl. by apply lookup_app_l_Some.
Qed.

Lemma fr_load_texture path opened :
  (∀ s img, R s (Sprite.set_texture img s)) → frames R (load_texture path opened).
Proof.
  intros Hf st. unfold exec, load_texture, bind, get.
  destruct (obj st (selected_sprite st)) as [[a sprite]|] eqn:Ho; [|apply related_refl].
  apply obj_Some in Ho as [_ Hs].
  destruct (bool_decide _); [|apply related_refl].
  destruct opened as [px|]; simpl.
  - apply related_mutate. intros s Hs'. assert (s = sprite) as -> by congruence. apply Hf.
  - apply related_mutate. intros s Hs'. assert (s = sprite) as -> by congruence.
    apply R_refl.
Qed.

Lemma fr_game_loop : frames R game_loop.
Proof. unfold game_loop, update. fr. Qed.

(** Every handler, given that the mutation it makes, if any, is within [R]. *)
Lemma fr_handle ev :
  match ev with
  | Button1 ex ey => ∀ s, R s (Sprite.start_drag ex ey s)
  | B1Motion ex ey => ∀ s, R s (Sprite.update_drag ex ey s)
  | ButtonRelease1 => ∀ s, R s (Sprite.end_drag s)
  | FocusOutName text => ∀ s, R s (Sprite.set_name text s)
  | FocusOutX _ => ∀ v s, R s (Sprite.set_x v s)
  | FocusOutY _ => ∀ v s, R s (Sprite.set_y v s)
  | SaveScript _ text | MenuSaveScript text => ∀ s, R s (Sprite.set_script (Some text) s)
  | LoadTextureButton _ _ => ∀ s img, R s (Sprite.set_texture img s)
  | _ => True
  end →
  frames R (handle ev).
Proof.
  intros Hev. destruct ev; simpl.
  - apply fr_bind; [apply fr_create_sprite | intros ?; apply fr_ret].
  - apply fr_duplicate_sprite.
  - apply fr_remove_sprite.
  - apply fr_get. intros ?. apply fr_duplicate_sprite.
  - apply fr_get. intros ?. apply fr_remove_sprite.
  - apply fr_get. intros st0.
    destruct (obj st0 _) as [[a0 s0]|]; [by apply fr_save_script | apply fr_ret].
  - by apply fr_save_script.
  - apply fr_on_sprite_select.
  - by apply fr_on_canvas_click.
  - apply fr_on_right_click.
  - by apply fr_on_canvas_drag.
  - by apply fr_on_canvas_release.
  - by apply fr_update_sprite_property.
  - unfold x_entry_focus_out. destruct (int text); [|apply fr_raise].
    apply fr_update_sprite_property. apply Hev.
  - unfold y_entry_focus_out. destruct (int text); [|apply fr_raise].
    apply fr_update_sprite_property. apply Hev.
  - apply fr_start_tree_drag.
  - apply fr_ret.
  - apply fr_end_tree_drag.
  - by apply fr_load_texture.
  - apply fr_game_loop.
  - by apply fr_modify.
Qed.

End framing.

Lemma spares_refl ev s : spares ev s s.
Proof. unfold spares. by destruct ev. Qed.

Lemma spares_trans ev s1 s2 s3 : spares ev s1 s2 → spares ev s2 s3 → spares ev s1 s3.
Proof.
  unfold spares.
  intros (-> & -> & -> & -> & -> & Hn & Hx & Hy & Ht & Hs)
         (-> & -> & -> & -> & -> & Hn' & Hx' & Hy' & Ht' & Hs').
  destruct ev; repeat split; congruence.
Qed.

Lemma spares_draw ev s cv : spares ev s (Sprite.draw s cv).1.
Proof. unfold Sprite.draw. destruct (Sprite.texture s) eqn:E; apply spares_refl || (unfold spares; simpl; by destruct ev). Qed.

(** X20. An event changes of the objects only what it is for, in any state
    and whether its handler returns or raises: every object stays in the
    heap with its identifier, colour, size and draggable flag; its name
    changes at most by the name entry, its position at most by a pointer
    motion or the X or Y entry (X for x, Y for y), its texture at most by the
    load button and its script at most by a save from the editor.  So a
    press or a release moves nothing, and duplicating, removing or drawing
    leaves every attribute of the objects there are. *)
Theorem events_change_what_they_are_for `{Platform}
    (ev : Event) (st : Engine) (a : addr) (s : Sprite.t) :
  heap st !! a = Some s →
  ∃ s', heap (exec (handle ev) st) !! a = Some s' ∧ spares ev s s'.
Proof.
  apply (fr_handle (spares ev) (spares_refl ev) (spares_trans ev) (spares_draw ev) ev).
  destruct ev; try exact I; intros; unfold spares; simpl; try done.
  - unfold Sprite.start_drag. destruct (Sprite.draggable s0) eqn:E; by repeat split.
  - unfold Sprite.update_drag. destruct (Sprite.is_dragging s0); by repeat split.
Qed.

Lemma events_change_what_they_are_for_witness :
  ∃ s', heap (exec (@handle demo (Button1 110 110)) (@FlamingEngineIDE_init demo)) !! 0
        = Some s' ∧
        Sprite.x s' = 100%Z ∧ Sprite.y s' = 100%Z ∧ Sprite.name s' = "TestObject"%string.
Proof.
  assert (∃ s, heap (@FlamingEngineIDE_init demo) !! 0 = Some s ∧
               Sprite.x s = 100%Z ∧ Sprite.y s = 100%Z ∧
               Sprite.name s = "TestObject"%string) as (s & Hs & Hx & Hy & Hn)
    by (object_at (heap (@FlamingEngineIDE_init demo) !! 0); by_vm).
  destruct (@events_change_what_they_are_for demo (Button1 110 110)
              (@FlamingEngineIDE_init demo) 0 s Hs)
    as (s' & Hs' & _ & _ & _ & _ & _ & Hn' & Hx' & Hy' & _).
  exists s'. split; [exact Hs'|]. simpl in Hn', Hx', Hy'.
  rewrite Hx', Hy', Hn'. split; [exact Hx|]. split; [exact Hy | exact Hn].
Defined.

(** ** The exceptions of the handlers *)

Section faults.
Context `{Platform}.
Hypothesis uuid4_fresh : Inj (=) (=) uuid4.

Lemma refusal_outcome st :
  rebuild_outcome (live st) =
  match refusal st with Some e => Raise e | None => Return tt end.
Proof. unfold rebuild_outcome, refusal. by destruct (forallb _ _). Qed.

Lemma duplicate_outcome st sprite :
  wf st →
  (duplicate_sprite sprite st).1 =
  match fault (CallDuplicate sprite) st with Some e => Raise e | None => Return tt end.
Proof.
  intros Hwf. unfold fault. cbv zeta.
  destruct (obj st sprite) as [[a s]|] eqn:Ho.
  - apply obj_Some in Ho as [-> Hs].
    pose proof (duplicate_sprite_runs uuid4_fresh st a s Hwf Hs) as Hrun.
    cbv zeta in Hrun. rewrite Hrun. apply refusal_outcome.
  - unfold duplicate_sprite, bind, get. by rewrite Ho.
Qed.

Lemma remove_outcome st sprite :
  wf st →
  (remove_sprite sprite st).1 =
  match fault (CallRemove sprite) st with Some e => Raise e | None => Return tt end.
Proof.
  intros Hwf. unfold fault. cbv zeta.
  destruct (obj st sprite) as [[a s]|] eqn:Ho.
  - apply obj_Some in Ho as [-> Hs]. destruct (dict_in _ _) eqn:Hkey.
    + pose proof (remove_sprite_runs st a s Hwf Hs Hkey) as Hrun.
      cbv zeta in Hrun. rewrite Hrun. apply refusal_outcome.
    + by rewrite (remove_sprite_absent st a s Hs Hkey).
  - unfold remove_sprite, bind, get. by rewrite Ho.
Qed.

Lemma assign_outcome st p :
  wf st →
  (update_sprite_property p st).1 =
  match
    match obj st (selected_sprite st) with
    | Some (a, _) => refusal (set_heap (alter (setattr p) a (heap st)) st)
    | None => None
    end
  with Some e => Raise e | None => Return tt end.
Proof.
  intros Hwf. destruct (obj st (selected_sprite st)) as [[a s]|] eqn:Ho.
  - apply obj_Some in Ho as [Hsel Hs].
    pose proof (update_sprite_property_runs st p a s Hwf Hsel Hs) as Hrun.
    cbv zeta in Hrun. rewrite Hrun. apply refusal_outcome.
  - unfold update_sprite_property, bind, get. by rewrite Ho.
Qed.

Lemma drop_outcome st ex ey pw ch :
  wf st →
  (end_tree_drag ex ey pw ch st).1 =
  match fault (TreeButtonRelease1 ex ey pw ch) st with
  | Some e => Raise e
  | None => Return tt
  end.
Proof.
  intros Hwf. unfold fault. cbv zeta.
  destruct (truthy_source (drag_source st)) as [source|] eqn:Hsrc;
    [|unfold end_tree_drag, bind, get; by rewrite Hsrc].
  case_bool_decide as Hover;
    [|unfold end_tree_drag, bind, get; rewrite Hsrc;
      by rewrite bool_decide_eq_false_2].
  destruct (obj st (dict_get source (sprites st))) as [[a s]|] eqn:Ho;
    [|unfold end_tree_drag, bind, get; rewrite Hsrc;
      rewrite bool_decide_eq_true_2 by done; by rewrite Ho].
  apply obj_Some in Ho as [Hget Hs]. destruct Hover as [Hx Hy].
  unfold truthy_source in Hsrc. destruct (drag_source st) as [item|] eqn:Hitem; [|done].
  case_bool_decide as Hne; [|done]. injection Hsrc as ->.
  pose proof (end_tree_drag_runs uuid4_fresh st source a s ex ey pw ch Hwf Hitem Hne
                Hget Hs Hx Hy) as Hrun.
  cbv zeta in Hrun. rewrite Hrun. apply refusal_outcome.
Qed.

(** What an event ends in, on a tidy state. *)
Lemma outcome_handle ev st :
  tidy st →
  (handle ev st).1 = match fault ev st with Some e => Raise e | None => Return tt end.
Proof.
  intros Ht. pose proof (proj1 (tidy_loose _ Ht)) as Hwf. destruct ev.
  - pose proof (create_sprite_runs uuid4_fresh st name x y Hwf) as Hrun.
    cbv zeta in Hrun. cbn [handle]. unfold bind. rewrite Hrun.
    unfold fault, rebuild_outcome, refusal. by destruct (forallb _ _).
  - by apply duplicate_outcome.
  - by apply remove_outcome.
  - exact (duplicate_outcome st (selected_sprite st) Hwf).
  - exact (remove_outcome st (selected_sprite st) Hwf).
  - cbn [handle fault]. unfold bind, get.
    by destruct (obj st (selected_sprite st)) as [[a s]|].
  - done.
  - cbn [handle fault]. unfold on_sprite_select, bind, get.
    by destruct (selection (scene_tree st)).
  - apply (click_outcome st x y
             (λ a, mutate a (Sprite.start_drag x y);; update_inspector)%py Ht).
    intros a st1. by eexists.
  - apply (click_outcome st x y (λ _, ret tt) Ht). intros a st1. by eexists.
  - cbn [handle fault]. unfold on_canvas_drag, bind, get.
    by destruct (obj st (selected_sprite st)) as [[a s]|].
  - cbn [handle fault]. unfold on_canvas_release, bind, get.
    by destruct (obj st (selected_sprite st)) as [[a s]|].
  - exact (assign_outcome st (SetName text) Hwf).
  - cbn [handle]. unfold x_entry_focus_out, fault. cbv zeta.
    destruct (int text) as [v|]; [|done]. exact (assign_outcome st (SetX v) Hwf).
  - cbn [handle]. unfold y_entry_focus_out, fault. cbv zeta.
    destruct (int text) as [v|]; [|done]. exact (assign_outcome st (SetY v) Hwf).
  - cbn [handle]. unfold start_tree_drag, fault. cbv zeta.
    case_bool_decide as Hitem.
    + unfold bind, modify, selection_set, bind, get, tree_selection_set. simpl.
      case_bool_decide as Hrow.
      * by rewrite bool_decide_eq_false_2 by tauto.
      * by rewrite bool_decide_eq_true_2.
    + by rewrite bool_decide_eq_false_2 by tauto.
  - done.
  - by apply drop_outcome.
  - cbn [handle fault]. unfold load_texture, bind, get.
    destruct (obj st (selected_sprite st)) as [[a s]|]; [|done].
    destruct (bool_decide _); [|done]. by destruct opened.
  - cbn [handle fault]. unfold game_loop, bind, get. by destruct (is_running st).
  - done.
Qed.

End faults.

(** X1. In every reachable state, as long as [uuid4] never repeats, an event
    raises exactly when [fault] says so, and then the exception it names:
    [IndexError] for the selection event on an empty tree selection;
    [ValueError] for an X or Y entry whose text [int] rejects; [TclError]
    for a press on a tree row that does not exist, for a click on a sprite
    whose row the tree does not have, and for a creation, a copy, a removal,
    an assignment from an entry or a drop from the tree after which some
    name of the scene is no Tcl list, so that the rebuild of the tree is
    refused.  Every other event returns.  In particular no click raises on
    the tags of a canvas item, and no row is refused for its identifier. *)
Theorem events_fault_exactly `{Platform} (evs : list Event) (ev : Event) :
  Inj (=) (=) uuid4 →
  let st := run evs FlamingEngineIDE_init in
  (handle ev st).1 =
  match fault ev st with
  | Some e => Raise e
  | None => Return tt
  end.
Proof.
  intros Hfresh st. pose proof (tidy_reachable Hfresh evs) as Ht. fold st in Ht.
  by apply outcome_handle.
Qed.

Lemma events_fault_exactly_witness :
  let st := @run demo [CallDuplicate (Some 0); Button1 110 110; ButtonRelease1;
                       FocusOutName "{"%string]
              (@FlamingEngineIDE_init demo) in
  (@handle demo (Button1 130 130) st).1 =
  match @fault demo (Button1 130 130) st with
  | Some e => Raise e
  | None => Return tt
  end.
Proof.
  exact (@events_fault_exactly demo
           [CallDuplicate (Some 0); Button1 110 110; ButtonRelease1;
            FocusOutName "{"%string]
           (Button1 130 130) demo_fresh).
Defined.
